(** * mat64: Cholesky factorisation, triangular solves and indexed access

    A shallow embedding of [mat64/cholesky.go] and of the bounds-checked
    index accessors of package [mat64], together with the properties of the
    factorisation core that are stated about them.

    Modelling conventions.
    - [float64] is Rocq's primitive binary64 float; all NaN payloads are one
      value [nan].  Arithmetic is evaluated operation by operation (no fused
      multiply-add).
    - Go's [int] is a [Z] with 64-bit two's-complement wrap-around written
      out at every arithmetic operation of the source.
    - A slice is a window (offset, length, capacity) on a backing array that
      lives in a heap; views that share a backing array alias.
    - A panic is an outcome of its own, carrying the state reached. *)

From Stdlib Require Import ZArith Lia Bool String Floats Reals Psatz.
From stdpp Require Import base option list gmap.

Local Open Scope Z_scope.

(** ** Machine integers *)

Definition int_wrap (z : Z) : Z := (z + 2 ^ 63) mod 2 ^ 64 - 2 ^ 63.
Definition imul (a b : Z) : Z := int_wrap (a * b).
Definition iadd (a b : Z) : Z := int_wrap (a + b).
(** Conversion [uintptr(k)] of an [int]. *)
Definition uintptr (z : Z) : Z := z mod 2 ^ 64.
Definition max_int : Z := 2 ^ 63 - 1.

(** ** float64 *)

Abbreviation float64 := PrimFloat.float.

(** [math.IsInf(f, 1)]. *)
Definition IsPosInf (f : float64) : bool := PrimFloat.eqb f infinity.

(** [math.Signbit] *)
Definition Signbit (f : float64) : bool := get_sign f.

(** [math.Max] of the Go standard library, with its special cases:
    [Max(x, +Inf) = Max(+Inf, x) = +Inf], [Max(x, NaN) = Max(NaN, x) = NaN],
    [Max(+0, ±0) = Max(±0, +0) = +0], [Max(-0, -0) = -0]. *)
Definition Max (x y : float64) : float64 :=
  if IsPosInf x || IsPosInf y then infinity
  else if is_nan x || is_nan y then nan
  else if PrimFloat.eqb x 0 && PrimFloat.eqb x y then
    (if Signbit x then y else x)
  else if PrimFloat.ltb y x then x else y.

(** ** Panics *)

(** The package's [Error] values that the modelled functions raise.  Their
    declarations are in the package's error file; only their identity is
    used here. *)
Inductive Error : Set := ErrRowAccess | ErrColAccess | ErrShape.

(** What a [panic] carries: a [mat64.Error], a plain string, or a fault of
    the Go runtime (index or slice bounds out of range). *)
Inductive panic_value : Set :=
| PanicError (e : Error)
| PanicString (s : string)
| PanicRuntime.

Definition badTriangle : string := "mat64: invalid triangle".
Definition triSetOutOfBounds : string := "mat64: triangular set out of bounds".

(** ** Outcomes and the state-and-panic monad *)

Inductive outcome (S A : Type) : Type :=
| Return (a : A) (s : S)
| Panic (p : panic_value) (s : S).
Arguments Return {S A} a s.
Arguments Panic {S A} p s.

Definition M (S A : Type) : Type := S -> outcome S A.

Definition ret {S A} (a : A) : M S A := fun s => Return a s.
Definition panic {S A} (p : panic_value) : M S A := fun s => Panic p s.
Definition bind {S A B} (m : M S A) (f : A -> M S B) : M S B :=
  fun s => match m s with
           | Return a s' => f a s'
           | Panic p s' => Panic p s'
           end.

Notation "'let*' x := m 'in' k" := (bind m (fun x => k))
  (at level 10, x pattern, m at level 100, k at level 200).
Notation "m >> k" := (bind m (fun _ => k))
  (at level 100, k at level 200, right associativity).

(** ** Memory: backing arrays and slices *)

Definition loc := positive.
Abbreviation heap := (gmap loc (list float64)).

Record slice : Set := mkSlice { base : loc; off : Z; len : Z; cap : Z }.

(** [s[i]] as an r-value. *)
Definition index (h : heap) (s : slice) (i : Z) : option float64 :=
  if (0 <=? i) && (i <? len s) then
    match h !! base s with
    | Some arr => arr !! Z.to_nat (off s + i)
    | None => None
    end
  else None.

(** [s[i] = v]. *)
Definition update (h : heap) (s : slice) (i : Z) (v : float64) : option heap :=
  if (0 <=? i) && (i <? len s) then
    match h !! base s with
    | Some arr =>
        if decide (Z.to_nat (off s + i) < length arr)%nat
        then Some (<[base s := <[Z.to_nat (off s + i) := v]> arr]> h)
        else None
    | None => None
    end
  else None.

(** [s[lo:hi]]; Go checks [0 <= lo <= hi <= cap(s)]. *)
Definition reslice (s : slice) (lo hi : Z) : option slice :=
  if (0 <=? lo) && (lo <=? hi) && (hi <=? cap s)
  then Some {| base := base s; off := off s + lo; len := hi - lo; cap := cap s - lo |}
  else None.

(** The elements visible through a slice, as a kernel receives them. *)
Definition contents (h : heap) (s : slice) : option (list float64) :=
  match h !! base s with
  | Some arr =>
      if decide (0 <= off s /\ 0 <= len s /\ off s + len s <= Z.of_nat (length arr))
      then Some (take (Z.to_nat (len s)) (drop (Z.to_nat (off s)) arr))
      else None
  | None => if decide (len s = 0) then Some [] else None
  end.

Definition load (s : slice) (i : Z) : M heap float64 :=
  fun h => match index h s i with
           | Some v => Return v h
           | None => Panic PanicRuntime h
           end.

Definition store (s : slice) (i : Z) (v : float64) : M heap unit :=
  fun h => match update h s i v with
           | Some h' => Return tt h'
           | None => Panic PanicRuntime h
           end.

(** ** The matrix views

    Each record flattens the Go struct and its [mat] field: [dRows m] is
    [m.mat.Rows], [tUplo t] is [t.mat.Uplo], and so on. *)

(** [blas.Uplo] and [blas.Diag] are integer types; these are the values of
    their constants. *)
Module blas.
Definition Upper : Z := 121.
Definition Lower : Z := 122.
Definition NonUnit : Z := 131.
Inductive Side : Set := Left | Right.
Inductive Transpose : Set := NoTrans | Trans.
End blas.

Record Dense : Set := mkDense { dRows : Z; dCols : Z; dStride : Z; dData : slice }.
Record Vector : Set := mkVector { vInc : Z; vData : slice; vn : Z }.
Record SymDense : Set := mkSym { sN : Z; sStride : Z; sData : slice; sUplo : Z }.
Record TriDense : Set :=
  mkTri { tN : Z; tStride : Z; tData : slice; tUplo : Z; tDiag : Z }.

(** ** Indexed access (the build without the [bounds] tag) *)

Module DenseIdx.
Definition at_ (m : Dense) (r c : Z) : M heap float64 :=
  load (dData m) (iadd (imul r (dStride m)) c).

Definition At (m : Dense) (r c : Z) : M heap float64 :=
  if (r >=? dRows m) || (r <? 0) then panic (PanicError ErrRowAccess)
  else if (c >=? dCols m) || (c <? 0) then panic (PanicError ErrColAccess)
  else at_ m r c.

Definition set_ (m : Dense) (r c : Z) (v : float64) : M heap unit :=
  store (dData m) (iadd (imul r (dStride m)) c) v.

Definition Set_ (m : Dense) (r c : Z) (v : float64) : M heap unit :=
  if (r >=? dRows m) || (r <? 0) then panic (PanicError ErrRowAccess)
  else if (c >=? dCols m) || (c <? 0) then panic (PanicError ErrColAccess)
  else set_ m r c v.
End DenseIdx.

Module VectorIdx.
Definition at_ (m : Vector) (r : Z) : M heap float64 :=
  load (vData m) (imul r (vInc m)).

Definition At (m : Vector) (r c : Z) : M heap float64 :=
  if (r <? 0) || (r >=? vn m) then panic (PanicError ErrRowAccess)
  else if negb (c =? 0) then panic (PanicError ErrColAccess)
  else at_ m r.

Definition set_ (m : Vector) (r : Z) (v : float64) : M heap unit :=
  store (vData m) (imul r (vInc m)) v.

Definition Set_ (m : Vector) (r c : Z) (v : float64) : M heap unit :=
  if (r <? 0) || (r >=? vn m) then panic (PanicError ErrRowAccess)
  else if negb (c =? 0) then panic (PanicError ErrColAccess)
  else set_ m r v.
End VectorIdx.

Module SymIdx.
Definition at_ (s : SymDense) (r c : Z) : M heap float64 :=
  let '(r, c) := if r >? c then (c, r) else (r, c) in
  load (sData s) (iadd (imul r (sStride s)) c).

Definition At (s : SymDense) (r c : Z) : M heap float64 :=
  if (r >=? sN s) || (r <? 0) then panic (PanicError ErrRowAccess)
  else if (c >=? sN s) || (c <? 0) then panic (PanicError ErrColAccess)
  else at_ s r c.

Definition set_ (s : SymDense) (r c : Z) (v : float64) : M heap unit :=
  let '(r, c) := if r >? c then (c, r) else (r, c) in
  store (sData s) (iadd (imul r (sStride s)) c) v.

Definition SetSym (s : SymDense) (r c : Z) (v : float64) : M heap unit :=
  if (r >=? sN s) || (r <? 0) then panic (PanicError ErrRowAccess)
  else if (c >=? sN s) || (c <? 0) then panic (PanicError ErrColAccess)
  else set_ s r c v.
End SymIdx.

Module TriIdx.
Definition at_ (t : TriDense) (r c : Z) : M heap float64 :=
  if tUplo t =? blas.Upper then
    if r >? c then ret 0%float
    else load (tData t) (iadd (imul r (tStride t)) c)
  else
    if r <? c then ret 0%float
    else load (tData t) (iadd (imul r (tStride t)) c).

Definition At (t : TriDense) (r c : Z) : M heap float64 :=
  if (r >=? tN t) || (r <? 0) then panic (PanicError ErrRowAccess)
  else if (c >=? tN t) || (c <? 0) then panic (PanicError ErrColAccess)
  else at_ t r c.

Definition set_ (t : TriDense) (r c : Z) (v : float64) : M heap unit :=
  store (tData t) (iadd (imul r (tStride t)) c) v.

Definition SetTri (t : TriDense) (r c : Z) (v : float64) : M heap unit :=
  if (r >=? tN t) || (r <? 0) then panic (PanicError ErrRowAccess)
  else if (c >=? tN t) || (c <? 0) then panic (PanicError ErrColAccess)
  else if (tUplo t =? blas.Upper) && (r >? c)
    then panic (PanicString triSetOutOfBounds)
  else if (tUplo t =? blas.Lower) && (r <? c)
    then panic (PanicString triSetOutOfBounds)
  else set_ t r c v.
End TriIdx.

(** ** Helpers of the package that the factoriser calls *)

(** Modelled from the spec: [SymDense.Symmetric] is not among the source
    files; it gives the dimension n of the symmetric view. *)
Definition Symmetric (a : SymDense) : Z := sN a.

(** Modelled from the spec: [TriDense.isZero] is not among the source files;
    a target is empty when it has no storage layout yet (stride zero, which
    the package keeps in step with dimension zero). *)
Definition isZero (t : TriDense) : bool := tStride t =? 0.

(** Modelled from the spec: [TriDense.Reset] is not among the source files;
    it puts the target back into the empty state: dimension and stride zero,
    no orientation claimed, no element visible ([Data[:0]]). *)
Definition Reset (t : TriDense) : TriDense :=
  {| tN := 0; tStride := 0;
     tData := {| base := base (tData t); off := off (tData t);
                 len := 0; cap := cap (tData t) |};
     tUplo := 0; tDiag := tDiag t |}.

(** Modelled from the spec: the allocation helper [use] is not among the
    source files; an empty target is given storage of the requested length:
    the first [l] slots of its own spare capacity when that suffices,
    a fresh zero-initialised array otherwise. *)
Definition use (f : slice) (l : Z) : M heap slice :=
  fun h =>
    if l <=? cap f then
      match reslice f 0 l with
      | Some s => Return s h
      | None => Panic PanicRuntime h
      end
    else
      let b := fresh (dom h) in
      Return {| base := b; off := 0; len := l; cap := l |}
             (<[b := replicate (Z.to_nat l) 0%float]> h).

(** ** The dot-product kernels of [internal/asm]

    The factoriser is parametric in the two kernels; the definitions below
    are the package's portable implementations, used to run the model. *)

Fixpoint DdotInc_loop (x y : list float64) (cnt : nat)
    (incX incY ix iy : Z) (sum : float64) : option float64 :=
  match cnt with
  | O => Some sum
  | S cnt' =>
      match y !! Z.to_nat iy, x !! Z.to_nat ix with
      | Some yv, Some xv =>
          DdotInc_loop x y cnt' incX incY
            (uintptr (ix + incX)) (uintptr (iy + incY)) (sum + yv * xv)%float
      | _, _ => None
      end
  end.

Definition DdotInc_ref (x y : list float64) (n incX incY ix iy : Z)
  : option float64 :=
  DdotInc_loop x y (Z.to_nat (int_wrap n)) incX incY ix iy 0%float.

Fixpoint DdotUnitary_loop (x y : list float64) (i : nat) (sum : float64)
  : option float64 :=
  match x with
  | [] => Some sum
  | v :: x' =>
      match y !! i with
      | Some yv => DdotUnitary_loop x' y (S i) (sum + yv * v)%float
      | None => None
      end
  end.

Definition DdotUnitary_ref (x y : list float64) : option float64 :=
  DdotUnitary_loop x y 0%nat 0%float.

(** ** The Cholesky factoriser *)

(** Run a heap action on behalf of the receiver [t]. *)
Definition on_heap {A} (f : TriDense -> M heap A) : M (TriDense * heap) A :=
  fun '(t, h) => match f t h with
                 | Return a h' => Return a (t, h')
                 | Panic p h' => Panic p (t, h')
                 end.

Definition get_tri : M (TriDense * heap) TriDense :=
  fun '(t, h) => Return t (t, h).

Definition modify_tri (f : TriDense -> TriDense) : M (TriDense * heap) unit :=
  fun '(t, h) => Return tt (f t, h).

Definition set_Uplo (u : Z) (t : TriDense) : TriDense :=
  {| tN := tN t; tStride := tStride t; tData := tData t;
     tUplo := u; tDiag := tDiag t |}.

(** A value a kernel or a slicing expression may fail to produce. *)
Definition runtime {A} (o : option A) : M heap A :=
  fun h => match o with
           | Some v => Return v h
           | None => Panic PanicRuntime h
           end.

Definition slice_contents (s : slice) : M heap (list float64) :=
  fun h => runtime (contents h s) h.

Section Factorizer.
Variable DdotInc :
  list float64 -> list float64 -> Z -> Z -> Z -> Z -> Z -> option float64.
Variable DdotUnitary : list float64 -> list float64 -> option float64.

(** Lines 23-33: allocate an empty target, refuse a wrongly sized one. *)
Definition prepare (a : SymDense) : M (TriDense * heap) unit :=
  let n := Symmetric a in
  fun '(t, h) =>
    if isZero t then
      match use (tData t) (imul n n) h with
      | Return data h' =>
          Return tt ({| tN := n; tStride := n; tData := data;
                        tUplo := 0; tDiag := blas.NonUnit |}, h')
      | Panic p h' => Panic p (t, h')
      end
    else if negb (n =? tN t) then Panic (PanicError ErrShape) (t, h)
    else Return tt (t, h).

(** Lines 41-51: the [k] loop of the upper branch, [cnt] iterations from [k]. *)
Fixpoint upper_inner (mat : slice) (stride : Z) (t : TriDense) (a : SymDense)
    (j : Z) (cnt : nat) (k : Z) (d : float64) : M heap float64 :=
  match cnt with
  | O => ret d
  | S cnt' =>
      let* x := slice_contents mat in
      let* s := runtime (DdotInc x x (uintptr k)
                           (uintptr stride) (uintptr stride)
                           (uintptr k) (uintptr j)) in
      let* ajk := SymIdx.at_ a j k in
      let* tkk := TriIdx.at_ t k k in
      let s := ((ajk - s) / tkk)%float in
      TriIdx.set_ t k j s >>
      upper_inner mat stride t a j cnt' (k + 1) (d + s * s)%float
  end.

(** Lines 63-68: the [k] loop of the lower branch. *)
Fixpoint lower_inner (mat : slice) (stride : Z) (t : TriDense) (a : SymDense)
    (j : Z) (cnt : nat) (k : Z) (d : float64) : M heap float64 :=
  match cnt with
  | O => ret d
  | S cnt' =>
      let* xs := runtime (reslice mat (imul k stride) (iadd (imul k stride) k)) in
      let* ys := runtime (reslice mat (imul j stride) (iadd (imul j stride) k)) in
      let* x := slice_contents xs in
      let* y := slice_contents ys in
      let* s := runtime (DdotUnitary x y) in
      let* ajk := SymIdx.at_ a j k in
      let* tkk := TriIdx.at_ t k k in
      let s := ((ajk - s) / tkk)%float in
      TriIdx.set_ t j k s >>
      lower_inner mat stride t a j cnt' (k + 1) (d + s * s)%float
  end.

Definition inner (upper : bool) :=
  if upper then upper_inner else lower_inner.

(** The diagonal candidate of column [j]: [d = a.at(j, j) - d] after the
    [k] loop (lines 40-52 and 62-69). *)
Definition pivot (upper : bool) (mat : slice) (stride : Z) (t : TriDense)
    (a : SymDense) (j : Z) : M heap float64 :=
  let* d := inner upper mat stride t a j (Z.to_nat j) 0 0%float in
  let* ajj := SymIdx.at_ a j j in
  ret (ajj - d)%float.

(** The [j] loop of either branch followed by [return true]:
    [cnt] iterations from [j]. *)
Fixpoint columns (upper : bool) (mat : slice) (stride : Z) (a : SymDense)
    (cnt : nat) (j : Z) : M (TriDense * heap) bool :=
  match cnt with
  | O => ret true
  | S cnt' =>
      let* d := on_heap (fun t => pivot upper mat stride t a j) in
      if (d <=? 0)%float then
        modify_tri Reset >> ret false
      else
        on_heap (fun t => TriIdx.set_ t j j (PrimFloat.sqrt (Max d 0))) >>
        columns upper mat stride a cnt' (j + 1)
  end.

Definition Cholesky (a : SymDense) (upper : bool) : M (TriDense * heap) bool :=
  let n := Symmetric a in
  prepare a >>
  let* t := get_tri in
  let mat := tData t in
  let stride := tStride t in
  modify_tri (set_Uplo (if upper then blas.Upper else blas.Lower)) >>
  columns upper mat stride a (Z.to_nat n) 0.
End Factorizer.


(** ** The solvers *)

(** A [Matrix] interface value: a pointer to a [Dense], or a value of some
    other implementation, of which only the dimensions matter here. *)
Inductive Matrix : Set :=
| MDense (p : loc)
| MOther (rows cols : Z).

(** The calls a solver makes to its collaborators, in program order. *)
Inductive call : Set :=
| CallCopy (dst : loc) (src : Matrix)
| CallTrsm (s : blas.Side) (tA : blas.Transpose) (alpha : float64)
           (a : TriDense) (b : Dense).

(** The state a solver runs in: the [Dense] headers by address, the backing
    arrays, and the calls made so far (most recent last). *)
Record world : Type :=
  mkWorld { objs : gmap loc Dense; mem : heap; calls : list call }.

(** Modelled from the spec: [TriDense.Dims] is not among the source files;
    a triangular view is n×n. *)
Definition TriDense_Dims (t : TriDense) : Z * Z := (tN t, tN t).

(** Modelled from the spec: [TriDense.Triangle] is not among the source
    files; it gives the dimension and whether the orientation is upper. *)
Definition Triangle (t : TriDense) : Z * bool := (tN t, tUplo t =? blas.Upper).

(** Modelled from the spec: [getBlasTriangular] is not among the source
    files; for a triangular view it is the view's own raw triangle. *)
Definition getBlasTriangular (t : TriDense) : TriDense := t.

(** [b != m]: an interface value equals a [*Dense] only when it holds that
    very pointer. *)
Definition same_object (b : Matrix) (m : loc) : bool :=
  match b with
  | MDense p => bool_decide (p = m)
  | MOther _ _ => false
  end.

Section Solvers.
(** The collaborators that are outside the factorisation core: the
    resizing policy and the element copy of [Dense], and the
    triangular-solve kernel [blas64.Trsm]. *)
Variable reuseAs : Dense -> Z -> Z -> M heap Dense.
Variable Copy : gmap loc Dense -> Dense -> Matrix -> M heap unit.
Variable Trsm :
  blas.Side -> blas.Transpose -> float64 -> TriDense -> Dense -> M heap unit.

(** Run a heap action inside a world. *)
Definition in_mem {A} (f : M heap A) : M world A :=
  fun w => match f (mem w) with
           | Return a h' => Return a (mkWorld (objs w) h' (calls w))
           | Panic p h' => Panic p (mkWorld (objs w) h' (calls w))
           end.

Definition record_call (c : call) : M world unit :=
  fun w => Return tt (mkWorld (objs w) (mem w) (calls w ++ [c])).

(** Dereference [m]. *)
Definition deref (m : loc) : M world Dense :=
  fun w => match objs w !! m with
           | Some d => Return d w
           | None => Panic PanicRuntime w
           end.

Definition assign (m : loc) (d : Dense) : M world unit :=
  fun w => Return tt (mkWorld (<[m := d]> (objs w)) (mem w) (calls w)).

(** [b.Dims()]. *)
Definition Dims (b : Matrix) : M world (Z * Z) :=
  match b with
  | MDense p => let* d := deref p in ret (dRows d, dCols d)
  | MOther r c => ret (r, c)
  end.

(** [m.reuseAs(r, c)]. *)
Definition do_reuseAs (m : loc) (r c : Z) : M world unit :=
  let* d := deref m in
  let* d' := in_mem (reuseAs d r c) in
  assign m d'.

(** [m.Copy(b)]. *)
Definition do_Copy (m : loc) (b : Matrix) : M world unit :=
  let* d := deref m in
  record_call (CallCopy m b) >>
  fun w => in_mem (Copy (objs w) d b) w.

(** [blas64.Trsm(s, tA, alpha, a, m.mat)]. *)
Definition do_Trsm (s : blas.Side) (tA : blas.Transpose) (alpha : float64)
    (a : TriDense) (m : loc) : M world unit :=
  let* d := deref m in
  record_call (CallTrsm s tA alpha a d) >>
  in_mem (Trsm s tA alpha a d).

Definition SolveCholesky (m : loc) (t : TriDense) (b : Matrix) : M world unit :=
  let '(_, n) := TriDense_Dims t in
  let* (bm, bn) := Dims b in
  if negb (n =? bm) then panic (PanicError ErrShape)
  else
    do_reuseAs m bm bn >>
    (if negb (same_object b m) then do_Copy m b else ret tt) >>
    let ta := getBlasTriangular t in
    if tUplo ta =? blas.Upper then
      do_Trsm blas.Left blas.Trans 1 ta m >>
      do_Trsm blas.Left blas.NoTrans 1 ta m
    else if tUplo ta =? blas.Lower then
      do_Trsm blas.Left blas.NoTrans 1 ta m >>
      do_Trsm blas.Left blas.Trans 1 ta m
    else panic (PanicString badTriangle).

Definition SolveTri (m : loc) (a : TriDense) (trans : bool) (b : Matrix)
  : M world unit :=
  let '(n, _) := Triangle a in
  let* (bm, bn) := Dims b in
  if negb (n =? bm) then panic (PanicError ErrShape)
  else
    do_reuseAs m bm bn >>
    (if negb (same_object b m) then do_Copy m b else ret tt) >>
    let ta := getBlasTriangular a in
    let t := if trans then blas.Trans else blas.NoTrans in
    if (tUplo ta =? blas.Upper) || (tUplo ta =? blas.Lower) then
      do_Trsm blas.Left t 1 ta m
    else panic (PanicString badTriangle).
End Solvers.


(** ** Well-formed views

    A slice is well formed in a heap when its window lies inside its backing
    array; a square view is well formed when its last element lies inside
    its slice. *)

Definition wf_slice (h : heap) (s : slice) : Prop :=
  0 <= off s /\ 0 <= len s <= cap s /\
  match h !! base s with
  | Some arr =>
      off s + cap s <= Z.of_nat (length arr) /\ Z.of_nat (length arr) <= max_int
  | None => False
  end.

Definition wf_square (h : heap) (n stride : Z) (data : slice) : Prop :=
  0 <= n <= stride /\ wf_slice h data /\
  (n = 0 \/ (n - 1) * stride + n <= len data).

Definition wf_sym (h : heap) (a : SymDense) : Prop :=
  wf_square h (sN a) (sStride a) (sData a).

Definition wf_tri (h : heap) (t : TriDense) : Prop :=
  wf_square h (tN t) (tStride t) (tData t).

(** ** The checked accessors of the four view kinds, by kind *)

Inductive view : Set :=
| VDense (m : Dense)
| VVector (v : Vector)
| VSym (s : SymDense)
| VTri (t : TriDense).

Definition Get (v : view) (r c : Z) : M heap float64 :=
  match v with
  | VDense m => DenseIdx.At m r c
  | VVector m => VectorIdx.At m r c
  | VSym s => SymIdx.At s r c
  | VTri t => TriIdx.At t r c
  end.

Definition Put (v : view) (r c : Z) (x : float64) : M heap unit :=
  match v with
  | VDense m => DenseIdx.Set_ m r c x
  | VVector m => VectorIdx.Set_ m r c x
  | VSym s => SymIdx.SetSym s r c x
  | VTri t => TriIdx.SetTri t r c x
  end.

(** The row count each kind checks against. *)
Definition view_rows (v : view) : Z :=
  match v with
  | VDense m => dRows m
  | VVector m => vn m
  | VSym s => sN s
  | VTri t => tN t
  end.

Definition row_in_range (v : view) (r : Z) : Prop := 0 <= r < view_rows v.

Definition col_in_range (v : view) (c : Z) : Prop :=
  match v with
  | VDense m => 0 <= c < dCols m
  | VVector _ => c = 0
  | VSym s => 0 <= c < sN s
  | VTri t => 0 <= c < tN t
  end.

(** The copy-in step shared by both solvers (lines 91-94 and 121-124): the
    result takes the shape of the right-hand side, and its elements unless
    it is the right-hand side itself. *)
Definition copy_in
    (reuseAs : Dense -> Z -> Z -> M heap Dense)
    (Copy : gmap loc Dense -> Dense -> Matrix -> M heap unit)
    (m : loc) (b : Matrix) (bm bn : Z) : M world unit :=
  do_reuseAs reuseAs m bm bn >>
  (if negb (same_object b m) then do_Copy Copy m b else ret tt).

(** ** Runs of the factoriser *)

Definition final_state {S A} (o : outcome S A) : S :=
  match o with
  | Return _ s => s
  | Panic _ s => s
  end.

(** [h'] differs from [h] at most in the elements of the array at [b]:
    every other array is the same, and no array changed its length. *)
Definition modifies_only (b : loc) (h h' : heap) : Prop :=
  forall l, (l <> b -> h' !! l = h !! l) /\
            length <$> (h' !! l) = length <$> (h !! l).

(** The orientation tag a call writes. *)
Definition orientation (upper : bool) : Z :=
  if upper then blas.Upper else blas.Lower.

Section Runs.
Variable DdotInc :
  list float64 -> list float64 -> Z -> Z -> Z -> Z -> Z -> option float64.
Variable DdotUnitary : list float64 -> list float64 -> option float64.

(** The call on [(t, h)] reaches the head of column [j] in state [stj]:
    the target was prepared and tagged, and the columns before [j] were
    completed without an early return or a panic. *)
Definition at_column (a : SymDense) (upper : bool) (st : TriDense * heap)
    (j : Z) (mat : slice) (stride : Z) (stj : TriDense * heap) : Prop :=
  0 <= j < Symmetric a /\
  exists t1 h1,
    prepare a st = Return tt (t1, h1) /\
    mat = tData t1 /\ stride = tStride t1 /\
    columns DdotInc DdotUnitary upper mat stride a (Z.to_nat j) 0
      (set_Uplo (orientation upper) t1, h1) = Return true stj.

(** The call computes the diagonal candidate [d] at column [j]. *)
Definition pivot_at (a : SymDense) (upper : bool) (st : TriDense * heap)
    (j : Z) (d : float64) : Prop :=
  exists mat stride tj hj h',
    at_column a upper st j mat stride (tj, hj) /\
    pivot DdotInc DdotUnitary upper mat stride tj a j hj = Return d h'.

(** The call evaluates [math.Sqrt(math.Max(d, 0))] at column [j]: it
    computed [d] there and the test [d <= 0] failed. *)
Definition sqrt_evaluated_at (a : SymDense) (upper : bool)
    (st : TriDense * heap) (j : Z) (d : float64) : Prop :=
  pivot_at a upper st j d /\ (d <=? 0)%float = false.
End Runs.

(** ** The factoriser without the guard

    The same loop and the same call with [math.Sqrt(d)] in place of
    [math.Sqrt(math.Max(d, 0))], to compare the factoriser with. *)

Section Unguarded.
Variable DdotInc :
  list float64 -> list float64 -> Z -> Z -> Z -> Z -> Z -> option float64.
Variable DdotUnitary : list float64 -> list float64 -> option float64.

Fixpoint columns_unguarded (upper : bool) (mat : slice) (stride : Z)
    (a : SymDense) (cnt : nat) (j : Z) : M (TriDense * heap) bool :=
  match cnt with
  | O => ret true
  | S cnt' =>
      let* d := on_heap (fun t => pivot DdotInc DdotUnitary upper mat stride t a j) in
      if (d <=? 0)%float then
        modify_tri Reset >> ret false
      else
        on_heap (fun t => TriIdx.set_ t j j (PrimFloat.sqrt d)) >>
        columns_unguarded upper mat stride a cnt' (j + 1)
  end.

Definition Cholesky_unguarded (a : SymDense) (upper : bool)
  : M (TriDense * heap) bool :=
  let n := Symmetric a in
  prepare a >>
  let* t := get_tri in
  let mat := tData t in
  let stride := tStride t in
  modify_tri (set_Uplo (if upper then blas.Upper else blas.Lower)) >>
  columns_unguarded upper mat stride a (Z.to_nat n) 0.
End Unguarded.

(** The invariant of the loops: input and target are well formed and of the
    same dimension. *)
Definition loop_inv (a : SymDense) (t : TriDense) (h : heap) : Prop :=
  wf_sym h a /\ wf_tri h t /\ tN t = sN a.

(** ** What the factoriser needs from the kernels and from its target *)

(** The [n] elements [x[i0], x[i0+inc], ...] exist (and [x] has a length
    a Go slice can have). *)
Definition strided_in_bounds (x : list float64) (n inc i0 : Z) : Prop :=
  Z.of_nat (length x) <= max_int /\
  (n = 0 \/ (0 <= i0 /\ 0 <= inc /\ i0 + (n - 1) * inc < Z.of_nat (length x))).

(** A strided dot-product kernel returns when the elements it is asked to
    read exist. *)
Definition DdotInc_safe
    (DdotInc : list float64 -> list float64 -> Z -> Z -> Z -> Z -> Z ->
               option float64) : Prop :=
  forall x y n incX incY ix iy,
    0 <= n <= max_int ->
    strided_in_bounds x n incX ix -> strided_in_bounds y n incY iy ->
    is_Some (DdotInc x y n incX incY ix iy).

(** A unitary dot-product kernel returns when [y] is at least as long as [x]. *)
Definition DdotUnitary_safe
    (DdotUnitary : list float64 -> list float64 -> option float64) : Prop :=
  forall x y, (length x <= length y)%nat -> is_Some (DdotUnitary x y).

(** A target the factoriser accepts for the input [a]: an empty one (whose
    spare capacity, if any, is backed by an array), or a well-formed one of
    the input's dimension. *)
Definition target_ready (h : heap) (t : TriDense) (a : SymDense) : Prop :=
  if isZero t then cap (tData t) = 0 \/ wf_slice h (tData t)
  else tN t = Symmetric a /\ wf_tri h t.

(** The target and the input are windows on different backing arrays. *)
Definition separate (t : TriDense) (a : SymDense) : Prop :=
  base (tData t) <> base (sData a).

(** A computation whose final state, returned or panicked, is always
    related to its initial state by [R]. *)
Definition preserves {S A} (R : S -> S -> Prop) (m : M S A) : Prop :=
  forall s, R s (final_state (m s)).

(** What a call may do to its target and the heap: the target keeps its
    backing array, and only that array's elements change. *)
Definition target_step (st st' : TriDense * heap) : Prop :=
  base (tData st'.1) = base (tData st.1) /\
  modifies_only (base (tData st.1)) st.2 st'.2.

(** ** The factor a successful call leaves, as equations in float64 *)

(** The element at offset [i] of a slice (0.0 where there is none). *)
Definition raw (h : heap) (s : slice) (i : Z) : float64 :=
  default 0%float (index h s i).

(** Where factor_entry(j, k), [k <= j], is kept: element (k, j) of an upper
    factor, (j, k) of a lower one. *)
Definition cell_offset (upper : bool) (t : TriDense) (j k : Z) : Z :=
  if upper then k * tStride t + j else j * tStride t + k.

Definition stored (upper : bool) (t : TriDense) (h : heap) (j k : Z) : float64 :=
  raw h (tData t) (cell_offset upper t j k).

(** input(j, k) for [k <= j], which the symmetric view keeps at (k, j). *)
Definition input_entry (a : SymDense) (h : heap) (j k : Z) : float64 :=
  raw h (sData a) (k * sStride a + j).

(** The indices [0, 1, ..., n-1]. *)
Definition zrange (n : Z) : list Z := map Z.of_nat (seq 0 (Z.to_nat n)).

(** [d] after the [k] loop: 0 + s0*s0 + s1*s1 + ..., added in this order. *)
Definition sum_squares (l : list float64) : float64 :=
  fold_left (fun d s => (d + s * s)%float) l 0%float.

(** The [n] elements [x[i0], x[i0+inc], ...] a strided kernel reads. *)
Definition gather (x : list float64) (n inc i0 : Z) : list float64 :=
  map (fun i => default 0%float (x !! Z.to_nat (i0 + i * inc))) (zrange n).

(** The strided kernel computes a dot product [dot] of the elements it
    gathers, and of nothing else. *)
Definition DdotInc_gathers
    (DdotInc : list float64 -> list float64 -> Z -> Z -> Z -> Z -> Z ->
               option float64)
    (dot : list float64 -> list float64 -> option float64) : Prop :=
  forall x y n incX incY ix iy,
    0 <= n <= max_int ->
    strided_in_bounds x n incX ix -> strided_in_bounds y n incY iy ->
    DdotInc x y n incX incY ix iy = dot (gather x n incX ix) (gather y n incY iy).

(** The dot product a branch takes: the strided kernel in the upper
    branch, the unitary one in the lower. *)
Definition branch_dot
    (dot_strided DdotUnitary : list float64 -> list float64 -> option float64)
    (upper : bool) : list float64 -> list float64 -> option float64 :=
  if upper then dot_strided else DdotUnitary.

(** The equation of factor_entry(j, k), [k < j], every operation rounded to
    float64: F(j,k) = (A(j,k) - dot(F(k,0..k-1), F(j,0..k-1))) / F(k,k). *)
Definition offdiag_equation
    (dot : list float64 -> list float64 -> option float64)
    (A F : Z -> Z -> float64) (j k : Z) : Prop :=
  exists s, dot (map (F k) (zrange k)) (map (F j) (zrange k)) = Some s /\
            F j k = ((A j k - s) / F k k)%float.

(** The equations of column [j]: those of its off-diagonal entries, and
    F(j,j) = sqrt(max(d, 0)) for d = A(j,j) - (F(j,0)^2 + ... + F(j,j-1)^2),
    which is not [<= 0]. *)
Definition column_equations
    (dot : list float64 -> list float64 -> option float64)
    (A F : Z -> Z -> float64) (j : Z) : Prop :=
  (forall k, 0 <= k < j -> offdiag_equation dot A F j k) /\
  let d := (A j j - sum_squares (map (F j) (zrange j)))%float in
  (d <=? 0)%float = false /\ F j j = PrimFloat.sqrt (Max d 0).

Definition factor_equations
    (dot : list float64 -> list float64 -> option float64)
    (A F : Z -> Z -> float64) (n : Z) : Prop :=
  forall j, 0 <= j < n -> column_equations dot A F j.

(** The invariant of the [k] loop of column [j], entered in heap [hs]: the
    input still reads as [A], the columns before [j] are as they were, the
    entries of column [j] before [k] satisfy their equations, and [d] is the
    sum of their squares. *)
Definition inner_inv
    (dot : list float64 -> list float64 -> option float64)
    (upper : bool) (a : SymDense) (t : TriDense) (A : Z -> Z -> float64)
    (hs : heap) (j k : Z) (d : float64) (h : heap) : Prop :=
  loop_inv a t h /\
  (forall jj kk, input_entry a h jj kk = A jj kk) /\
  (forall jj kk, 0 <= kk <= jj -> jj < j ->
     stored upper t h jj kk = stored upper t hs jj kk) /\
  (forall kk, 0 <= kk < k -> offdiag_equation dot A (stored upper t h) j kk) /\
  d = sum_squares (map (stored upper t h j) (zrange k)).

(** The invariant of the [j] loop: the input still reads as [A] and the
    columns before [j] satisfy their equations. *)
Definition outer_inv
    (dot : list float64 -> list float64 -> option float64)
    (upper : bool) (a : SymDense) (t : TriDense) (A : Z -> Z -> float64)
    (j : Z) (h : heap) : Prop :=
  loop_inv a t h /\
  (forall jj kk, input_entry a h jj kk = A jj kk) /\
  (forall jj, 0 <= jj < j -> column_equations dot A (stored upper t h) jj).

(** ** Symmetric positive-definite inputs *)

(** The real number a finite float64 stands for. *)
Definition exact (f : float64) : option R :=
  match Prim2SF f with
  | S754_zero _ => Some 0%R
  | S754_finite s m e =>
      Some ((if s then IZR (Zneg m) else IZR (Zpos m)) * powerRZ 2 e)%R
  | _ => None
  end.

(** The element (i, j) of the matrix a symmetric view stands for. *)
Definition sym_entry (a : SymDense) (h : heap) (i j : Z) : float64 :=
  input_entry a h (Z.max i j) (Z.min i j).

Definition sumR (n : Z) (f : Z -> R) : R :=
  fold_right (fun i acc => (f i + acc)%R) 0%R (zrange n).

(** xᵗ·A·x *)
Definition quadratic_form (n : Z) (A : Z -> Z -> R) (x : Z -> R) : R :=
  sumR n (fun i => sumR n (fun j => x i * A i j * x j)%R).

(** The view stands for a real matrix A with xᵗ·A·x > 0 for every x <> 0. *)
Definition positive_definite (a : SymDense) (h : heap) : Prop :=
  exists A : Z -> Z -> R,
    (forall i j, 0 <= i < sN a -> 0 <= j < sN a ->
       exact (sym_entry a h i j) = Some (A i j)) /\
    forall x : Z -> R,
      (exists i, 0 <= i < sN a /\ x i <> 0%R) ->
      (0 < quadratic_form (sN a) A x)%R.

(** ** Example data *)

(** The dot product the portable strided kernel computes of what it
    gathers: products added left to right. *)
Definition dot_ref (x y : list float64) : option float64 :=
  Some (fold_left (fun sum p => (sum + p.2 * p.1)%float) (zip x y) 0%float).

(** An empty target. *)
Definition empty_target : TriDense := mkTri 0 0 (mkSlice 2%positive 0 0 0) 0 0.

(** A 1×1 input whose only element is NaN. *)
Definition nan_input : SymDense := mkSym 1 1 (mkSlice 1%positive 0 1 1) blas.Upper.
Definition nan_heap : heap := {[ 1%positive := [nan] ]}.

(** The 2×2 symmetric positive-definite input [[4, 2], [2, 5]]. *)
Definition spd_input : SymDense := mkSym 2 2 (mkSlice 1%positive 0 4 4) blas.Upper.
Definition spd_heap : heap := {[ 1%positive := [4; 2; 2; 5]%float ]}.

(** The 2×2 input [[3, 3], [3, c]] with [c] the float64 next above 3: it is
    symmetric positive definite, with determinant 3·2^-51. *)
Definition near_singular_input : SymDense :=
  mkSym 2 2 (mkSlice 1%positive 0 4 4) blas.Upper.
Definition near_singular_heap : heap :=
  {[ 1%positive := [3; 3; 3; next_up 3]%float ]}.

(** ** Well-formed dense and vector views *)

(** A dense view is well formed when a row fits in the stride and the last
    element lies inside the slice. *)
Definition wf_dense (h : heap) (m : Dense) : Prop :=
  0 <= dRows m /\ 0 <= dCols m <= dStride m /\ wf_slice h (dData m) /\
  (dRows m = 0 \/ dCols m = 0 \/
   (dRows m - 1) * dStride m + dCols m <= len (dData m)).

(** A vector view is well formed when its increment is positive and its
    last element lies inside the slice. *)
Definition wf_vector (h : heap) (v : Vector) : Prop :=
  0 <= vn v /\ 0 < vInc v /\ wf_slice h (vData v) /\
  (vn v = 0 \/ (vn v - 1) * vInc v < len (vData v)).

(** ** Runs of the factoriser compared *)

(** The equations a run has established when it reaches the diagonal of
    column [j]: those of the columns before [j], and those of the
    off-diagonal entries of column [j]. *)
Definition equations_upto
    (dot : list float64 -> list float64 -> option float64)
    (A F : Z -> Z -> float64) (j : Z) : Prop :=
  (forall jj, 0 <= jj < j -> column_equations dot A F jj) /\
  (forall k, 0 <= k < j -> offdiag_equation dot A F j k).

(** The diagonal candidate of column [j] that the entries [F] give. *)
Definition candidate (A F : Z -> Z -> float64) (j : Z) : float64 :=
  (A j j - sum_squares (map (F j) (zrange j)))%float.

(** The coordinate (r, c) is strictly on the side of the diagonal that the
    branch does not write: below it in the upper branch, above it in the
    lower. *)
Definition inactive (upper : bool) (r c : Z) : Prop :=
  if upper then c < r else r < c.

(** [h'] keeps the target well formed and has, on the inactive side of its
    storage, the elements [h] has. *)
Definition keeps_inactive (upper : bool) (t : TriDense) (h h' : heap) : Prop :=
  wf_tri h t ->
  wf_tri h' t /\
  forall r c, 0 <= r < tN t -> 0 <= c < tN t -> inactive upper r c ->
    index h' (tData t) (r * tStride t + c) =
    index h (tData t) (r * tStride t + c).

(** What a run of the factoriser on the input [A] establishes about the
    entries [F] it leaves in the target's storage: all the equations when it
    returns true; those up to the diagonal of some column whose candidate
    is [<= 0] when it returns false. *)
Definition verdict
    (dot : list float64 -> list float64 -> option float64)
    (A : Z -> Z -> float64) (n : Z) (ok : bool) (F : Z -> Z -> float64) : Prop :=
  if ok then factor_equations dot A F n
  else exists j, 0 <= j < n /\ equations_upto dot A F j /\
                 (candidate A F j <=? 0)%float = true.

(** What [At(r, c)] reads from a factor with entries [F]: zero on the side
    the orientation does not store, the entry of the coordinate elsewhere. *)
Definition factor_element (upper : bool) (F : Z -> Z -> float64) (r c : Z)
  : float64 :=
  if (if upper then c <? r else r <? c) then 0%float
  else F (Z.max r c) (Z.min r c).

(** A target of dimension 2 that holds elements of an earlier use, in a
    heap beside the input [[4, 2], [2, 5]]. *)
Definition stale_target : TriDense :=
  mkTri 2 2 (mkSlice 3%positive 0 4 4) blas.Lower blas.NonUnit.
Definition stale_heap : heap :=
  <[3%positive := [7; 7; 7; 7]%float]> spd_heap.

(** The matrix [[4, 2], [2, 5]] once more, in a symmetric view of stride 3
    whose slot below the diagonal holds another value. *)
Definition wide_input : SymDense :=
  mkSym 2 3 (mkSlice 4%positive 0 5 6) blas.Upper.
Definition wide_heap : heap :=
  <[3%positive := [7; 7; 7; 7]%float]>
    {[ 4%positive := [4; 2; 0; 9; 5; 0]%float ]}.
(** * Properties *)

(** Decide the integer comparisons of the goal, closing the cases the
    hypotheses exclude. *)
Ltac zcases :=
  repeat match goal with
         | |- context [(?a >=? ?b)] => rewrite (Z.geb_leb a b)
         | |- context [(?a >? ?b)] => rewrite (Z.gtb_ltb a b)
         end;
  repeat match goal with
         | |- context [(?a <=? ?b)] => destruct (Z.leb_spec a b); try lia
         | |- context [(?a <? ?b)] => destruct (Z.ltb_spec a b); try lia
         | |- context [(?a =? ?b)] => destruct (Z.eqb_spec a b); try lia
         end.

(** ** Machine integers and slices *)

Lemma int_wrap_small (z : Z) : - 2 ^ 63 <= z <= max_int -> int_wrap z = z.
Proof.
  unfold int_wrap, max_int. intros Hz.
  rewrite Z.mod_small by lia. lia.
Qed.

Lemma index_in_bounds (h : heap) (s : slice) (i : Z) :
  wf_slice h s -> 0 <= i < len s -> is_Some (index h s i).
Proof.
  intros (Hoff & Hlen & Harr) Hi. unfold index.
  zcases; simpl.
  destruct (h !! base s) as [arr|]; [|contradiction].
  apply lookup_lt_is_Some. lia.
Qed.

Lemma update_in_bounds (h : heap) (s : slice) (i : Z) (v : float64) :
  wf_slice h s -> 0 <= i < len s -> is_Some (update h s i v).
Proof.
  intros (Hoff & Hlen & Harr) Hi. unfold update.
  zcases; simpl.
  destruct (h !! base s) as [arr|]; [|contradiction].
  destruct (decide _); [eauto | lia].
Qed.

Lemma index_update_eq (h h' : heap) (s : slice) (i : Z) (v : float64) :
  update h s i v = Some h' -> index h' s i = Some v.
Proof.
  unfold update, index. destruct ((0 <=? i) && (i <? len s)); [|discriminate].
  destruct (h !! base s) as [arr|]; [|discriminate].
  destruct (decide _) as [Hlt|]; [|discriminate].
  intros [= <-]. rewrite lookup_insert_eq.
  by apply list_lookup_insert_eq.
Qed.

(** The offset [r*stride + c] of an element of a well-formed square view
    does not wrap and lies inside the slice. *)
Lemma offset_in_bounds (h : heap) (n stride : Z) (data : slice) (r c : Z) :
  wf_square h n stride data -> 0 <= r < n -> 0 <= c < n ->
  iadd (imul r stride) c = r * stride + c /\ 0 <= r * stride + c < len data.
Proof.
  intros (Hn & (Hoff & Hlen & Harr) & Hlast) Hr Hc.
  destruct Hlast as [-> | Hlast]; [lia|].
  destruct (h !! base data) as [arr|]; [|contradiction].
  assert (0 <= r * stride <= (n - 1) * stride) by nia.
  unfold iadd, imul.
  rewrite (int_wrap_small (r * stride)) by (unfold max_int in *; lia).
  rewrite int_wrap_small by (unfold max_int in *; lia). lia.
Qed.

(** ** C8: bounds checks of the checked accessors *)

(** C8. For every view kind (dense, vector, symmetric, triangular) the
    checked accessors Get and Set panic with the out-of-range row violation
    when the row index is negative or at least the row count, and otherwise
    with the out-of-range column violation when the column index is negative
    or at least the dimension (for a vector: whenever it is not exactly 0).
    The heap is left as it was. *)
Theorem checked_access_out_of_range
    (v : view) (r c : Z) (x : float64) (h : heap) :
  ~ (row_in_range v r /\ col_in_range v c) ->
  let e := if decide (row_in_range v r) then ErrColAccess else ErrRowAccess in
  Get v r c h = Panic (PanicError e) h /\
  Put v r c x h = Panic (PanicError e) h.
Proof.
  intros Hout e. subst e. unfold row_in_range in *.
  destruct v as [m|m|s|t]; simpl in *;
    unfold DenseIdx.At, DenseIdx.Set_, VectorIdx.At, VectorIdx.Set_,
      SymIdx.At, SymIdx.SetSym, TriIdx.At, TriIdx.SetTri, panic;
    destruct (decide _) as [Hr|Hr]; zcases; simpl;
    try (split; reflexivity); exfalso; lia.
Qed.

Lemma checked_access_out_of_range_witness :
  let t := VTri (mkTri 2 2 (mkSlice 1%positive 0 4 4) blas.Upper blas.NonUnit) in
  (Get t 2 0 ∅ = Panic (PanicError ErrRowAccess) ∅ /\
   Put t 2 0 1%float ∅ = Panic (PanicError ErrRowAccess) ∅) /\
  (Get t 0 (-1) ∅ = Panic (PanicError ErrColAccess) ∅ /\
   Put t 0 (-1) 1%float ∅ = Panic (PanicError ErrColAccess) ∅).
Proof.
  split.
  - apply (checked_access_out_of_range
             (VTri (mkTri 2 2 (mkSlice 1%positive 0 4 4) blas.Upper blas.NonUnit))
             2 0 1%float ∅).
    unfold row_in_range; simpl; lia.
  - apply (checked_access_out_of_range
             (VTri (mkTri 2 2 (mkSlice 1%positive 0 4 4) blas.Upper blas.NonUnit))
             0 (-1) 1%float ∅).
    unfold row_in_range; simpl; lia.
Defined.

(** ** C5: the inactive half of a triangular view *)

(** C5. On an in-range coordinate strictly on the inactive side of the
    diagonal (below it for an upper view, above it for a lower view),
    [At] returns exactly 0.0 without failing, and [SetTri] panics with the
    message "mat64: triangular set out of bounds", a string and therefore
    none of the package's [Error] values that signal an index out of range. *)
Theorem TriDense_inactive_side
    (t : TriDense) (r c : Z) (v : float64) (h : heap) :
  0 <= r < tN t -> 0 <= c < tN t ->
  (tUplo t = blas.Upper /\ c < r) \/ (tUplo t = blas.Lower /\ r < c) ->
  TriIdx.At t r c h = Return 0%float h /\
  TriIdx.SetTri t r c v h = Panic (PanicString triSetOutOfBounds) h /\
  (forall e, PanicString triSetOutOfBounds <> PanicError e).
Proof.
  intros Hr Hc Hside.
  unfold TriIdx.At, TriIdx.SetTri, TriIdx.at_, panic, ret.
  destruct Hside as [[-> Hlt] | [-> Hlt]]; unfold blas.Upper, blas.Lower;
    zcases; simpl; repeat split; discriminate.
Qed.

Lemma TriDense_inactive_side_witness :
  let t := mkTri 2 2 (mkSlice 1%positive 0 4 4) blas.Upper blas.NonUnit in
  let h : heap := {[ 1%positive := [2; 1; 7; 3]%float ]} in
  TriIdx.At t 1 0 h = Return 0%float h /\
  TriIdx.SetTri t 1 0 5%float h = Panic (PanicString triSetOutOfBounds) h /\
  (forall e, PanicString triSetOutOfBounds <> PanicError e).
Proof.
  apply (TriDense_inactive_side
           (mkTri 2 2 (mkSlice 1%positive 0 4 4) blas.Upper blas.NonUnit)
           1 0 5%float {[ 1%positive := [2; 1; 7; 3]%float ]}); simpl; try lia.
Defined.

(** ** C6: coherence of the symmetric view *)

(** C6. On a well-formed symmetric view and an in-range pair (r, c),
    [SetSym(r, c, v)] succeeds and writes the one storage slot of the
    canonical coordinate (min r c, max r c); afterwards both [At(r, c)] and
    [At(c, r)] return v. *)
Theorem SetSym_then_At_both_ways
    (s : SymDense) (r c : Z) (v : float64) (h : heap) :
  wf_sym h s -> 0 <= r < sN s -> 0 <= c < sN s ->
  exists h',
    update h (sData s) (Z.min r c * sStride s + Z.max r c) v = Some h' /\
    SymIdx.SetSym s r c v h = Return tt h' /\
    SymIdx.At s r c h' = Return v h' /\
    SymIdx.At s c r h' = Return v h'.
Proof.
  intros Hwf Hr Hc.
  assert (Hmin : 0 <= Z.min r c < sN s) by lia.
  assert (Hmax : 0 <= Z.max r c < sN s) by lia.
  destruct (offset_in_bounds h _ _ _ _ _ Hwf Hmin Hmax) as [Hoff Hin].
  destruct Hwf as (_ & Hsl & _).
  destruct (update_in_bounds h _ _ v Hsl Hin) as [h' Hupd].
  exists h'. split; [exact Hupd|].
  pose proof (index_update_eq _ _ _ _ _ Hupd) as Hidx.
  unfold SymIdx.SetSym, SymIdx.At, SymIdx.set_, SymIdx.at_, store, load, panic.
  destruct (Z.min_spec r c) as [[? Emin]|[? Emin]],
           (Z.max_spec r c) as [[? Emax]|[? Emax]]; try lia;
    rewrite Emin, Emax in *; zcases; simpl;
    rewrite ?Hoff, ?Hupd, ?Hidx; try done.
  all: replace c with r in * by lia; rewrite ?Hoff, ?Hupd, ?Hidx; done.
Qed.

Lemma SetSym_then_At_both_ways_witness :
  let s := mkSym 2 2 (mkSlice 1%positive 0 4 4) blas.Upper in
  let h : heap := {[ 1%positive := [4; 2; 2; 5]%float ]} in
  exists h',
    update h (sData s) (Z.min 1 0 * sStride s + Z.max 1 0) 9%float = Some h' /\
    SymIdx.SetSym s 1 0 9%float h = Return tt h' /\
    SymIdx.At s 1 0 h' = Return 9%float h' /\
    SymIdx.At s 0 1 h' = Return 9%float h'.
Proof.
  apply (SetSym_then_At_both_ways
           (mkSym 2 2 (mkSlice 1%positive 0 4 4) blas.Upper) 1 0 9%float
           {[ 1%positive := [4; 2; 2; 5]%float ]}); try (simpl; lia).
  unfold wf_sym, wf_square, wf_slice, max_int; simpl.
  rewrite lookup_singleton_eq; simpl. lia.
Defined.

(** ** The solvers: C4 and C7 *)

Lemma bind_Return {S A B} (m : M S A) (f : A -> M S B) (s s' : S) (a : A) :
  m s = Return a s' -> bind m f s = f a s'.
Proof. unfold bind. by intros ->. Qed.

Lemma bind_Panic {S A B} (m : M S A) (f : A -> M S B) (s s' : S) p :
  m s = Panic p s' -> bind m f s = Panic p s'.
Proof. unfold bind. by intros ->. Qed.

Section SolverProperties.
Variable reuseAs : Dense -> Z -> Z -> M heap Dense.
Variable Copy : gmap loc Dense -> Dense -> Matrix -> M heap unit.
Variable Trsm :
  blas.Side -> blas.Transpose -> float64 -> TriDense -> Dense -> M heap unit.

(** After the shape check both solvers run the copy-in step and then
    dispatch on the orientation tag. *)
Lemma SolveCholesky_steps (m : loc) (t : TriDense) (b : Matrix) (w : world) :
  SolveCholesky reuseAs Copy Trsm m t b w =
  (let* (bm, bn) := Dims b in
   if negb (tN t =? bm) then panic (PanicError ErrShape)
   else
     copy_in reuseAs Copy m b bm bn >>
     if tUplo t =? blas.Upper then
       do_Trsm Trsm blas.Left blas.Trans 1 t m >>
       do_Trsm Trsm blas.Left blas.NoTrans 1 t m
     else if tUplo t =? blas.Lower then
       do_Trsm Trsm blas.Left blas.NoTrans 1 t m >>
       do_Trsm Trsm blas.Left blas.Trans 1 t m
     else panic (PanicString badTriangle)) w.
Proof.
  unfold SolveCholesky, copy_in, TriDense_Dims, getBlasTriangular, bind; simpl.
  destruct (Dims b w) as [[bm bn] w1| ]; [|done].
  destruct (negb (tN t =? bm)); [done|].
  destruct (do_reuseAs reuseAs m bm bn w1); [|done].
  by destruct (negb (same_object b m)).
Qed.

Lemma SolveTri_steps (m : loc) (t : TriDense) (trans : bool) (b : Matrix)
    (w : world) :
  SolveTri reuseAs Copy Trsm m t trans b w =
  (let* (bm, bn) := Dims b in
   if negb (tN t =? bm) then panic (PanicError ErrShape)
   else
     copy_in reuseAs Copy m b bm bn >>
     if (tUplo t =? blas.Upper) || (tUplo t =? blas.Lower) then
       do_Trsm Trsm blas.Left (if trans then blas.Trans else blas.NoTrans) 1 t m
     else panic (PanicString badTriangle)) w.
Proof.
  unfold SolveTri, copy_in, Triangle, getBlasTriangular, bind; simpl.
  destruct (Dims b w) as [[bm bn] w1| ]; [|done].
  destruct (negb (tN t =? bm)); [done|].
  destruct (do_reuseAs reuseAs m bm bn w1); [|done].
  by destruct (negb (same_object b m)).
Qed.

(** The copy-in step of a valid call: the header of the result is replaced
    by the one [reuseAs] gives, and [Copy] is called exactly when the
    right-hand side is another object. *)
Lemma copy_in_valid (m : loc) (b : Matrix) (bm bn : Z) (w : world)
    (d d1 : Dense) (h1 h2 : heap) :
  objs w !! m = Some d ->
  reuseAs d bm bn (mem w) = Return d1 h1 ->
  (if same_object b m then h2 = h1
   else Copy (<[m := d1]> (objs w)) d1 b h1 = Return tt h2) ->
  copy_in reuseAs Copy m b bm bn w =
  Return tt (mkWorld (<[m := d1]> (objs w)) h2
               (calls w ++ (if same_object b m then [] else [CallCopy m b]))).
Proof.
  intros Hm Hre Hcp.
  unfold copy_in, do_reuseAs, do_Copy, deref, in_mem, assign, record_call, bind, ret.
  rewrite Hm, Hre; simpl.
  destruct (same_object b m); simpl.
  - subst h2. by rewrite app_nil_r.
  - rewrite lookup_insert_eq; simpl. by rewrite Hcp.
Qed.

Lemma do_Trsm_valid (s : blas.Side) (tA : blas.Transpose) (alpha : float64)
    (t : TriDense) (m : loc) (w : world) (d : Dense) (h' : heap) :
  objs w !! m = Some d ->
  Trsm s tA alpha t d (mem w) = Return tt h' ->
  do_Trsm Trsm s tA alpha t m w =
  Return tt (mkWorld (objs w) h' (calls w ++ [CallTrsm s tA alpha t d])).
Proof.
  intros Hm Hk. unfold do_Trsm, deref, record_call, in_mem, bind.
  rewrite Hm; simpl. by rewrite Hk.
Qed.

(** C4. In a valid call of [SolveCholesky] (the right-hand side has as many
    rows as the factor, and the collaborators return), the result first
    takes the elements of the right-hand side, by one call of [Copy] unless
    the right-hand side is the result object itself, in which case nothing
    is copied; then exactly two [Trsm] calls run in place on the result:
    transposed then non-transposed for an upper factor, non-transposed then
    transposed for a lower factor. *)
Theorem SolveCholesky_copy_then_two_solves
    (m : loc) (t : TriDense) (b : Matrix) (w : world) (bn : Z)
    (d d1 : Dense) (h1 h2 h3 h4 : heap) (tr1 tr2 : blas.Transpose) :
  (tUplo t = blas.Upper /\ tr1 = blas.Trans /\ tr2 = blas.NoTrans) \/
  (tUplo t = blas.Lower /\ tr1 = blas.NoTrans /\ tr2 = blas.Trans) ->
  Dims b w = Return (tN t, bn) w ->
  objs w !! m = Some d ->
  reuseAs d (tN t) bn (mem w) = Return d1 h1 ->
  (if same_object b m then h2 = h1
   else Copy (<[m := d1]> (objs w)) d1 b h1 = Return tt h2) ->
  Trsm blas.Left tr1 1 t d1 h2 = Return tt h3 ->
  Trsm blas.Left tr2 1 t d1 h3 = Return tt h4 ->
  SolveCholesky reuseAs Copy Trsm m t b w =
  Return tt
    (mkWorld (<[m := d1]> (objs w)) h4
       (calls w ++ (if same_object b m then [] else [CallCopy m b]) ++
        [CallTrsm blas.Left tr1 1 t d1; CallTrsm blas.Left tr2 1 t d1])).
Proof.
  intros Hside Hdims Hm Hre Hcp Hk1 Hk2.
  rewrite SolveCholesky_steps.
  rewrite (bind_Return _ _ _ _ _ Hdims).
  rewrite Z.eqb_refl; simpl.
  rewrite (bind_Return _ _ _ _ _ (copy_in_valid _ _ _ _ _ _ _ _ _ Hm Hre Hcp)).
  set (w1 := mkWorld _ h2 _).
  assert (Hm1 : objs w1 !! m = Some d1) by (subst w1; simpl; apply lookup_insert_eq).
  assert (Hgo :
    (do_Trsm Trsm blas.Left tr1 1 t m >> do_Trsm Trsm blas.Left tr2 1 t m) w1 =
    Return tt (mkWorld (objs w1) h4
      (calls w1 ++ [CallTrsm blas.Left tr1 1 t d1; CallTrsm blas.Left tr2 1 t d1]))).
  { rewrite (bind_Return _ _ _ _ _ (do_Trsm_valid _ _ _ _ _ w1 _ _ Hm1 Hk1)).
    rewrite (do_Trsm_valid _ _ _ _ _ _ d1 h4); simpl; [|done|done].
    by rewrite <- app_assoc. }
  subst w1; simpl in *. rewrite <- app_assoc in Hgo.
  destruct Hside as [(-> & -> & ->) | (-> & -> & ->)]; simpl; exact Hgo.
Qed.

(** C7. Both solvers check their preconditions before doing anything else
    and fail by panicking.  When the row count of the right-hand side
    differs from the dimension of the triangular operand, each panics with
    [ErrShape] in the unchanged world.  When the shapes agree, the copy-in
    step returns and the orientation tag is neither upper nor lower, each
    panics with "mat64: invalid triangle".  In neither case does a solver
    return. *)
Theorem solvers_validate_preconditions
    (m : loc) (t : TriDense) (trans : bool) (b : Matrix) (w : world)
    (bm bn : Z) :
  Dims b w = Return (bm, bn) w ->
  (tN t <> bm ->
   SolveCholesky reuseAs Copy Trsm m t b w = Panic (PanicError ErrShape) w /\
   SolveTri reuseAs Copy Trsm m t trans b w = Panic (PanicError ErrShape) w) /\
  (tN t = bm -> tUplo t <> blas.Upper -> tUplo t <> blas.Lower ->
   forall w', copy_in reuseAs Copy m b bm bn w = Return tt w' ->
   SolveCholesky reuseAs Copy Trsm m t b w = Panic (PanicString badTriangle) w' /\
   SolveTri reuseAs Copy Trsm m t trans b w = Panic (PanicString badTriangle) w') /\
  (tN t <> bm \/ (tUplo t <> blas.Upper /\ tUplo t <> blas.Lower) ->
   forall u w',
   SolveCholesky reuseAs Copy Trsm m t b w <> Return u w' /\
   SolveTri reuseAs Copy Trsm m t trans b w <> Return u w').
Proof.
  intros Hdims.
  rewrite SolveCholesky_steps, SolveTri_steps.
  rewrite !(bind_Return _ _ _ _ _ Hdims).
  destruct (Z.eqb_spec (tN t) bm) as [Heq|Hne]; simpl.
  - split; [intros; contradiction|].
    split.
    + intros _ Hup Hlo w' Hci.
      rewrite !(bind_Return _ _ _ _ _ Hci).
      apply Z.eqb_neq in Hup, Hlo. by rewrite Hup, Hlo.
    + intros [Hne | [Hup Hlo]] u w'; [contradiction|].
      apply Z.eqb_neq in Hup, Hlo. unfold bind. rewrite Hup, Hlo; simpl.
      destruct (copy_in reuseAs Copy m b bm bn w); done.
  - split; [done|]. split; [intros; contradiction|]. done.
Qed.
End SolverProperties.

Lemma SolveCholesky_copy_then_two_solves_witness :
  let reuseAs := fun (d : Dense) (_ _ : Z) => ret d : M heap Dense in
  let Copy := fun (_ : gmap loc Dense) (_ : Dense) (_ : Matrix) =>
                ret tt : M heap unit in
  let Trsm := fun (_ : blas.Side) (_ : blas.Transpose) (_ : float64)
                  (_ : TriDense) (_ : Dense) => ret tt : M heap unit in
  let t := mkTri 2 2 (mkSlice 1%positive 0 4 4) blas.Upper blas.NonUnit in
  let d := mkDense 2 1 1 (mkSlice 2%positive 0 2 2) in
  let w := mkWorld {[ 5%positive := d ]} ∅ [] in
  SolveCholesky reuseAs Copy Trsm 5%positive t (MDense 5%positive) w =
  Return tt (mkWorld (<[5%positive := d]> {[ 5%positive := d ]}) ∅
               [CallTrsm blas.Left blas.Trans 1 t d;
                CallTrsm blas.Left blas.NoTrans 1 t d]).
Proof.
  exact (SolveCholesky_copy_then_two_solves
           (fun d _ _ => ret d) (fun _ _ _ => ret tt) (fun _ _ _ _ _ => ret tt)
           5%positive
           (mkTri 2 2 (mkSlice 1%positive 0 4 4) blas.Upper blas.NonUnit)
           (MDense 5%positive)
           (mkWorld {[ 5%positive := mkDense 2 1 1 (mkSlice 2%positive 0 2 2) ]} ∅ [])
           1 (mkDense 2 1 1 (mkSlice 2%positive 0 2 2))
           (mkDense 2 1 1 (mkSlice 2%positive 0 2 2)) ∅ ∅ ∅ ∅
           blas.Trans blas.NoTrans
           (or_introl (conj eq_refl (conj eq_refl eq_refl)))
           eq_refl eq_refl eq_refl eq_refl eq_refl eq_refl).
Defined.

Lemma solvers_validate_preconditions_witness :
  let reuseAs := fun (d : Dense) (_ _ : Z) => ret d : M heap Dense in
  let Copy := fun (_ : gmap loc Dense) (_ : Dense) (_ : Matrix) =>
                ret tt : M heap unit in
  let Trsm := fun (_ : blas.Side) (_ : blas.Transpose) (_ : float64)
                  (_ : TriDense) (_ : Dense) => ret tt : M heap unit in
  let t := mkTri 2 2 (mkSlice 1%positive 0 4 4) blas.Upper blas.NonUnit in
  let untagged := mkTri 2 2 (mkSlice 1%positive 0 4 4) 0 blas.NonUnit in
  let d := mkDense 2 1 1 (mkSlice 2%positive 0 2 2) in
  let w := mkWorld {[ 5%positive := d ]} ∅ [] in
  let w' := mkWorld (<[5%positive := d]> {[ 5%positive := d ]}) ∅
              [CallCopy 5%positive (MOther 2 1)] in
  (SolveCholesky reuseAs Copy Trsm 5%positive t (MOther 3 1) w =
     Panic (PanicError ErrShape) w /\
   SolveTri reuseAs Copy Trsm 5%positive t false (MOther 3 1) w =
     Panic (PanicError ErrShape) w) /\
  (SolveCholesky reuseAs Copy Trsm 5%positive untagged (MOther 2 1) w =
     Panic (PanicString badTriangle) w' /\
   SolveTri reuseAs Copy Trsm 5%positive untagged false (MOther 2 1) w =
     Panic (PanicString badTriangle) w').
Proof.
  split.
  - apply (solvers_validate_preconditions
             (fun d _ _ => ret d) (fun _ _ _ => ret tt) (fun _ _ _ _ _ => ret tt)
             5%positive
             (mkTri 2 2 (mkSlice 1%positive 0 4 4) blas.Upper blas.NonUnit)
             false (MOther 3 1)
             (mkWorld {[ 5%positive := mkDense 2 1 1 (mkSlice 2%positive 0 2 2) ]} ∅ [])
             3 1); [reflexivity | simpl; lia].
  - apply (solvers_validate_preconditions
             (fun d _ _ => ret d) (fun _ _ _ => ret tt) (fun _ _ _ _ _ => ret tt)
             5%positive
             (mkTri 2 2 (mkSlice 1%positive 0 4 4) 0 blas.NonUnit)
             false (MOther 2 1)
             (mkWorld {[ 5%positive := mkDense 2 1 1 (mkSlice 2%positive 0 2 2) ]} ∅ [])
             2 1); try reflexivity; try (unfold blas.Upper, blas.Lower; simpl; lia).
Defined.

(** ** Heaps, frames and the monad *)

Lemma modifies_only_refl (b : loc) (h : heap) : modifies_only b h h.
Proof. intros l; split; reflexivity. Qed.

Lemma modifies_only_trans (b : loc) (h1 h2 h3 : heap) :
  modifies_only b h1 h2 -> modifies_only b h2 h3 -> modifies_only b h1 h3.
Proof.
  intros H12 H23 l. destruct (H12 l) as [Ha Hb], (H23 l) as [Hc Hd].
  split; [intros Hl; rewrite Hc, Ha by done; done | congruence].
Qed.

Lemma update_modifies (h h' : heap) (s : slice) (i : Z) (v : float64) :
  update h s i v = Some h' -> modifies_only (base s) h h'.
Proof.
  unfold update. destruct ((0 <=? i) && (i <? len s)); [|discriminate].
  destruct (h !! base s) as [arr|] eqn:Harr; [|discriminate].
  destruct (decide _) as [Hlt|]; [|discriminate]. intros [= <-] l. split.
  - intros Hl. by rewrite lookup_insert_ne.
  - destruct (decide (l = base s)) as [->|Hl].
    + rewrite lookup_insert_eq, Harr; simpl. by rewrite length_insert.
    + by rewrite lookup_insert_ne.
Qed.

Lemma wf_slice_modifies (b : loc) (h h' : heap) (s : slice) :
  modifies_only b h h' -> wf_slice h s -> wf_slice h' s.
Proof.
  intros Hmod (Hoff & Hlen & Harr). repeat split; try lia.
  destruct (Hmod (base s)) as [_ Hsame].
  destruct (h !! base s) as [arr|]; [|contradiction].
  destruct (h' !! base s) as [arr'|]; [|discriminate].
  simpl in Hsame. injection Hsame as Hsame. rewrite Hsame. exact Harr.
Qed.

Lemma wf_square_modifies (b : loc) (h h' : heap) (n stride : Z) (s : slice) :
  modifies_only b h h' -> wf_square h n stride s -> wf_square h' n stride s.
Proof.
  intros Hmod (Hn & Hs & Hlast).
  split; [lia|]. split; [eapply wf_slice_modifies; eauto | exact Hlast].
Qed.

Section Preserves.
Context {S : Type} (R : S -> S -> Prop).
Hypothesis R_refl : forall s, R s s.
Hypothesis R_trans : forall s1 s2 s3, R s1 s2 -> R s2 s3 -> R s1 s3.

Lemma preserves_ret {A} (a : A) : preserves R (ret a).
Proof. intros s. apply R_refl. Qed.

Lemma preserves_panic {A} p : preserves R (panic p : M S A).
Proof. intros s. apply R_refl. Qed.

Lemma preserves_bind {A B} (m : M S A) (f : A -> M S B) :
  preserves R m -> (forall a, preserves R (f a)) -> preserves R (bind m f).
Proof.
  intros Hm Hf s. unfold bind. specialize (Hm s).
  destruct (m s) as [a s1|p s1]; simpl in *; [|done].
  eapply R_trans; [exact Hm | apply Hf].
Qed.
End Preserves.

Lemma target_step_refl st : target_step st st.
Proof. split; [done | apply modifies_only_refl]. Qed.

Lemma target_step_trans st1 st2 st3 :
  target_step st1 st2 -> target_step st2 st3 -> target_step st1 st3.
Proof.
  intros [Hb1 Hm1] [Hb2 Hm2]. split; [congruence|].
  rewrite Hb1 in Hm2. eapply modifies_only_trans; eauto.
Qed.

(** Reads leave the heap as it was. *)
Lemma load_state (s : slice) (i : Z) (h : heap) : final_state (load s i h) = h.
Proof. unfold load. by destruct (index h s i). Qed.

Lemma runtime_state {A} (o : option A) (h : heap) : final_state (runtime o h) = h.
Proof. unfold runtime. by destruct o. Qed.

Lemma slice_contents_state (s : slice) (h : heap) :
  final_state (slice_contents s h) = h.
Proof. unfold slice_contents. apply runtime_state. Qed.

Lemma preserves_load (b : loc) (s : slice) (i : Z) :
  preserves (modifies_only b) (load s i).
Proof. intros h. rewrite load_state. apply modifies_only_refl. Qed.

Lemma preserves_runtime {A} (b : loc) (o : option A) :
  preserves (modifies_only b) (runtime o).
Proof. intros h. rewrite runtime_state. apply modifies_only_refl. Qed.

Lemma preserves_slice_contents (b : loc) (s : slice) :
  preserves (modifies_only b) (slice_contents s).
Proof. intros h. rewrite slice_contents_state. apply modifies_only_refl. Qed.

Lemma preserves_store (s : slice) (i : Z) (v : float64) :
  preserves (modifies_only (base s)) (store s i v).
Proof.
  intros h. unfold store. destruct (update h s i v) eqn:E; simpl.
  - eapply update_modifies; eauto.
  - apply modifies_only_refl.
Qed.

Lemma preserves_sym_at (b : loc) (a : SymDense) (r c : Z) :
  preserves (modifies_only b) (SymIdx.at_ a r c).
Proof. unfold SymIdx.at_. destruct (r >? c); apply preserves_load. Qed.

Lemma preserves_tri_at (b : loc) (t : TriDense) (r c : Z) :
  preserves (modifies_only b) (TriIdx.at_ t r c).
Proof.
  unfold TriIdx.at_.
  destruct (tUplo t =? blas.Upper), (r >? c), (r <? c);
    first [apply preserves_load | apply preserves_ret, modifies_only_refl].
Qed.

Lemma preserves_tri_set (t : TriDense) (r c : Z) (v : float64) :
  preserves (modifies_only (base (tData t))) (TriIdx.set_ t r c v).
Proof. apply preserves_store. Qed.

Create HintDb frame.
#[local] Hint Resolve modifies_only_refl modifies_only_trans
  preserves_load preserves_runtime preserves_slice_contents
  preserves_sym_at preserves_tri_at preserves_tri_set : frame.

Ltac frame_bind :=
  repeat first
    [ apply preserves_bind; [apply modifies_only_trans | | intros ?]
    | apply preserves_ret, modifies_only_refl
    | solve [eauto with frame] ].

Section LoopFrames.
Variable DdotInc :
  list float64 -> list float64 -> Z -> Z -> Z -> Z -> Z -> option float64.
Variable DdotUnitary : list float64 -> list float64 -> option float64.

(** The [k] loops write only through the target's data slice. *)
Lemma inner_frame (upper : bool) (mat : slice) (stride : Z) (t : TriDense)
    (a : SymDense) (j : Z) (cnt : nat) (k : Z) (d : float64) :
  preserves (modifies_only (base (tData t)))
    (inner DdotInc DdotUnitary upper mat stride t a j cnt k d).
Proof.
  revert k d. induction cnt as [|cnt IH]; intros k d; destruct upper; simpl in *;
    frame_bind; apply IH.
Qed.

Lemma pivot_frame (upper : bool) (mat : slice) (stride : Z) (t : TriDense)
    (a : SymDense) (j : Z) :
  preserves (modifies_only (base (tData t)))
    (pivot DdotInc DdotUnitary upper mat stride t a j).
Proof. unfold pivot. frame_bind. apply inner_frame. Qed.

Lemma on_heap_step {A} (f : TriDense -> M heap A) :
  (forall t, preserves (modifies_only (base (tData t))) (f t)) ->
  preserves target_step (on_heap f).
Proof.
  intros Hf [t h]. unfold on_heap. specialize (Hf t h).
  destruct (f t h); simpl in *; split; done.
Qed.

Lemma columns_step (upper : bool) (mat : slice) (stride : Z) (a : SymDense)
    (cnt : nat) (j : Z) :
  preserves target_step (columns DdotInc DdotUnitary upper mat stride a cnt j).
Proof.
  revert j. induction cnt as [|cnt IH]; intros j; simpl.
  - apply preserves_ret, target_step_refl.
  - apply preserves_bind;
      [apply target_step_trans | | intros d].
    + apply on_heap_step. intros t. apply pivot_frame.
    + destruct (d <=? 0)%float.
      * apply preserves_bind;
          [apply target_step_trans | | intros _].
        -- intros [t h]. split; [done | apply modifies_only_refl].
        -- apply preserves_ret, target_step_refl.
      * apply preserves_bind;
          [apply target_step_trans | | intros _].
        -- apply on_heap_step. intros t. apply preserves_tri_set.
        -- apply IH.
Qed.
End LoopFrames.

(** ** float64: what the test [d <= 0] leaves *)

Lemma Prim2SF_zero : Prim2SF 0 = S754_zero false.
Proof. reflexivity. Qed.

Lemma Prim2SF_infinity : Prim2SF infinity = S754_infinity false.
Proof. reflexivity. Qed.

Lemma SFcompare_finite_refl (s : bool) (m : positive) (e : Z) :
  SFcompare (S754_finite s m e) (S754_finite s m e) = Some Eq.
Proof.
  simpl. destruct s; rewrite Z.compare_refl;
    change (Pcompare m m Eq) with (Pos.compare m m);
    by rewrite Pos.compare_refl.
Qed.

(** A float that is not [<= 0] is NaN, +Inf or a positive finite number. *)
Lemma not_leb_zero_cases (d : float64) :
  (d <=? 0)%float = false ->
  d = nan \/ d = infinity \/ exists m e, Prim2SF d = S754_finite false m e.
Proof.
  rewrite leb_spec, Prim2SF_zero. unfold SFleb.
  destruct (Prim2SF d) as [s|s| |s m e] eqn:E; simpl.
  - discriminate.
  - destruct s; [discriminate|]. intros _. right; left.
    apply Prim2SF_inj. by rewrite E.
  - intros _. left. apply Prim2SF_inj. by rewrite E.
  - destruct s; [discriminate|]. intros _. right; right. eauto.
Qed.

(** Past the test [d <= 0], [d] is positive or NaN, and [math.Max(d, 0)]
    is [d] itself. *)
Lemma Max_zero_after_test (d : float64) :
  (d <=? 0)%float = false ->
  ((0 <? d)%float = true \/ d = nan) /\ Max d 0 = d.
Proof.
  intros Hd. destruct (not_leb_zero_cases d Hd) as [-> | [-> | (m & e & E)]].
  - split; [by right | reflexivity].
  - split; [by left | reflexivity].
  - assert (Hlt : (0 <? d)%float = true)
      by (rewrite ltb_spec, Prim2SF_zero, E; reflexivity).
    split; [by left|].
    unfold Max, IsPosInf, is_nan.
    rewrite !FloatAxioms.eqb_spec, Prim2SF_infinity, Prim2SF_zero, E.
    unfold SFeqb at 1 2 3 4. rewrite SFcompare_finite_refl. simpl.
    by rewrite Hlt.
Qed.

(** ** The column loop *)

Section ColumnLoop.
Variable DdotInc :
  list float64 -> list float64 -> Z -> Z -> Z -> Z -> Z -> option float64.
Variable DdotUnitary : list float64 -> list float64 -> option float64.

Local Abbreviation columns := (columns DdotInc DdotUnitary).
Local Abbreviation pivot := (pivot DdotInc DdotUnitary).
Local Abbreviation Cholesky := (Cholesky DdotInc DdotUnitary).

(** One iteration of the [j] loop, by cases on the outcome of its steps. *)
Lemma columns_S (upper : bool) (mat : slice) (stride : Z) (a : SymDense)
    (cnt : nat) (j : Z) (t : TriDense) (h : heap) :
  columns upper mat stride a (S cnt) j (t, h) =
  match pivot upper mat stride t a j h with
  | Return d h1 =>
      if (d <=? 0)%float then Return false (Reset t, h1)
      else match TriIdx.set_ t j j (PrimFloat.sqrt (Max d 0)) h1 with
           | Return _ h2 => columns upper mat stride a cnt (j + 1) (t, h2)
           | Panic p h2 => Panic p (t, h2)
           end
  | Panic p h1 => Panic p (t, h1)
  end.
Proof.
  simpl. unfold bind, on_heap.
  destruct (pivot upper mat stride t a j h) as [d h1|p h1]; [|done].
  destruct (d <=? 0)%float; [done|].
  by destruct (TriIdx.set_ t j j (PrimFloat.sqrt (Max d 0)) h1).
Qed.

(** The loop leaves the header of the target alone unless it resets it. *)
Lemma columns_true_header (upper : bool) (mat : slice) (stride : Z)
    (a : SymDense) (cnt : nat) (j : Z) (t t' : TriDense) (h h' : heap) :
  columns upper mat stride a cnt j (t, h) = Return true (t', h') -> t' = t.
Proof.
  revert j h. induction cnt as [|cnt IH]; intros j h.
  - by intros [= <- <-].
  - rewrite columns_S.
    destruct (pivot upper mat stride t a j h) as [d h1|p h1]; [|done].
    destruct (d <=? 0)%float; [done|].
    destruct (TriIdx.set_ t j j (PrimFloat.sqrt (Max d 0)) h1) as [[] h2|]; [|done].
    apply IH.
Qed.

(** Running [c1 + c2] columns is running [c1] of them and, unless that
    returned early or panicked, [c2] more. *)
Lemma columns_app (upper : bool) (mat : slice) (stride : Z) (a : SymDense)
    (c1 c2 : nat) (j : Z) (st : TriDense * heap) :
  columns upper mat stride a (c1 + c2) j st =
  match columns upper mat stride a c1 j st with
  | Return true st1 => columns upper mat stride a c2 (j + Z.of_nat c1) st1
  | o => o
  end.
Proof.
  revert j st. induction c1 as [|c1 IH]; intros j [t h].
  - simpl. unfold ret. by rewrite Z.add_0_r.
  - change (S c1 + c2)%nat with (S (c1 + c2)). rewrite !columns_S.
    destruct (pivot upper mat stride t a j h) as [d h1|p h1]; [|done].
    destruct (d <=? 0)%float; [done|].
    destruct (TriIdx.set_ t j j (PrimFloat.sqrt (Max d 0)) h1) as [[] h2|]; [|done].
    rewrite IH. by replace (j + 1 + Z.of_nat c1) with (j + Z.of_nat (S c1)) by lia.
Qed.

(** A loop that returns false stopped at some column whose diagonal
    candidate was not positive, and reset the target there. *)
Lemma columns_false_inv (upper : bool) (mat : slice) (stride : Z)
    (a : SymDense) (cnt : nat) (j : Z) (st st' : TriDense * heap) :
  columns upper mat stride a cnt j st = Return false st' ->
  exists (i : nat) tj hj d h',
    (i < cnt)%nat /\
    columns upper mat stride a i j st = Return true (tj, hj) /\
    pivot upper mat stride tj a (j + Z.of_nat i) hj = Return d h' /\
    (d <=? 0)%float = true /\ st' = (Reset tj, h').
Proof.
  revert j st. induction cnt as [|cnt IH]; intros j [t h]; [done|].
  rewrite columns_S.
  destruct (pivot upper mat stride t a j h) as [d h1|p h1] eqn:Hp; [|done].
  destruct (d <=? 0)%float eqn:Hd.
  - intros [= <-]. exists 0%nat, t, h, d, h1.
    rewrite Z.add_0_r. repeat split; [lia | done..].
  - destruct (TriIdx.set_ t j j (PrimFloat.sqrt (Max d 0)) h1) as [[] h2|] eqn:Hs; [|done].
    intros Hrest. destruct (IH _ _ Hrest) as (i & tj & hj & d' & h' & Hi & Hrun & Hpiv & Hd' & ->).
    exists (S i), tj, hj, d', h'.
    rewrite columns_S, Hp, Hd, Hs.
    replace (j + Z.of_nat (S i)) with (j + 1 + Z.of_nat i) by lia.
    repeat split; [lia | done..].
Qed.

(** A column whose diagonal candidate is not positive ends the loop. *)
Lemma columns_stop (upper : bool) (mat : slice) (stride : Z) (a : SymDense)
    (cnt : nat) (j : Z) (t : TriDense) (h h' : heap) (d : float64) :
  pivot upper mat stride t a j h = Return d h' ->
  (d <=? 0)%float = true ->
  columns upper mat stride a (S cnt) j (t, h) = Return false (Reset t, h').
Proof. intros Hp Hd. by rewrite columns_S, Hp, Hd. Qed.

(** The call is the preparation of the target followed by the loop. *)
Lemma Cholesky_steps (a : SymDense) (upper : bool) (st : TriDense * heap) :
  Cholesky a upper st =
  match prepare a st with
  | Return _ (t1, h1) =>
      columns upper (tData t1) (tStride t1) a (Z.to_nat (Symmetric a)) 0
        (set_Uplo (orientation upper) t1, h1)
  | Panic p st' => Panic p st'
  end.
Proof.
  unfold Cholesky, bind, get_tri, modify_tri, orientation.
  destruct (prepare a st) as [[] [t1 h1]|]; done.
Qed.

(** The three ways the preparation can go. *)
Lemma prepare_cases (a : SymDense) (t : TriDense) (h : heap) :
  (isZero t = true /\
   exists data h1,
     use (tData t) (imul (sN a) (sN a)) h = Return data h1 /\
     prepare a (t, h) =
     Return tt (mkTri (sN a) (sN a) data 0 blas.NonUnit, h1)) \/
  (isZero t = true /\
   exists p, prepare a (t, h) = Panic p (t, h)) \/
  (isZero t = false /\ tN t <> sN a /\
   prepare a (t, h) = Panic (PanicError ErrShape) (t, h)) \/
  (isZero t = false /\ tN t = sN a /\ prepare a (t, h) = Return tt (t, h)).
Proof.
  unfold prepare, Symmetric. destruct (isZero t) eqn:Hz.
  - destruct (use _ _ h) as [data h1|p h1] eqn:Hu.
    + left. eauto.
    + right; left. split; [done|]. exists p.
      unfold use in Hu. destruct (_ <=? _); [|done].
      destruct (reslice _ _ _); [done|]. by inversion Hu.
  - right; right. destruct (Z.eqb_spec (sN a) (tN t)) as [Heq|Hne]; simpl.
    + right. done.
    + left. done.
Qed.
End ColumnLoop.

(** ** The factoriser: C2, C9 and C10 *)

Section FactorizerProperties.
Variable DdotInc :
  list float64 -> list float64 -> Z -> Z -> Z -> Z -> Z -> option float64.
Variable DdotUnitary : list float64 -> list float64 -> option float64.

Local Abbreviation columns := (columns DdotInc DdotUnitary).
Local Abbreviation pivot := (pivot DdotInc DdotUnitary).
Local Abbreviation Cholesky := (Cholesky DdotInc DdotUnitary).
Local Abbreviation pivot_at := (pivot_at DdotInc DdotUnitary).

(** A call that returns false stopped at a column the run reached, whose
    diagonal candidate was not positive, and left the target reset. *)
Lemma Cholesky_false_inv (a : SymDense) (upper : bool)
    (st st' : TriDense * heap) :
  Cholesky a upper st = Return false st' ->
  exists j d tj, pivot_at a upper st j d /\ (d <=? 0)%float = true /\
                 st'.1 = Reset tj.
Proof.
  rewrite Cholesky_steps.
  destruct (prepare a st) as [[] [t1 h1]|] eqn:Hprep; [|done].
  intros Hrun.
  destruct (columns_false_inv _ _ _ _ _ _ _ _ _ _ Hrun)
    as (i & tj & hj & d & h' & Hi & Hpre & Hpiv & Hd & ->).
  exists (Z.of_nat i), d, tj. split; [|done].
  exists (tData t1), (tStride t1), tj, hj, h'. split; [|done].
  split; [lia|]. exists t1, h1. rewrite Nat2Z.id. done.
Qed.

Lemma Cholesky_false_intro (a : SymDense) (upper : bool)
    (st : TriDense * heap) (j : Z) (d : float64) :
  pivot_at a upper st j d -> (d <=? 0)%float = true ->
  exists st', Cholesky a upper st = Return false st'.
Proof.
  intros (mat & stride & tj & hj & h' & (Hj & t1 & h1 & Hprep & -> & -> & Hpre) & Hpiv) Hd.
  rewrite Cholesky_steps, Hprep.
  replace (Z.to_nat (Symmetric a))
    with (Z.to_nat j + S (Z.to_nat (Symmetric a - j - 1)))%nat by lia.
  rewrite columns_app, Hpre. rewrite Z2Nat.id, Z.add_0_l by lia.
  eexists. by eapply columns_stop.
Qed.

(** C2. For every input and both orientations, the call returns false
    exactly when the run computes, at some column it reaches, a diagonal
    candidate [d <= 0]; and when it returns false the target is back in the
    empty state (dimension, stride and orientation zero, no element
    visible), so that every [At] on it panics: nothing of the partly
    written factor can be read through it. *)
Theorem Cholesky_false_iff_nonpositive_pivot
    (a : SymDense) (upper : bool) (t : TriDense) (h : heap) :
  ((exists st', Cholesky a upper (t, h) = Return false st') <->
   (exists j d, pivot_at a upper (t, h) j d /\ (d <=? 0)%float = true)) /\
  (forall t' h', Cholesky a upper (t, h) = Return false (t', h') ->
     tN t' = 0 /\ tStride t' = 0 /\ tUplo t' = 0 /\ len (tData t') = 0 /\
     isZero t' = true /\
     forall r c, exists p, TriIdx.At t' r c h' = Panic p h').
Proof.
  split.
  - split.
    + intros [st' Hrun].
      destruct (Cholesky_false_inv _ _ _ _ Hrun) as (j & d & tj & Hp & Hd & _).
      eauto.
    + intros (j & d & Hp & Hd). eapply Cholesky_false_intro; eauto.
  - intros t' h' Hrun.
    destruct (Cholesky_false_inv _ _ _ _ Hrun) as (j & d & tj & _ & _ & Ht').
    simpl in Ht'. subst t'. repeat split.
    intros r c. exists (PanicError ErrRowAccess).
    unfold TriIdx.At, Reset, panic; simpl. by zcases.
Qed.

(** The guard can be erased from the loop. *)
Lemma columns_unguarded_eq (upper : bool) (mat : slice) (stride : Z)
    (a : SymDense) (cnt : nat) (j : Z) (st : TriDense * heap) :
  columns upper mat stride a cnt j st =
  columns_unguarded DdotInc DdotUnitary upper mat stride a cnt j st.
Proof.
  revert j st. induction cnt as [|cnt IH]; intros j [t h]; [done|].
  rewrite columns_S. simpl. unfold bind, on_heap.
  destruct (pivot upper mat stride t a j h) as [d h1|p h1]; [|done].
  destruct (d <=? 0)%float eqn:Hd; [done|].
  destruct (Max_zero_after_test d Hd) as [_ ->].
  destruct (TriIdx.set_ t j j (PrimFloat.sqrt d) h1) as [[] h2|]; [|done].
  apply IH.
Qed.

(** C10, as the code has it.  Whenever the call evaluates
    [math.Sqrt(math.Max(d, 0))], the test [d <= 0] has failed, so [d] is
    positive or NaN; in both cases [math.Max(d, 0)] is [d]: the guard never
    changes what is passed to [math.Sqrt], in either branch, and the call
    does what it would do without the guard. *)
Theorem sqrt_argument_never_clamped
    (a : SymDense) (upper : bool) (st : TriDense * heap) :
  (forall j d,
     sqrt_evaluated_at DdotInc DdotUnitary a upper st j d ->
     ((0 <? d)%float = true \/ d = nan) /\ Max d 0 = d) /\
  Cholesky a upper st = Cholesky_unguarded DdotInc DdotUnitary a upper st.
Proof.
  split.
  - intros j d [_ Hd]. by apply Max_zero_after_test.
  - rewrite Cholesky_steps. unfold Cholesky_unguarded, bind.
    destruct (prepare a st) as [[] [t1 h1]|]; [|done]. simpl.
    apply columns_unguarded_eq.
Qed.

(** C9. The call never changes the backing array of its input, whether it
    returns true, returns false or panics, provided the target is a window
    on another array. *)
Theorem Cholesky_leaves_input_untouched
    (a : SymDense) (upper : bool) (t : TriDense) (h : heap)
    (arr : list float64) :
  h !! base (sData a) = Some arr ->
  separate t a ->
  (final_state (Cholesky a upper (t, h))).2 !! base (sData a) = Some arr.
Proof.
  intros Harr Hsep. unfold separate in Hsep. rewrite Cholesky_steps.
  assert (Hloop : forall t1 h1,
    base (tData t1) <> base (sData a) -> h1 !! base (sData a) = Some arr ->
    (final_state
       (columns upper (tData t1) (tStride t1) a (Z.to_nat (Symmetric a)) 0
          (set_Uplo (orientation upper) t1, h1))).2 !! base (sData a) = Some arr).
  { intros t1 h1 Hne H1.
    destruct (columns_step DdotInc DdotUnitary upper (tData t1) (tStride t1) a
                (Z.to_nat (Symmetric a)) 0 (set_Uplo (orientation upper) t1, h1))
      as [_ Hmod]. simpl in Hmod.
    destruct (Hmod (base (sData a))) as [Hsame _]. rewrite Hsame by done. done. }
  destruct (prepare_cases a t h)
    as [(Hz & data & h1 & Hu & ->) | [(Hz & p & ->) | [(Hz & Hn & ->) | (Hz & Hn & ->)]]];
    simpl; try done.
  - unfold use in Hu. destruct (_ <=? _).
    + destruct (reslice (tData t) 0 _) as [s|] eqn:Hs; [|done].
      injection Hu as <- <-.
      apply (Hloop (mkTri (sN a) (sN a) s 0 blas.NonUnit) h); [|done]. simpl.
      unfold reslice in Hs. destruct (_ && _); [|done]. by injection Hs as <-.
    + injection Hu as <- <-.
      assert (Hfresh : fresh (dom h) <> base (sData a)).
      { intros Heq. apply (is_fresh (dom h)). rewrite Heq.
        apply elem_of_dom. eauto. }
      apply (Hloop (mkTri (sN a) (sN a)
                      (mkSlice (fresh (dom h)) 0 (imul (sN a) (sN a))
                         (imul (sN a) (sN a))) 0 blas.NonUnit));
        simpl; [done|]. by rewrite lookup_insert_ne.
  - by apply Hloop.
Qed.
End FactorizerProperties.

(** On [[NaN]] the lower branch reaches [math.Sqrt(math.Max(d, 0))] at
    column 0 with [d = NaN]. *)
Lemma nan_input_reaches_sqrt :
  sqrt_evaluated_at DdotInc_ref DdotUnitary_ref nan_input false
    (empty_target, nan_heap) 0 nan.
Proof.
  split; [|reflexivity].
  exists (mkSlice 2%positive 0 1 1), 1,
    (mkTri 1 1 (mkSlice 2%positive 0 1 1) blas.Lower blas.NonUnit),
    (<[2%positive := [0%float]]> nan_heap), (<[2%positive := [0%float]]> nan_heap).
  split; [|vm_compute; reflexivity].
  split; [simpl; lia|].
  exists (mkTri 1 1 (mkSlice 2%positive 0 1 1) 0 blas.NonUnit),
    (<[2%positive := [0%float]]> nan_heap).
  repeat split; vm_compute; reflexivity.
Defined.

(** C10, as stated, fails: on the 1×1 input [[NaN]] the call evaluates
    [math.Sqrt(math.Max(d, 0))] with [d = NaN], for which [0 < d] is false,
    and it returns true with the factor [[NaN]]. *)
Lemma sqrt_argument_positive_counterexample :
  sqrt_evaluated_at DdotInc_ref DdotUnitary_ref nan_input false
    (empty_target, nan_heap) 0 nan /\
  (0 <? nan)%float = false /\
  Cholesky DdotInc_ref DdotUnitary_ref nan_input false (empty_target, nan_heap) =
  Return true (mkTri 1 1 (mkSlice 2%positive 0 1 1) blas.Lower blas.NonUnit,
               <[2%positive := [nan]]> nan_heap).
Proof.
  split; [exact nan_input_reaches_sqrt|]. split; [reflexivity|].
  vm_compute; reflexivity.
Qed.

Lemma sqrt_argument_never_clamped_witness :
  ((0 <? nan)%float = true \/ nan = nan) /\ Max nan 0 = nan.
Proof.
  apply (proj1 (sqrt_argument_never_clamped DdotInc_ref DdotUnitary_ref
                  nan_input false (empty_target, nan_heap)) 0 nan).
  exact nan_input_reaches_sqrt.
Defined.

(** ** The factoriser returns on well-formed arguments *)

Lemma uintptr_small (z : Z) : 0 <= z <= max_int -> uintptr z = z.
Proof. unfold uintptr, max_int. intros Hz. apply Z.mod_small. lia. Qed.

Lemma contents_wf (h : heap) (s : slice) :
  wf_slice h s ->
  exists x, contents h s = Some x /\ Z.of_nat (length x) = len s /\
            len s <= max_int.
Proof.
  intros (Hoff & Hlen & Harr). unfold contents.
  destruct (h !! base s) as [arr|]; [|contradiction].
  destruct (decide _) as [_|Hno]; [|lia].
  eexists. split; [done|]. rewrite length_take, length_drop. lia.
Qed.

Lemma reslice_contents (h : heap) (s : slice) (lo hi : Z) :
  wf_slice h s -> 0 <= lo <= hi -> hi <= cap s ->
  exists s' x, reslice s lo hi = Some s' /\ contents h s' = Some x /\
               Z.of_nat (length x) = hi - lo.
Proof.
  intros (Hoff & Hlen & Harr) Hlo Hhi. unfold reslice.
  replace ((0 <=? lo) && (lo <=? hi) && (hi <=? cap s)) with true
    by (symmetry; rewrite !andb_true_iff, !Z.leb_le; lia).
  destruct (h !! base s) as [arr|] eqn:Eb; [|contradiction].
  eexists _, _. split; [done|]. unfold contents; simpl. rewrite Eb.
  destruct (decide _) as [_|Hno]; [|lia].
  split; [done|]. rewrite length_take, length_drop. lia.
Qed.

Lemma wf_square_bounds (h : heap) (n stride : Z) (data : slice) :
  wf_square h n stride data ->
  0 <= n * n <= max_int /\ len data <= max_int /\
  (2 <= n -> stride <= max_int).
Proof.
  intros (Hn & (Hoff & Hlen & Harr) & Hlast).
  destruct (h !! base data) as [arr|]; [|contradiction].
  destruct (Z.eq_dec n 0) as [-> | Hn0]; [unfold max_int in *; lia|].
  destruct Hlast as [-> | Hlast]; [done|].
  assert (n * n <= (n - 1) * stride + n) by nia.
  repeat split; try nia.
Qed.

Lemma sym_at_returns (h : heap) (a : SymDense) (r c : Z) :
  wf_sym h a -> 0 <= r < sN a -> 0 <= c < sN a ->
  exists v, SymIdx.at_ a r c h = Return v h.
Proof.
  intros Hwf Hr Hc. unfold SymIdx.at_.
  destruct (r >? c); unfold load.
  - destruct (offset_in_bounds _ _ _ _ _ _ Hwf Hc Hr) as [-> Hin].
    destruct (index_in_bounds h (sData a) _ (proj1 (proj2 Hwf)) Hin) as [v ->]. eauto.
  - destruct (offset_in_bounds _ _ _ _ _ _ Hwf Hr Hc) as [-> Hin].
    destruct (index_in_bounds h (sData a) _ (proj1 (proj2 Hwf)) Hin) as [v ->]. eauto.
Qed.

Lemma tri_at_diag_returns (h : heap) (t : TriDense) (k : Z) :
  wf_tri h t -> 0 <= k < tN t ->
  exists v, TriIdx.at_ t k k h = Return v h.
Proof.
  intros Hwf Hk. unfold TriIdx.at_.
  destruct (offset_in_bounds _ _ _ _ _ _ Hwf Hk Hk) as [Eoff Hin].
  destruct (index_in_bounds h (tData t) _ (proj1 (proj2 Hwf)) Hin) as [v Hv].
  rewrite Z.gtb_ltb, Z.ltb_irrefl.
  destruct (_ =? _); unfold load; rewrite Eoff, Hv; eauto.
Qed.

Lemma tri_set_returns (h : heap) (t : TriDense) (r c : Z) (v : float64) :
  wf_tri h t -> 0 <= r < tN t -> 0 <= c < tN t ->
  exists h', TriIdx.set_ t r c v h = Return tt h' /\
             modifies_only (base (tData t)) h h'.
Proof.
  intros Hwf Hr Hc. unfold TriIdx.set_, store.
  destruct (offset_in_bounds _ _ _ _ _ _ Hwf Hr Hc) as [-> Hin].
  destruct (update_in_bounds h (tData t) _ v (proj1 (proj2 Hwf)) Hin) as [h' Hu].
  rewrite Hu. eexists. split; [done|]. eapply update_modifies; eauto.
Qed.

Lemma loop_inv_modifies (a : SymDense) (t : TriDense) (b : loc) (h h' : heap) :
  modifies_only b h h' -> loop_inv a t h -> loop_inv a t h'.
Proof.
  intros Hmod (Ha & Ht & Hn).
  split; [|split]; [eapply wf_square_modifies; eauto.. | done].
Qed.

Section Returns.
Variable DdotInc :
  list float64 -> list float64 -> Z -> Z -> Z -> Z -> Z -> option float64.
Variable DdotUnitary : list float64 -> list float64 -> option float64.
Hypothesis DdotInc_ok : DdotInc_safe DdotInc.
Hypothesis DdotUnitary_ok : DdotUnitary_safe DdotUnitary.

Local Abbreviation inner := (inner DdotInc DdotUnitary).
Local Abbreviation columns := (columns DdotInc DdotUnitary).
Local Abbreviation pivot := (pivot DdotInc DdotUnitary).
Local Abbreviation Cholesky := (Cholesky DdotInc DdotUnitary).

Lemma upper_inner_returns (t : TriDense) (a : SymDense) (j : Z) (cnt : nat)
    (k : Z) (d : float64) (h : heap) :
  loop_inv a t h -> 0 <= k -> k + Z.of_nat cnt <= j -> j < sN a ->
  exists d' h',
    upper_inner DdotInc (tData t) (tStride t) t a j cnt k d h = Return d' h' /\
    modifies_only (base (tData t)) h h'.
Proof.
  revert k d h. induction cnt as [|cnt IH]; intros k d h Hinv Hk Hcnt Hj.
  - exists d, h. split; [done | apply modifies_only_refl].
  - pose proof Hinv as (Ha & Ht & Hn).
    assert (Hkn : 0 <= k < tN t) by lia. assert (Hjn : 0 <= j < tN t) by lia.
    destruct (contents_wf h (tData t) (proj1 (proj2 Ht))) as (x & Hx & Hlx & Hmax).
    destruct (wf_square_bounds _ _ _ _ Ht) as (_ & _ & Hstride).
    pose proof Ht as (Hns & _ & Hlast).
    assert (Hdot : is_Some (DdotInc x x (uintptr k) (uintptr (tStride t))
                              (uintptr (tStride t)) (uintptr k) (uintptr j))).
    { rewrite !uintptr_small by lia.
      apply DdotInc_ok; [lia | |]; split; try lia; right;
        (split; [lia|]); (split; [lia|]); nia. }
    destruct Hdot as [s Hs].
    destruct (sym_at_returns h a j k Ha) as [ajk Hajk]; [lia..|].
    destruct (tri_at_diag_returns h t k Ht Hkn) as [tkk Htkk].
    destruct (tri_set_returns h t k j ((ajk - s) / tkk)%float Ht Hkn Hjn)
      as (h1 & Hset & Hmod).
    destruct (IH (k + 1) (d + (ajk - s) / tkk * ((ajk - s) / tkk))%float h1)
      as (d' & h' & Hrest & Hmod'); [|lia..|].
    { eapply loop_inv_modifies; eauto. }
    exists d', h'. split; [|eapply modifies_only_trans; eauto].
    simpl. unfold slice_contents.
    rewrite (bind_Return _ _ h h x) by (by rewrite Hx).
    rewrite (bind_Return _ _ h h s) by (by rewrite Hs).
    rewrite (bind_Return _ _ _ _ _ Hajk), (bind_Return _ _ _ _ _ Htkk).
    by rewrite (bind_Return _ _ _ _ _ Hset).
Qed.

Lemma lower_inner_returns (t : TriDense) (a : SymDense) (j : Z) (cnt : nat)
    (k : Z) (d : float64) (h : heap) :
  loop_inv a t h -> 0 <= k -> k + Z.of_nat cnt <= j -> j < sN a ->
  exists d' h',
    lower_inner DdotUnitary (tData t) (tStride t) t a j cnt k d h = Return d' h' /\
    modifies_only (base (tData t)) h h'.
Proof.
  revert k d h. induction cnt as [|cnt IH]; intros k d h Hinv Hk Hcnt Hj.
  - exists d, h. split; [done | apply modifies_only_refl].
  - pose proof Hinv as (Ha & Ht & Hn).
    assert (Hkn : 0 <= k < tN t) by lia. assert (Hjn : 0 <= j < tN t) by lia.
    destruct (wf_square_bounds _ _ _ _ Ht) as (_ & Hmax & Hstride).
    pose proof Ht as (Hns & Hsl & Hlast).
    pose proof Hsl as (_ & Hlen & _).
    assert (Hk0 : 0 <= k < tN t) by lia.
    destruct (offset_in_bounds _ _ _ _ _ _ Ht Hkn Hk0) as [Ekk _].
    destruct (offset_in_bounds _ _ _ _ _ _ Ht Hjn Hk0) as [Ejk _].
    assert (Ek : imul k (tStride t) = k * tStride t).
    { unfold imul. apply int_wrap_small. unfold max_int in *. nia. }
    assert (Ej : imul j (tStride t) = j * tStride t).
    { unfold imul. apply int_wrap_small. unfold max_int in *. nia. }
    rewrite Ek in Ekk. rewrite Ej in Ejk.
    destruct (reslice_contents h (tData t) (k * tStride t) (k * tStride t + k) Hsl)
      as (xs & x & Hxs & Hx & Hlx); [nia | nia |].
    destruct (reslice_contents h (tData t) (j * tStride t) (j * tStride t + k) Hsl)
      as (ys & y & Hys & Hy & Hly); [nia | nia |].
    destruct (DdotUnitary_ok x y) as [s Hs]; [lia|].
    destruct (sym_at_returns h a j k Ha) as [ajk Hajk]; [lia..|].
    destruct (tri_at_diag_returns h t k Ht Hkn) as [tkk Htkk].
    destruct (tri_set_returns h t j k ((ajk - s) / tkk)%float Ht Hjn Hkn)
      as (h1 & Hset & Hmod).
    destruct (IH (k + 1) (d + (ajk - s) / tkk * ((ajk - s) / tkk))%float h1)
      as (d' & h' & Hrest & Hmod'); [|lia..|].
    { eapply loop_inv_modifies; eauto. }
    exists d', h'. split; [|eapply modifies_only_trans; eauto].
    simpl. rewrite Ek, Ej, Ekk, Ejk. unfold slice_contents.
    rewrite (bind_Return _ _ h h xs) by (by rewrite Hxs).
    rewrite (bind_Return _ _ h h ys) by (by rewrite Hys).
    rewrite (bind_Return _ _ h h x) by (by rewrite Hx).
    rewrite (bind_Return _ _ h h y) by (by rewrite Hy).
    rewrite (bind_Return _ _ h h s) by (by rewrite Hs).
    rewrite (bind_Return _ _ _ _ _ Hajk), (bind_Return _ _ _ _ _ Htkk).
    by rewrite (bind_Return _ _ _ _ _ Hset).
Qed.

Lemma pivot_returns (upper : bool) (t : TriDense) (a : SymDense) (j : Z)
    (h : heap) :
  loop_inv a t h -> 0 <= j < sN a ->
  exists d h',
    pivot upper (tData t) (tStride t) t a j h = Return d h' /\
    modifies_only (base (tData t)) h h'.
Proof.
  intros Hinv Hj.
  assert (Hin : exists d' h',
    inner upper (tData t) (tStride t) t a j (Z.to_nat j) 0 0%float h =
      Return d' h' /\ modifies_only (base (tData t)) h h').
  { destruct upper; simpl;
      [apply upper_inner_returns | apply lower_inner_returns]; try done; lia. }
  destruct Hin as (d' & h' & Hin & Hmod).
  assert (Hinv' : loop_inv a t h') by (eapply loop_inv_modifies; eauto).
  destruct (sym_at_returns h' a j j (proj1 Hinv') Hj Hj) as [ajj Hajj].
  exists (ajj - d')%float, h'. split; [|done].
  unfold pivot. rewrite (bind_Return _ _ _ _ _ Hin).
  by rewrite (bind_Return _ _ _ _ _ Hajj).
Qed.

(** The column loop returns; when it returns true the header is the one it
    started with, and in any case only the target's array changed. *)
Lemma columns_returns (upper : bool) (t : TriDense) (a : SymDense)
    (cnt : nat) (j : Z) (h : heap) :
  loop_inv a t h -> 0 <= j -> j + Z.of_nat cnt <= sN a ->
  exists ok t' h',
    columns upper (tData t) (tStride t) a cnt j (t, h) = Return ok (t', h') /\
    modifies_only (base (tData t)) h h' /\
    t' = (if ok then t else Reset t).
Proof.
  revert j h. induction cnt as [|cnt IH]; intros j h Hinv Hj Hcnt.
  - exists true, t, h. split; [done|]. split; [apply modifies_only_refl | done].
  - rewrite columns_S.
    destruct (pivot_returns upper t a j h Hinv) as (d & h1 & -> & Hmod1); [lia|].
    assert (Hinv1 : loop_inv a t h1) by (eapply loop_inv_modifies; eauto).
    destruct (d <=? 0)%float.
    + exists false, (Reset t), h1. done.
    + pose proof Hinv1 as (Ha & Ht & Hn).
      destruct (tri_set_returns h1 t j j (PrimFloat.sqrt (Max d 0)) Ht) as (h2 & -> & Hmod2);
        [lia..|].
      destruct (IH (j + 1) h2) as (ok & t' & h' & Hrun & Hmod3 & Ht'); [|lia..|].
      { eapply loop_inv_modifies; eauto. }
      exists ok, t', h'. split; [done|]. split; [|done].
      eapply modifies_only_trans; [exact Hmod1|].
      eapply modifies_only_trans; [exact Hmod2 | exact Hmod3].
Qed.

(** The preparation of a ready target on a well-formed input of positive
    dimension returns, and establishes the invariant of the loops. *)
Lemma prepare_returns (a : SymDense) (t : TriDense) (h : heap) :
  wf_sym h a -> target_ready h t a -> 0 < sN a ->
  exists t1 h1,
    prepare a (t, h) = Return tt (t1, h1) /\ loop_inv a t1 h1 /\
    (if isZero t
     then tStride t1 = sN a /\ len (tData t1) = sN a * sN a /\
          tUplo t1 = 0 /\ tDiag t1 = blas.NonUnit
     else t1 = t /\ h1 = h).
Proof.
  intros Ha Hready Hpos. unfold target_ready in Hready.
  destruct (wf_square_bounds _ _ _ _ Ha) as (Hnn & _ & _).
  assert (Enn : imul (sN a) (sN a) = sN a * sN a)
    by (apply int_wrap_small; unfold max_int in *; lia).
  unfold prepare, Symmetric, use. destruct (isZero t); rewrite ?Enn.
  - destruct (Z.leb_spec (sN a * sN a) (cap (tData t))) as [Hcap|Hcap].
    + destruct Hready as [Hnil | (Hoff & Hlen & Harr)]; [nia|].
      unfold reslice.
      replace ((0 <=? 0) && (0 <=? sN a * sN a) && (sN a * sN a <=? cap (tData t)))
        with true by (symmetry; rewrite !andb_true_iff, !Z.leb_le; lia).
      eexists _, h. split; [done|]. split; [|simpl; repeat split; lia].
      split; [done|]. split; [|done].
      unfold wf_tri, wf_square, wf_slice; simpl.
      split; [lia|]. split; [|right; nia].
      repeat split; try lia.
      destruct (h !! base (tData t)); [lia | done].
    + eexists _, _. split; [done|]. split; [|simpl; repeat split; lia].
      destruct Ha as (Hn & (Hoff & Hlen & Harr) & Hlast).
      assert (Hne : base (sData a) <> fresh (dom h)).
      { intros Heq. apply (is_fresh (dom h)). rewrite <- Heq.
        apply elem_of_dom. destruct (h !! base (sData a)); [eauto | done]. }
      split; [|split; [|done]].
      * unfold wf_sym, wf_square, wf_slice.
        rewrite lookup_insert_ne by done. done.
      * unfold wf_tri, wf_square, wf_slice; simpl.
        split; [lia|]. split; [|right; nia].
        repeat split; try lia.
        rewrite lookup_insert_eq, length_replicate. lia.
  - destruct Hready as [Hn Ht]. unfold Symmetric in Hn.
    replace (sN a =? tN t) with true by (symmetry; apply Z.eqb_eq; lia).
    exists t, h. split; [done|]. split; [|done].
    split; [done|]. split; [done | lia].
Qed.

Lemma loop_inv_set_Uplo (a : SymDense) (t : TriDense) (u : Z) (h : heap) :
  loop_inv a t h -> loop_inv a (set_Uplo u t) h.
Proof. by intros (Ha & Ht & Hn). Qed.

(** On a well-formed input and a ready target the call returns.  A target
    that was not empty keeps its array, of which only the elements change.
    On failure the target is reset; on success it is the prepared header
    with the orientation tag of the call. *)
Lemma Cholesky_returns (a : SymDense) (upper : bool) (t : TriDense) (h : heap) :
  wf_sym h a -> target_ready h t a ->
  exists ok t' h',
    Cholesky a upper (t, h) = Return ok (t', h') /\
    (isZero t = false -> modifies_only (base (tData t)) h h') /\
    (ok = false -> isZero t' = true) /\
    (ok = true ->
     tN t' = sN a /\ tUplo t' = orientation upper /\
     (0 < sN a -> wf_tri h' t') /\
     (isZero t = false -> t' = set_Uplo (orientation upper) t)).
Proof.
  intros Ha Hready. rewrite Cholesky_steps.
  destruct (Z.eq_dec (sN a) 0) as [Hz|Hnz].
  - assert (Hcnt : Z.to_nat (Symmetric a) = 0%nat) by (unfold Symmetric; lia).
    destruct (prepare_cases a t h)
      as [(Ht & data & h1 & Hu & ->) | [(Ht & p & Hp) | [(Ht & Hn & Hp) | (Ht & Hn & ->)]]].
    + rewrite Hcnt. eexists true, _, _. split; [done|].
      split; [by rewrite Ht|]. split; [done|]. intros _.
      simpl. rewrite Ht. repeat split; try done; lia.
    + exfalso. unfold prepare, Symmetric, use in Hp. rewrite Ht, Hz in Hp.
      unfold target_ready in Hready. rewrite Ht in Hready.
      change (imul 0 0) with 0 in Hp. unfold reslice in Hp. simpl in Hp.
      destruct Hready as [Hnil | (Hoff & Hlen & Harr)].
      * rewrite Hnil in Hp. simpl in Hp. done.
      * replace (0 <=? cap (tData t)) with true in Hp
          by (symmetry; apply Z.leb_le; lia). done.
    + exfalso. unfold target_ready in Hready. rewrite Ht in Hready.
      unfold Symmetric in Hready. lia.
    + rewrite Hcnt. eexists true, _, _. split; [done|].
      split; [intros _; apply modifies_only_refl|]. split; [done|]. intros _.
      simpl. repeat split; try done; try lia.
  - assert (Hpos : 0 < sN a) by (destruct Ha as (? & _); lia).
    destruct (prepare_returns a t h Ha Hready Hpos) as (t1 & h1 & -> & Hinv & Hshape).
    apply (loop_inv_set_Uplo _ _ (orientation upper)) in Hinv.
    destruct (columns_returns upper _ a (Z.to_nat (Symmetric a)) 0 h1 Hinv)
      as (ok & t' & h' & Hrun & Hmod & Ht'); [lia | unfold Symmetric; lia |].
    simpl in Hrun, Hmod. exists ok, t', h'. split; [exact Hrun|].
    split.
    { intros Ht. rewrite Ht in Hshape. by destruct Hshape as [-> ->]. }
    destruct ok; subst t'.
    + split; [done|]. intros _.
      destruct Hinv as (_ & Ht1 & Hn1). simpl in Hn1.
      split; [done|]. split; [done|].
      split; [intros _; eapply wf_square_modifies; eauto|].
      intros Ht. rewrite Ht in Hshape. by destruct Hshape as [-> ->].
    + split; [done|]. done.
Qed.
End Returns.

(** ** The portable kernels are safe *)

Lemma DdotUnitary_loop_returns (x y : list float64) (i : nat) (sum : float64) :
  (i + length x <= length y)%nat -> is_Some (DdotUnitary_loop x y i sum).
Proof.
  revert i sum. induction x as [|v x IH]; intros i sum Hlen; simpl in *; [eauto|].
  destruct (lookup_lt_is_Some_2 y i) as [yv ->]; [lia|].
  apply IH. lia.
Qed.

Lemma DdotUnitary_ref_safe : DdotUnitary_safe DdotUnitary_ref.
Proof. intros x y Hlen. apply DdotUnitary_loop_returns. lia. Qed.

Lemma DdotInc_loop_returns (x y : list float64) (cnt : nat)
    (incX incY ix iy : Z) (sum : float64) :
  strided_in_bounds x (Z.of_nat cnt) incX ix ->
  strided_in_bounds y (Z.of_nat cnt) incY iy ->
  is_Some (DdotInc_loop x y cnt incX incY ix iy sum).
Proof.
  revert ix iy sum. induction cnt as [|cnt IH]; intros ix iy sum Hx Hy; [simpl; eauto|].
  destruct Hx as [Hmx [Hx | (Hix & Hinc & Hlast)]]; [lia|].
  destruct Hy as [Hmy [Hy | (Hiy & Hincy & Hlasty)]]; [lia|].
  simpl.
  destruct (lookup_lt_is_Some_2 y (Z.to_nat iy)) as [yv ->]; [nia|].
  destruct (lookup_lt_is_Some_2 x (Z.to_nat ix)) as [xv ->]; [nia|].
  apply IH; (split; [done|]); destruct cnt as [|cnt]; [by left | | by left |];
    right; rewrite uintptr_small by nia; (split; [lia|]); (split; [lia|]); nia.
Qed.

Lemma DdotInc_ref_safe : DdotInc_safe DdotInc_ref.
Proof.
  intros x y n incX incY ix iy Hn Hx Hy. unfold DdotInc_ref.
  rewrite int_wrap_small by (unfold max_int in *; lia).
  apply DdotInc_loop_returns; by rewrite Z2Nat.id by lia.
Qed.

(** ** C3: what the call does with its target *)

Lemma use_len (f s : slice) (l : Z) (h h' : heap) :
  use f l h = Return s h' -> len s = l.
Proof.
  unfold use, reslice. destruct (l <=? cap f).
  - destruct (_ && _); [|done]. intros [= <- _]. simpl. lia.
  - by intros [= <- _].
Qed.

Section TargetPolicy.
Variable DdotInc :
  list float64 -> list float64 -> Z -> Z -> Z -> Z -> Z -> option float64.
Variable DdotUnitary : list float64 -> list float64 -> option float64.

Local Abbreviation columns := (columns DdotInc DdotUnitary).
Local Abbreviation Cholesky := (Cholesky DdotInc DdotUnitary).

(** The header the [j] loop leaves: the one it was given when it returns
    true, that one reset when it returns false. *)
Lemma columns_final_header (upper : bool) (mat : slice) (stride : Z)
    (a : SymDense) (cnt : nat) (j : Z) (t t' : TriDense) (h h' : heap)
    (ok : bool) :
  columns upper mat stride a cnt j (t, h) = Return ok (t', h') ->
  t' = if ok then t else Reset t.
Proof.
  destruct ok; intros Hrun.
  - by apply columns_true_header in Hrun.
  - destruct (columns_false_inv _ _ _ _ _ _ _ _ _ _ Hrun)
      as (i & tj & hj & d & h'' & _ & Hpre & _ & _ & Hst).
    apply columns_true_header in Hpre as ->. by injection Hst as -> _.
Qed.

(** C3. A target that is not empty and whose dimension differs from the
    input's makes the call panic with [ErrShape], target and heap as they
    were.  With safe kernels and a well-formed input of dimension n: an
    empty target is given storage of n*n elements by [use], and the call is
    the column loop run on that very target, of dimension n, stride n and
    that storage: the call returns, from the allocation on only elements of
    the allocated storage change, and the target the caller gets back is
    the allocated one with the orientation tag of the call when the call
    returns true (that one reset when it returns false).  A well-formed
    target of dimension n is used as it is: the call is the column loop run
    on the caller's own header and storage, no storage is allocated, only
    elements of the target's own array change, and the target the caller
    gets back is its own header with the orientation tag of the call (reset
    when the call returns false). *)
Theorem Cholesky_target_policy
    (a : SymDense) (upper : bool) (t : TriDense) (h : heap) :
  let n := Symmetric a in
  (isZero t = false -> tN t <> n ->
   Cholesky a upper (t, h) = Panic (PanicError ErrShape) (t, h)) /\
  (DdotInc_safe DdotInc -> DdotUnitary_safe DdotUnitary -> wf_sym h a ->
   (isZero t = true -> cap (tData t) = 0 \/ wf_slice h (tData t) ->
    exists data h1 ok t' h',
      let t1 := mkTri n n data (orientation upper) blas.NonUnit in
      use (tData t) (imul n n) h = Return data h1 /\
      len data = n * n /\
      prepare a (t, h) = Return tt (mkTri n n data 0 blas.NonUnit, h1) /\
      Cholesky a upper (t, h) =
        columns upper data n a (Z.to_nat n) 0 (t1, h1) /\
      Cholesky a upper (t, h) = Return ok (t', h') /\
      modifies_only (base data) h1 h' /\
      t' = (if ok then t1 else Reset t1)) /\
   (isZero t = false -> tN t = n -> wf_tri h t ->
    prepare a (t, h) = Return tt (t, h) /\
    exists ok t' h',
      let t1 := set_Uplo (orientation upper) t in
      Cholesky a upper (t, h) =
        columns upper (tData t) (tStride t) a (Z.to_nat n) 0 (t1, h) /\
      Cholesky a upper (t, h) = Return ok (t', h') /\
      modifies_only (base (tData t)) h h' /\
      t' = (if ok then t1 else Reset t1))).
Proof.
  intros n. subst n. unfold Symmetric. split.
  - intros Hz Hn. rewrite Cholesky_steps.
    destruct (prepare_cases a t h)
      as [(Ht & _) | [(Ht & _) | [(_ & _ & ->) | (_ & Hn' & _)]]];
      congruence.
  - intros HInc HUni Ha. split.
    + intros Hz Hcap.
      destruct (Cholesky_returns DdotInc DdotUnitary HInc HUni a upper t h Ha)
        as (ok & t' & h' & Hrun & _).
      { unfold target_ready. by rewrite Hz. }
      destruct (prepare_cases a t h)
        as [(_ & data & h1 & Hu & Hp) | [(_ & p & Hp) | [(Ht & _) | (Ht & _)]]];
        try congruence.
      * exists data, h1, ok, t', h'. cbv zeta.
        assert (Hsteps : Cholesky a upper (t, h) =
                  columns upper data (sN a) a (Z.to_nat (sN a)) 0
                    (mkTri (sN a) (sN a) data (orientation upper) blas.NonUnit, h1)).
        { rewrite Cholesky_steps, Hp. done. }
        split; [done|]. split.
        { rewrite (use_len _ _ _ _ _ Hu).
          destruct (wf_square_bounds _ _ _ _ Ha) as (Hnn & _).
          apply int_wrap_small. unfold max_int in *. lia. }
        split; [done|]. split; [done|]. split; [done|].
        rewrite Hsteps in Hrun. split.
        -- destruct (columns_step DdotInc DdotUnitary upper data (sN a) a
                       (Z.to_nat (sN a)) 0
                       (mkTri (sN a) (sN a) data (orientation upper) blas.NonUnit, h1))
             as [_ Hmod].
           rewrite Hrun in Hmod. exact Hmod.
        -- by apply columns_final_header in Hrun.
      * rewrite Cholesky_steps, Hp in Hrun. done.
    + intros Hz Hn Ht.
      destruct (Cholesky_returns DdotInc DdotUnitary HInc HUni a upper t h Ha)
        as (ok & t' & h' & Hrun & Hmod & _ & Hok).
      { unfold target_ready. by rewrite Hz. }
      assert (Hp : prepare a (t, h) = Return tt (t, h)).
      { destruct (prepare_cases a t h)
          as [(Ht' & _) | [(Ht' & _) | [(_ & Hn' & _) | (_ & _ & Hp)]]];
          congruence. }
      split; [done|].
      exists ok, t', h'. cbv zeta.
      assert (Hsteps : Cholesky a upper (t, h) =
                columns upper (tData t) (tStride t) a (Z.to_nat (sN a)) 0
                  (set_Uplo (orientation upper) t, h)).
      { rewrite Cholesky_steps, Hp. done. }
      split; [done|]. split; [done|]. split; [by apply Hmod|].
      rewrite Hsteps in Hrun. by apply columns_final_header in Hrun.
Qed.
End TargetPolicy.

Lemma spd_input_wf : wf_sym spd_heap spd_input.
Proof.
  unfold wf_sym, wf_square, wf_slice, spd_heap, max_int; simpl.
  rewrite lookup_singleton_eq; simpl. lia.
Qed.

Lemma Cholesky_target_policy_witness :
  exists data h1 ok t' h',
    let t1 := mkTri 2 2 data (orientation true) blas.NonUnit in
    use (tData empty_target) (imul 2 2) spd_heap = Return data h1 /\
    len data = 2 * 2 /\
    prepare spd_input (empty_target, spd_heap) =
      Return tt (mkTri 2 2 data 0 blas.NonUnit, h1) /\
    Cholesky DdotInc_ref DdotUnitary_ref spd_input true (empty_target, spd_heap) =
      columns DdotInc_ref DdotUnitary_ref true data 2 spd_input (Z.to_nat 2) 0
        (t1, h1) /\
    Cholesky DdotInc_ref DdotUnitary_ref spd_input true (empty_target, spd_heap) =
      Return ok (t', h') /\
    modifies_only (base data) h1 h' /\
    t' = (if ok then t1 else Reset t1).
Proof.
  apply (Cholesky_target_policy DdotInc_ref DdotUnitary_ref spd_input true
           empty_target spd_heap).
  - apply DdotInc_ref_safe.
  - apply DdotUnitary_ref_safe.
  - apply spd_input_wf.
  - reflexivity.
  - left. reflexivity.
Defined.

Lemma Cholesky_leaves_input_untouched_witness :
  (final_state (Cholesky DdotInc_ref DdotUnitary_ref spd_input true
                  (empty_target, spd_heap))).2 !! 1%positive =
  Some [4; 2; 2; 5]%float.
Proof.
  apply (Cholesky_leaves_input_untouched DdotInc_ref DdotUnitary_ref spd_input
           true empty_target spd_heap [4; 2; 2; 5]%float).
  - apply lookup_singleton_eq.
  - unfold separate; simpl. discriminate.
Defined.

(** ** Stored elements *)

Lemma zrange_S (n : Z) : 0 <= n -> zrange (n + 1) = zrange n ++ [n].
Proof.
  intros Hn. unfold zrange.
  replace (Z.to_nat (n + 1)) with (S (Z.to_nat n)) by lia.
  rewrite seq_S, map_app. simpl. by rewrite Z2Nat.id by lia.
Qed.

Lemma elem_of_zrange (n i : Z) : i ∈ zrange n <-> 0 <= i < n.
Proof.
  unfold zrange. rewrite list_elem_of_fmap. split.
  - intros (m & -> & Hm). apply elem_of_seq in Hm. lia.
  - intros Hi. exists (Z.to_nat i). split; [lia|]. apply elem_of_seq. lia.
Qed.

Lemma map_zrange_ext {A} (f g : Z -> A) (n : Z) :
  (forall i, 0 <= i < n -> f i = g i) -> map f (zrange n) = map g (zrange n).
Proof.
  intros H. apply map_ext_in. intros i Hi. apply H.
  apply elem_of_zrange. by apply list_elem_of_In.
Qed.

Lemma length_zrange (n : Z) : length (zrange n) = Z.to_nat n.
Proof. unfold zrange. by rewrite length_map, length_seq. Qed.

Lemma sum_squares_snoc (l : list float64) (v : float64) :
  sum_squares (l ++ [v]) = (sum_squares l + v * v)%float.
Proof. unfold sum_squares. by rewrite fold_left_app. Qed.

(** Offsets of distinct elements of a square view are distinct. *)
Lemma offset_inj (stride r c r' c' : Z) :
  0 <= c < stride -> 0 <= c' < stride ->
  r * stride + c = r' * stride + c' -> r = r' /\ c = c'.
Proof.
  intros Hc Hc' Heq.
  assert (r = r') by nia. subst r'. lia.
Qed.

Lemma raw_index (h : heap) (s : slice) (i : Z) (v : float64) :
  index h s i = Some v -> raw h s i = v.
Proof. unfold raw. by intros ->. Qed.

Lemma index_update_ne (h h' : heap) (s : slice) (i i' : Z) (v : float64) :
  0 <= off s -> update h s i v = Some h' -> i' <> i ->
  index h' s i' = index h s i'.
Proof.
  intros Hoff. unfold update, index.
  destruct ((0 <=? i) && (i <? len s)) eqn:Hi; [|discriminate].
  destruct (h !! base s) as [arr|]; [|discriminate].
  destruct (decide _) as [Hlt|]; [|discriminate]. intros [= <-] Hne.
  destruct ((0 <=? i') && (i' <? len s)) eqn:Hi'; [|done].
  rewrite lookup_insert_eq. apply list_lookup_insert_ne.
  apply andb_true_iff in Hi as [Hi _], Hi' as [Hi' _].
  apply Z.leb_le in Hi, Hi'. lia.
Qed.

Lemma index_other_array (h h' : heap) (s s' : slice) (i i' : Z) (v : float64) :
  update h s i v = Some h' -> base s' <> base s ->
  index h' s' i' = index h s' i'.
Proof.
  intros Hu Hne. destruct (update_modifies _ _ _ _ _ Hu (base s')) as [Hsame _].
  unfold index. by rewrite Hsame.
Qed.

(** What a kernel receives is what [raw] reads. *)
Lemma contents_lookup (h : heap) (s : slice) (x : list float64) (i : Z) :
  contents h s = Some x -> 0 <= i < len s ->
  default 0%float (x !! Z.to_nat i) = raw h s i.
Proof.
  unfold contents, raw, index. intros Hx Hi.
  replace ((0 <=? i) && (i <? len s)) with true
    by (symmetry; rewrite andb_true_iff, Z.leb_le, Z.ltb_lt; lia).
  destruct (h !! base s) as [arr|].
  - destruct (decide _) as [(Hoff & Hlen & Hend)|]; [|done]. injection Hx as <-.
    rewrite lookup_take_lt by lia. rewrite lookup_drop.
    by replace (Z.to_nat (off s) + Z.to_nat i)%nat with (Z.to_nat (off s + i)) by lia.
  - destruct (decide _); [lia | done].
Qed.

Lemma contents_reslice (h : heap) (s s' : slice) (lo hi : Z) (x : list float64) :
  0 <= off s -> len s <= cap s -> hi <= len s ->
  reslice s lo hi = Some s' -> contents h s' = Some x ->
  x = map (fun i => raw h s (lo + i)) (zrange (hi - lo)).
Proof.
  intros Hoff Hcap Hhi Hre Hx. unfold reslice in Hre.
  destruct (_ && _) eqn:Hb; [|done]. injection Hre as <-.
  rewrite !andb_true_iff, !Z.leb_le in Hb. destruct Hb as [[Hlo Hlh] _].
  apply (list_eq_same_length _ _ (Z.to_nat (hi - lo))).
  - by rewrite length_map, length_zrange.
  - unfold contents in Hx; cbn [base off len cap] in Hx.
    destruct (h !! base s) as [arr|].
    + destruct (decide _) as [(_ & _ & Hend)|]; [|done]. injection Hx as <-.
      rewrite length_take, length_drop. lia.
    + destruct (decide _) as [Hz|]; [|done]. injection Hx as <-. simpl. lia.
  - intros i v w Hi Hv Hw.
    pose proof (contents_lookup _ _ _ (Z.of_nat i) Hx) as Hc.
    cbn [base off len cap] in Hc.
    rewrite Nat2Z.id, Hv in Hc. simpl in Hc. rewrite Hc by lia.
    rewrite list_lookup_fmap in Hw. unfold zrange in Hw.
    rewrite list_lookup_fmap, lookup_seq_lt in Hw by lia. simpl in Hw.
    injection Hw as <-. unfold raw, index; simpl.
    replace ((0 <=? Z.of_nat i) && (Z.of_nat i <? hi - lo)) with true
      by (symmetry; rewrite andb_true_iff, Z.leb_le, Z.ltb_lt; lia).
    replace ((0 <=? lo + Z.of_nat i) && (lo + Z.of_nat i <? len s)) with true
      by (symmetry; rewrite andb_true_iff, Z.leb_le, Z.ltb_lt; lia).
    by replace (off s + lo + Z.of_nat i) with (off s + (lo + Z.of_nat i)) by lia.
Qed.

Lemma gather_contents (h : heap) (s : slice) (x : list float64) (n inc i0 : Z) :
  contents h s = Some x ->
  (forall i, 0 <= i < n -> 0 <= i0 + i * inc < len s) ->
  gather x n inc i0 = map (fun i => raw h s (i0 + i * inc)) (zrange n).
Proof.
  intros Hx Hin. unfold gather. apply map_zrange_ext. intros i Hi.
  eapply contents_lookup; eauto.
Qed.

(** An equation speaks only of the entries it names. *)
Lemma offdiag_equation_ext
    (dot : list float64 -> list float64 -> option float64)
    (A F G : Z -> Z -> float64) (j k : Z) :
  0 <= k ->
  (forall r c, 0 <= c <= k -> r = k \/ r = j -> F r c = G r c) ->
  offdiag_equation dot A F j k -> offdiag_equation dot A G j k.
Proof.
  intros Hk Hext (s & Hs & Hjk). exists s.
  rewrite <- (map_zrange_ext (F k) (G k)) by (intros; apply Hext; [lia | by left]).
  rewrite <- (map_zrange_ext (F j) (G j)) by (intros; apply Hext; [lia | by right]).
  rewrite <- !Hext by (first [lia | by left | by right]). done.
Qed.

Lemma column_equations_ext
    (dot : list float64 -> list float64 -> option float64)
    (A F G : Z -> Z -> float64) (j : Z) :
  0 <= j ->
  (forall jj kk, 0 <= kk <= jj -> jj <= j -> F jj kk = G jj kk) ->
  column_equations dot A F j -> column_equations dot A G j.
Proof.
  intros Hj Hext [Hoff Hdiag]. split.
  - intros k Hk. eapply offdiag_equation_ext; [lia | | by apply Hoff].
    intros r c Hc [-> | ->]; apply Hext; lia.
  - simpl in *.
    rewrite <- (map_zrange_ext (F j) (G j)) by (intros; apply Hext; lia).
    rewrite <- Hext by lia. done.
Qed.

(** The raw accessors return the stored elements. *)
Lemma sym_at_value (h : heap) (a : SymDense) (j k : Z) :
  wf_sym h a -> 0 <= k <= j -> j < sN a ->
  SymIdx.at_ a j k h = Return (input_entry a h j k) h.
Proof.
  intros Hwf Hk Hj. unfold SymIdx.at_, input_entry.
  assert (Hkn : 0 <= k < sN a) by lia. assert (Hjn : 0 <= j < sN a) by lia.
  destruct (offset_in_bounds _ _ _ _ _ _ Hwf Hkn Hjn) as [Eoff Hin].
  destruct (index_in_bounds h (sData a) _ (proj1 (proj2 Hwf)) Hin) as [v Hv].
  rewrite (raw_index _ _ _ _ Hv).
  destruct (Z.gtb_spec j k); unfold load.
  - by rewrite Eoff, Hv.
  - replace j with k in * by lia. by rewrite Eoff, Hv.
Qed.

Lemma tri_at_diag_value (h : heap) (t : TriDense) (k : Z) :
  wf_tri h t -> 0 <= k < tN t ->
  TriIdx.at_ t k k h = Return (raw h (tData t) (k * tStride t + k)) h.
Proof.
  intros Hwf Hk. unfold TriIdx.at_.
  destruct (offset_in_bounds _ _ _ _ _ _ Hwf Hk Hk) as [Eoff Hin].
  destruct (index_in_bounds h (tData t) _ (proj1 (proj2 Hwf)) Hin) as [v Hv].
  rewrite (raw_index _ _ _ _ Hv), Z.gtb_ltb, Z.ltb_irrefl.
  destruct (_ =? _); unfold load; by rewrite Eoff, Hv.
Qed.

Lemma tri_set_value (h : heap) (t : TriDense) (r c : Z) (v : float64) :
  wf_tri h t -> 0 <= r < tN t -> 0 <= c < tN t ->
  exists h', update h (tData t) (r * tStride t + c) v = Some h' /\
             TriIdx.set_ t r c v h = Return tt h'.
Proof.
  intros Hwf Hr Hc. unfold TriIdx.set_, store.
  destruct (offset_in_bounds _ _ _ _ _ _ Hwf Hr Hc) as [-> Hin].
  destruct (update_in_bounds h (tData t) _ v (proj1 (proj2 Hwf)) Hin) as [h' Hu].
  exists h'. by rewrite Hu.
Qed.

Lemma stored_update_eq (upper : bool) (t : TriDense) (h h' : heap)
    (j k : Z) (v : float64) :
  update h (tData t) (cell_offset upper t j k) v = Some h' ->
  stored upper t h' j k = v.
Proof. intros Hu. apply raw_index. eapply index_update_eq, Hu. Qed.

Lemma stored_update_ne (upper : bool) (t : TriDense) (h h' : heap)
    (j k jj kk : Z) (v : float64) :
  wf_tri h t -> 0 <= j < tN t -> 0 <= k < tN t ->
  0 <= jj < tN t -> 0 <= kk < tN t -> (jj, kk) <> (j, k) ->
  update h (tData t) (cell_offset upper t j k) v = Some h' ->
  stored upper t h' jj kk = stored upper t h jj kk.
Proof.
  intros (Hn & (Hoff & _) & _) Hj Hk Hjj Hkk Hne Hu. unfold stored, raw.
  rewrite (index_update_ne _ _ _ _ _ _ Hoff Hu); [done|].
  unfold cell_offset. destruct upper; intros Heq;
    apply offset_inj in Heq as [? ?]; try lia; apply Hne; congruence.
Qed.

Lemma input_entry_frame (a : SymDense) (h h' : heap) (j k : Z) :
  h' !! base (sData a) = h !! base (sData a) ->
  input_entry a h' j k = input_entry a h j k.
Proof. intros Hsame. unfold input_entry, raw, index. by rewrite Hsame. Qed.

(** ** The factor satisfies its equations *)

(** Two coordinate pairs differ. *)
Ltac ne_pair := let H := fresh in intros H; injection H; intros; lia.

Section FactorEquations.
Variable DdotInc :
  list float64 -> list float64 -> Z -> Z -> Z -> Z -> Z -> option float64.
Variable DdotUnitary : list float64 -> list float64 -> option float64.
Variable dot_strided : list float64 -> list float64 -> option float64.
Hypothesis DdotInc_ok : DdotInc_safe DdotInc.
Hypothesis DdotUnitary_ok : DdotUnitary_safe DdotUnitary.
Hypothesis DdotInc_dot : DdotInc_gathers DdotInc dot_strided.

Local Abbreviation inner := (inner DdotInc DdotUnitary).
Local Abbreviation columns := (columns DdotInc DdotUnitary).
Local Abbreviation pivot := (pivot DdotInc DdotUnitary).
Local Abbreviation Cholesky := (Cholesky DdotInc DdotUnitary).
Local Abbreviation dot_of := (branch_dot dot_strided DdotUnitary).

(** One iteration of the [k] loop: the dot product of the two prefixes, the
    new entry, and the one slot it is written to. *)
Lemma inner_step (upper : bool) (t : TriDense) (a : SymDense) (j k : Z)
    (h : heap) :
  loop_inv a t h -> 0 <= k < j -> j < sN a ->
  exists s h1,
    dot_of upper (map (stored upper t h k) (zrange k))
                 (map (stored upper t h j) (zrange k)) = Some s /\
    update h (tData t) (cell_offset upper t j k)
      ((input_entry a h j k - s) / stored upper t h k k)%float = Some h1 /\
    forall cnt d,
      inner upper (tData t) (tStride t) t a j (S cnt) k d h =
      inner upper (tData t) (tStride t) t a j cnt (k + 1)
        (d + (input_entry a h j k - s) / stored upper t h k k *
             ((input_entry a h j k - s) / stored upper t h k k))%float h1.
Proof.
  intros (Ha & Ht & Hn) Hk Hj.
  assert (Hkn : 0 <= k < tN t) by lia. assert (Hjn : 0 <= j < tN t) by lia.
  destruct (wf_square_bounds _ _ _ _ Ht) as (_ & Hmax & Hstride).
  pose proof Ht as (Hns & Hsl & Hlast). pose proof Hsl as (Hoff & Hlen & _).
  pose proof (sym_at_value h a j k Ha ltac:(lia) Hj) as Hajk.
  pose proof (tri_at_diag_value h t k Ht Hkn) as Htkk.
  destruct upper.
  - (* upper: the strided kernel on columns k and j *)
    destruct (contents_wf h (tData t) Hsl) as (x & Hx & Hlx & _).
    assert (Hbx : forall c, 0 <= c < tN t ->
              strided_in_bounds x k (tStride t) c).
    { intros c Hc. split; [lia|]. right. split; [lia|]. split; [lia|]. nia. }
    destruct (DdotInc_ok x x k (tStride t) (tStride t) k j) as [s Hs];
      [lia | by apply Hbx | by apply Hbx |].
    pose proof Hs as Hs'.
    rewrite DdotInc_dot in Hs' by (first [lia | by apply Hbx]).
    rewrite !(gather_contents h (tData t) x) in Hs' by (done || (intros; nia)).
    rewrite (map_zrange_ext (fun i => raw h (tData t) (k + i * tStride t))
               (stored true t h k)) in Hs'
      by (intros; unfold stored, cell_offset; f_equal; lia).
    rewrite (map_zrange_ext (fun i => raw h (tData t) (j + i * tStride t))
               (stored true t h j)) in Hs'
      by (intros; unfold stored, cell_offset; f_equal; lia).
    destruct (tri_set_value h t k j
                ((input_entry a h j k - s) / stored true t h k k)%float Ht Hkn Hjn)
      as (h1 & Hu & Hset).
    exists s, h1. split; [exact Hs'|]. split; [exact Hu|].
    intros cnt d. simpl. unfold slice_contents.
    rewrite (bind_Return _ _ h h x) by (by rewrite Hx).
    rewrite !uintptr_small by lia.
    rewrite (bind_Return _ _ h h s) by (by rewrite Hs).
    rewrite (bind_Return _ _ _ _ _ Hajk), (bind_Return _ _ _ _ _ Htkk).
    by rewrite (bind_Return _ _ _ _ _ Hset).
  - (* lower: the unitary kernel on the prefixes of rows k and j *)
    assert (Hk0 : 0 <= k < tN t) by lia.
    destruct (offset_in_bounds _ _ _ _ _ _ Ht Hkn Hk0) as [Ekk _].
    destruct (offset_in_bounds _ _ _ _ _ _ Ht Hjn Hk0) as [Ejk _].
    assert (Ek : imul k (tStride t) = k * tStride t).
    { unfold imul. apply int_wrap_small. unfold max_int in *. nia. }
    assert (Ej : imul j (tStride t) = j * tStride t).
    { unfold imul. apply int_wrap_small. unfold max_int in *. nia. }
    rewrite Ek in Ekk. rewrite Ej in Ejk.
    destruct (reslice_contents h (tData t) (k * tStride t) (k * tStride t + k) Hsl)
      as (xs & x & Hxs & Hx & Hlx); [nia | nia |].
    destruct (reslice_contents h (tData t) (j * tStride t) (j * tStride t + k) Hsl)
      as (ys & y & Hys & Hy & Hly); [nia | nia |].
    destruct (DdotUnitary_ok x y) as [s Hs]; [lia|].
    pose proof Hs as Hs'.
    assert (Hkhi : k * tStride t + k <= len (tData t)) by nia.
    assert (Hjhi : j * tStride t + k <= len (tData t)) by nia.
    rewrite (contents_reslice h (tData t) xs _ _ x Hoff (proj2 Hlen) Hkhi Hxs Hx) in Hs'.
    rewrite (contents_reslice h (tData t) ys _ _ y Hoff (proj2 Hlen) Hjhi Hys Hy) in Hs'.
    replace (k * tStride t + k - k * tStride t) with k in Hs' by lia.
    replace (j * tStride t + k - j * tStride t) with k in Hs' by lia.
    destruct (tri_set_value h t j k
                ((input_entry a h j k - s) / stored false t h k k)%float Ht Hjn Hkn)
      as (h1 & Hu & Hset).
    exists s, h1. split; [exact Hs'|]. split; [exact Hu|].
    intros cnt d. simpl. rewrite Ek, Ej, Ekk, Ejk. unfold slice_contents.
    rewrite (bind_Return _ _ h h xs) by (by rewrite Hxs).
    rewrite (bind_Return _ _ h h ys) by (by rewrite Hys).
    rewrite (bind_Return _ _ h h x) by (by rewrite Hx).
    rewrite (bind_Return _ _ h h y) by (by rewrite Hy).
    rewrite (bind_Return _ _ h h s) by (by rewrite Hs).
    rewrite (bind_Return _ _ _ _ _ Hajk), (bind_Return _ _ _ _ _ Htkk).
    by rewrite (bind_Return _ _ _ _ _ Hset).
Qed.

(** The [k] loop of column [j] returns and keeps its invariant. *)
Lemma inner_run (upper : bool) (t : TriDense) (a : SymDense)
    (A : Z -> Z -> float64) (hs : heap) (j : Z) (cnt : nat) (k : Z)
    (d : float64) (h : heap) :
  separate t a ->
  inner_inv (dot_of upper) upper a t A hs j k d h ->
  0 <= k -> k + Z.of_nat cnt = j -> j < sN a ->
  exists d' h',
    inner upper (tData t) (tStride t) t a j cnt k d h = Return d' h' /\
    inner_inv (dot_of upper) upper a t A hs j j d' h'.
Proof.
  intros Hsep. revert k d h.
  induction cnt as [|cnt IH]; intros k d h Hinv Hk Hcnt Hj.
  - replace k with j in * by lia. exists d, h. split; [|done]. by destruct upper.
  - destruct Hinv as (Hloop & HA & Hagree & Heqs & Hd).
    destruct (inner_step upper t a j k h Hloop) as (s & h1 & Hs & Hu & Hrun);
      [lia | lia |].
    set (v := ((input_entry a h j k - s) / stored upper t h k k)%float) in *.
    pose proof Hloop as (Ha & Ht & Hn).
    assert (Hsame : forall jj kk, 0 <= kk <= jj -> jj < tN t -> (jj, kk) <> (j, k) ->
              stored upper t h1 jj kk = stored upper t h jj kk).
    { intros jj kk Hkk Hjj Hne.
      eapply (stored_update_ne upper t h h1 j k); eauto; lia. }
    assert (Hin : forall jj kk, input_entry a h1 jj kk = input_entry a h jj kk).
    { intros jj kk. apply input_entry_frame.
      destruct (update_modifies _ _ _ _ _ Hu (base (sData a))) as [Hfr _].
      apply Hfr. unfold separate in Hsep. congruence. }
    rewrite Hrun. apply IH; [|lia..].
    split; [eapply loop_inv_modifies; [eapply update_modifies|]; eauto|].
    split; [intros; by rewrite Hin|].
    split; [intros jj kk Hkk Hjj; rewrite Hsame by (first [lia | ne_pair]); by apply Hagree|].
    split.
    + intros kk Hkk. destruct (Z.eq_dec kk k) as [->|Hne].
      * exists s. split.
        -- rewrite (map_zrange_ext (stored upper t h1 k) (stored upper t h k))
             by (intros; apply Hsame; [lia | lia | ne_pair]).
           rewrite (map_zrange_ext (stored upper t h1 j) (stored upper t h j))
             by (intros; apply Hsame; [lia | lia | ne_pair]).
           exact Hs.
        -- rewrite (stored_update_eq _ _ _ _ _ _ _ Hu).
           rewrite (Hsame k k) by (first [lia | ne_pair]).
           by rewrite <- HA.
      * eapply offdiag_equation_ext; [lia | | apply Heqs; lia].
        intros r c Hc [-> | ->]; symmetry; apply Hsame;
          first [lia | ne_pair].
    + rewrite zrange_S by lia. rewrite map_app. cbn [map].
      rewrite sum_squares_snoc.
      rewrite (stored_update_eq _ _ _ _ _ _ _ Hu).
      rewrite (map_zrange_ext (stored upper t h1 j) (stored upper t h j))
        by (intros; apply Hsame; [lia | lia | ne_pair]).
      by rewrite Hd.
Qed.

(** The [j] loop returns; when it returns true, every column satisfies its
    equations. *)
Lemma columns_run (upper : bool) (t : TriDense) (a : SymDense)
    (A : Z -> Z -> float64) (cnt : nat) (j : Z) (h : heap) :
  separate t a ->
  outer_inv (dot_of upper) upper a t A j h ->
  0 <= j -> j + Z.of_nat cnt = sN a ->
  exists ok t' h',
    columns upper (tData t) (tStride t) a cnt j (t, h) = Return ok (t', h') /\
    (ok = true -> t' = t /\ outer_inv (dot_of upper) upper a t A (sN a) h').
Proof.
  intros Hsep. revert j h.
  induction cnt as [|cnt IH]; intros j h Hinv Hj Hcnt.
  - replace j with (sN a) in * by lia. exists true, t, h. done.
  - destruct Hinv as (Hloop & HA & Hcols).
    destruct (inner_run upper t a A h j (Z.to_nat j) 0 0%float h Hsep)
      as (d & h1 & Hin & (Hloop1 & HA1 & Hagree & Heqs & Hd)); [|lia..|].
    { split; [done|]. split; [done|]. split; [done|]. split; [intros; lia | done]. }
    pose proof Hloop1 as (Ha & Ht & Hn).
    assert (Hjn : 0 <= j < tN t) by lia.
    pose proof (sym_at_value h1 a j j Ha ltac:(lia) ltac:(lia)) as Hajj.
    rewrite HA1 in Hajj.
    rewrite columns_S. unfold pivot.
    rewrite (bind_Return _ _ _ _ _ Hin), (bind_Return _ _ _ _ _ Hajj). unfold ret.
    destruct (A j j - d <=? 0)%float eqn:Hpos.
    + exists false, (Reset t), h1. done.
    + destruct (tri_set_value h1 t j j (PrimFloat.sqrt (Max (A j j - d) 0)) Ht Hjn Hjn)
        as (h2 & Hu & ->).
      assert (Hu' : update h1 (tData t) (cell_offset upper t j j)
                      (PrimFloat.sqrt (Max (A j j - d) 0)) = Some h2)
        by (by destruct upper).
      assert (Hsame : forall jj kk, 0 <= kk <= jj -> jj < tN t -> (jj, kk) <> (j, j) ->
                stored upper t h2 jj kk = stored upper t h1 jj kk).
      { intros jj kk Hkk Hjj Hne.
        eapply (stored_update_ne upper t h1 h2 j j); eauto; lia. }
      apply IH; [|lia..].
      split; [eapply loop_inv_modifies; [eapply update_modifies|]; eauto|].
      split.
      { intros jj kk. rewrite <- HA1. apply input_entry_frame.
        destruct (update_modifies _ _ _ _ _ Hu (base (sData a))) as [Hfr _].
        apply Hfr. unfold separate in Hsep. congruence. }
      intros jj Hjj. destruct (Z.eq_dec jj j) as [->|Hne].
      * split.
        -- intros k Hk. eapply offdiag_equation_ext; [lia | | apply Heqs; lia].
           intros r c Hc [-> | ->]; symmetry; apply Hsame;
             first [lia | ne_pair].
        -- simpl.
           rewrite (map_zrange_ext (stored upper t h2 j) (stored upper t h1 j))
             by (intros; apply Hsame; [lia | lia | ne_pair]).
           rewrite <- Hd, Hpos. split; [done|].
           by rewrite (stored_update_eq _ _ _ _ _ _ _ Hu').
      * eapply column_equations_ext; [lia | | apply Hcols; lia].
        intros r c Hc Hr. rewrite Hsame by (first [lia | ne_pair]).
        symmetry. apply Hagree; lia.
Qed.
End FactorEquations.

(** The checked accessor reads the stored entries of the active half. *)
Lemma At_stored (upper : bool) (t : TriDense) (h : heap) (j k : Z) :
  wf_tri h t -> tUplo t = orientation upper -> 0 <= k <= j -> j < tN t ->
  TriIdx.At t (if upper then k else j) (if upper then j else k) h =
  Return (stored upper t h j k) h.
Proof.
  intros Hwf Hu Hk Hj.
  assert (Hkn : 0 <= k < tN t) by lia. assert (Hjn : 0 <= j < tN t) by lia.
  unfold TriIdx.At, TriIdx.at_, stored, cell_offset, panic. rewrite Hu.
  destruct upper; unfold orientation, blas.Upper, blas.Lower; simpl.
  - destruct (offset_in_bounds _ _ _ _ _ _ Hwf Hkn Hjn) as [Eoff Hin].
    destruct (index_in_bounds h (tData t) _ (proj1 (proj2 Hwf)) Hin) as [v Hv].
    rewrite (raw_index _ _ _ _ Hv). zcases; simpl; unfold load; by rewrite Eoff, Hv.
  - destruct (offset_in_bounds _ _ _ _ _ _ Hwf Hjn Hkn) as [Eoff Hin].
    destruct (index_in_bounds h (tData t) _ (proj1 (proj2 Hwf)) Hin) as [v Hv].
    rewrite (raw_index _ _ _ _ Hv). zcases; simpl; unfold load; by rewrite Eoff, Hv.
Qed.

(** The checked accessor of the input reads [input_entry] at both
    coordinates of an element. *)
Lemma Sym_At_value (a : SymDense) (h : heap) (j k : Z) :
  wf_sym h a -> 0 <= k <= j -> j < sN a ->
  SymIdx.At a j k h = Return (input_entry a h j k) h /\
  SymIdx.At a k j h = Return (input_entry a h j k) h.
Proof.
  intros Hwf Hk Hj. pose proof (sym_at_value h a j k Hwf Hk Hj) as Hv.
  unfold SymIdx.At, panic. zcases; simpl. split; [exact Hv|].
  unfold SymIdx.at_ in *. destruct (Z.gtb_spec j k), (Z.gtb_spec k j); try lia;
    try exact Hv. by replace k with j in * by lia.
Qed.

(** Preparing the target keeps it apart from the input, and the input as
    it reads. *)
Lemma prepare_separate (a : SymDense) (t t1 : TriDense) (h h1 : heap) :
  wf_sym h a -> separate t a ->
  prepare a (t, h) = Return tt (t1, h1) ->
  separate t1 a /\ h1 !! base (sData a) = h !! base (sData a).
Proof.
  intros Ha Hsep. unfold separate in *.
  destruct (prepare_cases a t h)
    as [(_ & data & h' & Hu & ->) | [(_ & p & ->) | [(_ & _ & ->) | (_ & _ & ->)]]];
    intros [= <- <-]; [|done].
  unfold use in Hu. destruct (_ <=? _).
  - unfold reslice in Hu. destruct (_ && _); [|done]. by injection Hu as <- <-.
  - injection Hu as <- <-. simpl.
    assert (Hne : base (sData a) <> fresh (dom h)).
    { intros Heq. apply (is_fresh (dom h)). rewrite <- Heq. apply elem_of_dom.
      destruct Ha as (_ & (_ & _ & Harr) & _).
      destruct (h !! base (sData a)); [eauto | done]. }
    split; [done|]. by rewrite lookup_insert_ne.
Qed.

Section FactorTheorem.
Variable DdotInc :
  list float64 -> list float64 -> Z -> Z -> Z -> Z -> Z -> option float64.
Variable DdotUnitary : list float64 -> list float64 -> option float64.
Variable dot_strided : list float64 -> list float64 -> option float64.

Local Abbreviation Cholesky := (Cholesky DdotInc DdotUnitary).
Local Abbreviation pivot_at := (pivot_at DdotInc DdotUnitary).
Local Abbreviation dot_of := (branch_dot dot_strided DdotUnitary).

End FactorTheorem.

(** ** The portable strided kernel gathers *)

Lemma zrange_cons (n : Z) :
  0 <= n -> zrange (n + 1) = 0 :: map (fun i => i + 1) (zrange n).
Proof.
  intros Hn. unfold zrange.
  replace (Z.to_nat (n + 1)) with (S (Z.to_nat n)) by lia.
  simpl. f_equal. rewrite <- seq_shift, !map_map.
  apply map_ext. intros i. lia.
Qed.

Lemma gather_cons (x : list float64) (n inc i0 : Z) :
  0 <= n ->
  gather x (n + 1) inc i0 =
  default 0%float (x !! Z.to_nat i0) :: gather x n inc (i0 + inc).
Proof.
  intros Hn. unfold gather. rewrite zrange_cons by done. simpl.
  rewrite Z.add_0_r, map_map. f_equal.
  apply map_ext. intros i. do 3 f_equal. lia.
Qed.

Lemma DdotInc_loop_gathers (x y : list float64) (cnt : nat)
    (incX incY ix iy : Z) (sum : float64) :
  strided_in_bounds x (Z.of_nat cnt) incX ix ->
  strided_in_bounds y (Z.of_nat cnt) incY iy ->
  DdotInc_loop x y cnt incX incY ix iy sum =
  Some (fold_left (fun sum p => (sum + p.2 * p.1)%float)
          (zip (gather x (Z.of_nat cnt) incX ix) (gather y (Z.of_nat cnt) incY iy))
          sum).
Proof.
  revert ix iy sum. induction cnt as [|cnt IH]; intros ix iy sum Hx Hy; [done|].
  destruct Hx as [Hmx [Hx | (Hix & Hinc & Hlast)]]; [lia|].
  destruct Hy as [Hmy [Hy | (Hiy & Hincy & Hlasty)]]; [lia|].
  replace (Z.of_nat (S cnt)) with (Z.of_nat cnt + 1) in * by lia.
  rewrite !gather_cons by lia. simpl.
  destruct (lookup_lt_is_Some_2 y (Z.to_nat iy)) as [yv ->]; [nia|].
  destruct (lookup_lt_is_Some_2 x (Z.to_nat ix)) as [xv ->]; [nia|].
  simpl. destruct cnt as [|cnt]; [done|].
  rewrite IH.
  - by rewrite !uintptr_small by nia.
  - split; [done|]. right. rewrite uintptr_small by nia.
    split; [lia|]. split; [lia|]. nia.
  - split; [done|]. right. rewrite uintptr_small by nia.
    split; [lia|]. split; [lia|]. nia.
Qed.

Lemma DdotInc_ref_gathers : DdotInc_gathers DdotInc_ref dot_ref.
Proof.
  intros x y n incX incY ix iy Hn Hx Hy. unfold DdotInc_ref, dot_ref.
  rewrite int_wrap_small by (unfold max_int in *; lia).
  rewrite DdotInc_loop_gathers by (by rewrite Z2Nat.id by lia).
  by rewrite Z2Nat.id by lia.
Qed.

(** ** C1: a positive-definite input the factoriser rejects *)

Lemma near_singular_input_wf : wf_sym near_singular_heap near_singular_input.
Proof.
  unfold wf_sym, wf_square, wf_slice, near_singular_heap, max_int; simpl.
  rewrite lookup_singleton_eq; simpl. lia.
Qed.

Lemma near_singular_input_positive_definite :
  positive_definite near_singular_input near_singular_heap.
Proof.
  set (P := powerRZ 2 (-51)).
  exists (fun i j =>
            (IZR (if (i =? 1) && (j =? 1) then 6755399441055745
                  else 6755399441055744) * P)%R).
  split.
  - intros i j Hi Hj. simpl in Hi, Hj.
    assert (Hi' : i = 0 \/ i = 1) by lia. assert (Hj' : j = 0 \/ j = 1) by lia.
    destruct Hi' as [-> | ->], Hj' as [-> | ->]; simpl; unfold exact.
    + replace (Prim2SF (sym_entry near_singular_input near_singular_heap 0 0))
        with (S754_finite false 6755399441055744 (-51)) by (vm_compute; reflexivity).
      reflexivity.
    + replace (Prim2SF (sym_entry near_singular_input near_singular_heap 0 1))
        with (S754_finite false 6755399441055744 (-51)) by (vm_compute; reflexivity).
      reflexivity.
    + replace (Prim2SF (sym_entry near_singular_input near_singular_heap 1 0))
        with (S754_finite false 6755399441055744 (-51)) by (vm_compute; reflexivity).
      reflexivity.
    + replace (Prim2SF (sym_entry near_singular_input near_singular_heap 1 1))
        with (S754_finite false 6755399441055745 (-51)) by (vm_compute; reflexivity).
      reflexivity.
  - intros x (i & Hi & Hxi). simpl in Hi.
    assert (HP : (0 < P)%R) by (apply powerRZ_lt; lra).
    assert (Hx : x 0 <> 0%R \/ x 1 <> 0%R)
      by (assert (Hi' : i = 0 \/ i = 1) by lia; destruct Hi' as [-> | ->]; tauto).
    unfold quadratic_form, sumR.
    change (zrange (sN near_singular_input)) with [0; 1]. simpl.
    set (u := x 0) in *. set (v := x 1) in *.
    replace (u * (6755399441055744 * P) * u + (u * (6755399441055744 * P) * v + 0) +
             (v * (6755399441055744 * P) * u + (v * (6755399441055745 * P) * v + 0) + 0))%R
      with (P * (6755399441055744 * ((u + v) * (u + v)) + v * v))%R by ring.
    apply Rmult_lt_0_compat; [done|].
    destruct (Req_dec v 0) as [Hv|Hv].
    + destruct Hx as [Hu|Hv']; [|done]. rewrite Hv.
      pose proof (Rsqr_pos_lt u Hu) as Hsq. unfold Rsqr in Hsq. nra.
    + pose proof (Rsqr_pos_lt v Hv) as Hsq. unfold Rsqr in Hsq.
      pose proof (Rle_0_sqr (u + v)) as Hsq2. unfold Rsqr in Hsq2. nra.
Qed.



(** On [[4, 2], [2, 5]] both branches return true, with the factors
    [[2, 0], [1, 2]] and [[2, 1], [0, 2]]. *)
Example Cholesky_spd_input :
  Cholesky DdotInc_ref DdotUnitary_ref spd_input false (empty_target, spd_heap) =
  Return true
    (mkTri 2 2 (mkSlice 2%positive 0 4 4) blas.Lower blas.NonUnit,
     <[2%positive := [2; 0; 1; 2]%float]> spd_heap) /\
  Cholesky DdotInc_ref DdotUnitary_ref spd_input true (empty_target, spd_heap) =
  Return true
    (mkTri 2 2 (mkSlice 2%positive 0 4 4) blas.Upper blas.NonUnit,
     <[2%positive := [2; 1; 0; 2]%float]> spd_heap).
Proof. split; vm_compute; reflexivity. Qed.

(** * Further properties of the indexed accessors *)

(** The offset of an element of a well-formed dense view does not wrap and
    lies inside the slice. *)
Lemma dense_offset_in_bounds (h : heap) (m : Dense) (r c : Z) :
  wf_dense h m -> 0 <= r < dRows m -> 0 <= c < dCols m ->
  iadd (imul r (dStride m)) c = r * dStride m + c /\
  0 <= r * dStride m + c < len (dData m).
Proof.
  intros (Hrows & Hcols & (Hoff & Hlen & Harr) & Hlast) Hr Hc.
  destruct Hlast as [Hz | [Hz | Hlast]]; [lia | lia |].
  destruct (h !! base (dData m)) as [arr|]; [|contradiction].
  assert (0 <= r * dStride m <= (dRows m - 1) * dStride m) by nia.
  unfold iadd, imul.
  rewrite (int_wrap_small (r * dStride m)) by (unfold max_int in *; lia).
  rewrite int_wrap_small by (unfold max_int in *; lia). lia.
Qed.

(** The offset of an element of a well-formed vector view does not wrap and
    lies inside the slice. *)
Lemma vector_offset_in_bounds (h : heap) (m : Vector) (r : Z) :
  wf_vector h m -> 0 <= r < vn m ->
  imul r (vInc m) = r * vInc m /\ 0 <= r * vInc m < len (vData m).
Proof.
  intros (Hn & Hinc & (Hoff & Hlen & Harr) & Hlast) Hr.
  destruct Hlast as [Hz | Hlast]; [lia|].
  destruct (h !! base (vData m)) as [arr|]; [|contradiction].
  assert (0 <= r * vInc m <= (vn m - 1) * vInc m) by nia.
  unfold imul. rewrite int_wrap_small by (unfold max_int in *; lia). lia.
Qed.

(** A store returns the updated heap, a load the element. *)
Lemma store_update (h h' : heap) (s : slice) (i : Z) (v : float64) :
  update h s i v = Some h' -> store s i v h = Return tt h'.
Proof. unfold store. by intros ->. Qed.

Lemma load_index (h : heap) (s : slice) (i : Z) (v : float64) :
  index h s i = Some v -> load s i h = Return v h.
Proof. unfold load. by intros ->. Qed.

(** X2. On a well-formed dense view and an in-range pair (r, c),
    [Set(r, c, v)] returns, changes only elements of the view's own backing
    array, and afterwards [At(r, c)] returns v while [At] at every other
    in-range coordinate returns what it returned before. *)
Theorem Dense_Set_then_At
    (m : Dense) (r c : Z) (v : float64) (h : heap) :
  wf_dense h m -> 0 <= r < dRows m -> 0 <= c < dCols m ->
  exists h',
    DenseIdx.Set_ m r c v h = Return tt h' /\
    modifies_only (base (dData m)) h h' /\
    DenseIdx.At m r c h' = Return v h' /\
    forall r' c', 0 <= r' < dRows m -> 0 <= c' < dCols m -> (r', c') <> (r, c) ->
      exists x, DenseIdx.At m r' c' h = Return x h /\
                DenseIdx.At m r' c' h' = Return x h'.
Proof.
  intros Hwf Hr Hc.
  destruct (dense_offset_in_bounds h m r c Hwf Hr Hc) as [Eoff Hin].
  pose proof Hwf as (_ & Hcols & Hsl & _). pose proof Hsl as (Hoff & _).
  destruct (update_in_bounds h _ _ v Hsl Hin) as [h' Hu].
  exists h'. split.
  { unfold DenseIdx.Set_, DenseIdx.set_, panic. zcases; simpl.
    rewrite Eoff. by apply store_update. }
  split; [by eapply update_modifies|]. split.
  { unfold DenseIdx.At, DenseIdx.at_, panic. zcases; simpl.
    rewrite Eoff. eapply load_index, index_update_eq, Hu. }
  intros r' c' Hr' Hc' Hne.
  destruct (dense_offset_in_bounds h m r' c' Hwf Hr' Hc') as [Eoff' Hin'].
  destruct (index_in_bounds h _ _ Hsl Hin') as [x Hx].
  exists x. unfold DenseIdx.At, DenseIdx.at_, panic. zcases; simpl.
  rewrite Eoff'. split; [by apply load_index|].
  apply load_index. rewrite <- Hx.
  apply (index_update_ne _ _ _ _ _ _ Hoff Hu).
  intros Heq. apply offset_inj in Heq as [? ?]; [|lia..].
  apply Hne. congruence.
Qed.

(** X3. On a well-formed vector view and an in-range row r,
    [Set(r, 0, v)] returns, changes only elements of the view's own backing
    array, and afterwards [At(r, 0)] returns v while [At] at every other
    in-range row returns what it returned before. *)
Theorem Vector_Set_then_At
    (m : Vector) (r : Z) (v : float64) (h : heap) :
  wf_vector h m -> 0 <= r < vn m ->
  exists h',
    VectorIdx.Set_ m r 0 v h = Return tt h' /\
    modifies_only (base (vData m)) h h' /\
    VectorIdx.At m r 0 h' = Return v h' /\
    forall r', 0 <= r' < vn m -> r' <> r ->
      exists x, VectorIdx.At m r' 0 h = Return x h /\
                VectorIdx.At m r' 0 h' = Return x h'.
Proof.
  intros Hwf Hr.
  destruct (vector_offset_in_bounds h m r Hwf Hr) as [Eoff Hin].
  pose proof Hwf as (_ & Hinc & Hsl & _). pose proof Hsl as (Hoff & _).
  destruct (update_in_bounds h _ _ v Hsl Hin) as [h' Hu].
  exists h'. split.
  { unfold VectorIdx.Set_, VectorIdx.set_, panic. zcases; simpl.
    rewrite Eoff. by apply store_update. }
  split; [by eapply update_modifies|]. split.
  { unfold VectorIdx.At, VectorIdx.at_, panic. zcases; simpl.
    rewrite Eoff. eapply load_index, index_update_eq, Hu. }
  intros r' Hr' Hne.
  destruct (vector_offset_in_bounds h m r' Hwf Hr') as [Eoff' Hin'].
  destruct (index_in_bounds h _ _ Hsl Hin') as [x Hx].
  exists x. unfold VectorIdx.At, VectorIdx.at_, panic. zcases; simpl.
  rewrite Eoff'. split; [by apply load_index|].
  apply load_index. rewrite <- Hx.
  apply (index_update_ne _ _ _ _ _ _ Hoff Hu). nia.
Qed.

(** X4. On a well-formed triangular view and an in-range pair (r, c) of
    its stored half (r <= c for upper, c <= r for lower), [SetTri(r, c, v)]
    returns, changes only elements of the view's own backing array, and
    afterwards [At(r, c)] returns v while [At] at every other in-range
    coordinate returns what it returned before. *)
Theorem SetTri_then_At
    (t : TriDense) (r c : Z) (v : float64) (h : heap) :
  wf_tri h t -> 0 <= r < tN t -> 0 <= c < tN t ->
  (tUplo t = blas.Upper /\ r <= c) \/ (tUplo t = blas.Lower /\ c <= r) ->
  exists h',
    TriIdx.SetTri t r c v h = Return tt h' /\
    modifies_only (base (tData t)) h h' /\
    TriIdx.At t r c h' = Return v h' /\
    forall r' c', 0 <= r' < tN t -> 0 <= c' < tN t -> (r', c') <> (r, c) ->
      exists x, TriIdx.At t r' c' h = Return x h /\
                TriIdx.At t r' c' h' = Return x h'.
Proof.
  intros Hwf Hr Hc Hside.
  destruct (offset_in_bounds h _ _ _ r c Hwf Hr Hc) as [Eoff Hin].
  pose proof Hwf as (Hn & Hsl & _). pose proof Hsl as (Hoff & _).
  destruct (update_in_bounds h _ _ v Hsl Hin) as [h' Hu].
  pose proof (index_update_eq _ _ _ _ _ Hu) as Hidx.
  exists h'. split.
  { unfold TriIdx.SetTri, TriIdx.set_, panic.
    destruct Hside as [[-> Hle] | [-> Hle]]; unfold blas.Upper, blas.Lower;
      zcases; simpl; rewrite Eoff; by apply store_update. }
  split; [by eapply update_modifies|]. split.
  { unfold TriIdx.At, TriIdx.at_, panic.
    destruct Hside as [[-> Hle] | [-> Hle]]; unfold blas.Upper, blas.Lower;
      zcases; simpl; rewrite Eoff; by apply load_index. }
  intros r' c' Hr' Hc' Hne.
  destruct (offset_in_bounds h _ _ _ r' c' Hwf Hr' Hc') as [Eoff' Hin'].
  destruct (index_in_bounds h _ _ Hsl Hin') as [x Hx].
  assert (Hx' : index h' (tData t) (r' * tStride t + c') = Some x).
  { rewrite <- Hx. apply (index_update_ne _ _ _ _ _ _ Hoff Hu).
    intros Heq. apply offset_inj in Heq as [? ?]; [|lia..].
    apply Hne. congruence. }
  unfold TriIdx.At, TriIdx.at_, panic, ret.
  destruct (tUplo t =? blas.Upper); zcases; simpl; rewrite ?Eoff';
    first [ by (exists 0%float)
          | exists x; split; by apply load_index ].
Qed.

(** X5. On a well-formed symmetric view, [SetSym(r, c, v)] at an in-range
    pair returns and changes only the element at (r, c), which is also the
    element at (c, r): at every other in-range coordinate [At] returns what
    it returned before, and returns the same at the mirrored coordinate. *)
Theorem SetSym_changes_one_element
    (s : SymDense) (r c : Z) (v : float64) (h : heap) :
  wf_sym h s -> 0 <= r < sN s -> 0 <= c < sN s ->
  exists h',
    SymIdx.SetSym s r c v h = Return tt h' /\
    modifies_only (base (sData s)) h h' /\
    forall r' c', 0 <= r' < sN s -> 0 <= c' < sN s ->
      (r', c') <> (r, c) -> (r', c') <> (c, r) ->
      exists x, SymIdx.At s r' c' h = Return x h /\
                SymIdx.At s c' r' h = Return x h /\
                SymIdx.At s r' c' h' = Return x h' /\
                SymIdx.At s c' r' h' = Return x h'.
Proof.
  intros Hwf Hr Hc.
  assert (Hmin : 0 <= Z.min r c < sN s) by lia.
  assert (Hmax : 0 <= Z.max r c < sN s) by lia.
  destruct (offset_in_bounds h _ _ _ _ _ Hwf Hmin Hmax) as [Eoff Hin].
  pose proof Hwf as (Hn & Hsl & _). pose proof Hsl as (Hoff & _).
  destruct (update_in_bounds h _ _ v Hsl Hin) as [h' Hu].
  exists h'. split.
  { unfold SymIdx.SetSym, SymIdx.set_, panic. zcases; simpl.
    - replace c with (Z.min r c) at 1 by lia.
      replace r with (Z.max r c) at 2 by lia.
      rewrite Eoff. by apply store_update.
    - replace r with (Z.min r c) at 1 by lia.
      replace c with (Z.max r c) at 2 by lia.
      rewrite Eoff. by apply store_update. }
  split; [by eapply update_modifies|].
  intros r' c' Hr' Hc' Hne1 Hne2.
  assert (Hmin' : 0 <= Z.min r' c' < sN s) by lia.
  assert (Hmax' : 0 <= Z.max r' c' < sN s) by lia.
  destruct (offset_in_bounds h _ _ _ _ _ Hwf Hmin' Hmax') as [Eoff' Hin'].
  destruct (index_in_bounds h _ _ Hsl Hin') as [x Hx].
  assert (Hx' : index h' (sData s) (Z.min r' c' * sStride s + Z.max r' c') = Some x).
  { rewrite <- Hx. apply (index_update_ne _ _ _ _ _ _ Hoff Hu).
    intros Heq. apply offset_inj in Heq as [? ?]; [|lia..].
    destruct (Z.le_ge_cases r c), (Z.le_ge_cases r' c');
      first [ apply Hne1; f_equal; lia | apply Hne2; f_equal; lia ]. }
  assert (Hat : forall g, index g (sData s) (Z.min r' c' * sStride s + Z.max r' c') = Some x ->
            SymIdx.At s r' c' g = Return x g /\ SymIdx.At s c' r' g = Return x g).
  { intros g Hg. unfold SymIdx.At, SymIdx.at_, panic.
    destruct (Z.min_spec r' c') as [[? Emin]|[? Emin]],
             (Z.max_spec r' c') as [[? Emax]|[? Emax]]; try lia;
      rewrite Emin, Emax in *; zcases; simpl; rewrite ?Eoff';
      try (split; by apply load_index).
    all: replace c' with r' in * by lia; rewrite ?Eoff';
      split; by apply load_index. }
  exists x. destruct (Hat h Hx) as [? ?], (Hat h' Hx') as [? ?]. done.
Qed.

(** X6. The guard of [SetTri] and the masking of [At] disagree on a view
    whose orientation tag is neither upper nor lower: [SetTri] accepts an
    in-range coordinate above the diagonal and stores v there, yet [At]
    treats the view as lower and returns 0.0 at that coordinate. *)
Theorem TriDense_untagged_write_not_read
    (t : TriDense) (r c : Z) (v : float64) (h : heap) :
  wf_tri h t -> tUplo t <> blas.Upper -> tUplo t <> blas.Lower ->
  0 <= r -> r < c -> c < tN t ->
  exists h',
    TriIdx.SetTri t r c v h = Return tt h' /\
    index h' (tData t) (r * tStride t + c) = Some v /\
    TriIdx.At t r c h' = Return 0%float h'.
Proof.
  intros Hwf Hup Hlo Hr Hrc Hc.
  destruct (offset_in_bounds h _ _ _ r c Hwf ltac:(lia) ltac:(lia)) as [Eoff Hin].
  pose proof Hwf as (Hn & Hsl & _).
  destruct (update_in_bounds h _ _ v Hsl Hin) as [h' Hu].
  exists h'. apply Z.eqb_neq in Hup, Hlo.
  unfold TriIdx.SetTri, TriIdx.At, TriIdx.set_, TriIdx.at_, panic, ret.
  rewrite Hup, Hlo. zcases; simpl. rewrite Eoff.
  split; [by apply store_update|]. split; [|done].
  eapply index_update_eq, Hu.
Qed.

(** * The single triangular solve *)

Section SolveTriProperties.
Variable reuseAs : Dense -> Z -> Z -> M heap Dense.
Variable Copy : gmap loc Dense -> Dense -> Matrix -> M heap unit.
Variable Trsm :
  blas.Side -> blas.Transpose -> float64 -> TriDense -> Dense -> M heap unit.

(** X1. In a valid call of [SolveTri] (the right-hand side has as many rows
    as the triangle, the orientation tag is upper or lower, and the
    collaborators return), the result first takes the elements of the
    right-hand side, by one call of [Copy] unless the right-hand side is the
    result object itself; then exactly one [Trsm] call runs in place on the
    result, from the left with alpha 1, transposed when [trans] is set and
    non-transposed otherwise, whatever the orientation. *)
Theorem SolveTri_copy_then_one_solve
    (m : loc) (t : TriDense) (trans : bool) (b : Matrix) (w : world) (bn : Z)
    (d d1 : Dense) (h1 h2 h3 : heap) :
  tUplo t = blas.Upper \/ tUplo t = blas.Lower ->
  Dims b w = Return (tN t, bn) w ->
  objs w !! m = Some d ->
  reuseAs d (tN t) bn (mem w) = Return d1 h1 ->
  (if same_object b m then h2 = h1
   else Copy (<[m := d1]> (objs w)) d1 b h1 = Return tt h2) ->
  Trsm blas.Left (if trans then blas.Trans else blas.NoTrans) 1 t d1 h2 =
    Return tt h3 ->
  SolveTri reuseAs Copy Trsm m t trans b w =
  Return tt
    (mkWorld (<[m := d1]> (objs w)) h3
       (calls w ++ (if same_object b m then [] else [CallCopy m b]) ++
        [CallTrsm blas.Left (if trans then blas.Trans else blas.NoTrans) 1 t d1])).
Proof.
  intros Hside Hdims Hm Hre Hcp Hk.
  rewrite SolveTri_steps.
  rewrite (bind_Return _ _ _ _ _ Hdims).
  rewrite Z.eqb_refl; simpl.
  rewrite (bind_Return _ _ _ _ _ (copy_in_valid reuseAs Copy _ _ _ _ _ _ _ _ _ Hm Hre Hcp)).
  assert (Htag : (tUplo t =? blas.Upper) || (tUplo t =? blas.Lower) = true).
  { destruct Hside as [-> | ->]; done. }
  rewrite Htag.
  rewrite (do_Trsm_valid Trsm _ _ _ _ _ _ d1 h3); simpl;
    [by rewrite <- app_assoc | apply lookup_insert_eq | done].
Qed.
End SolveTriProperties.

(** ** Instances *)

Lemma Dense_Set_then_At_witness :
  let m := mkDense 2 2 3 (mkSlice 1%positive 0 5 6) in
  let h : heap := {[ 1%positive := [1; 2; 0; 3; 4; 0]%float ]} in
  exists h',
    DenseIdx.Set_ m 1 0 9%float h = Return tt h' /\
    modifies_only (base (dData m)) h h' /\
    DenseIdx.At m 1 0 h' = Return 9%float h' /\
    forall r' c', 0 <= r' < dRows m -> 0 <= c' < dCols m -> (r', c') <> (1, 0) ->
      exists x, DenseIdx.At m r' c' h = Return x h /\
                DenseIdx.At m r' c' h' = Return x h'.
Proof.
  apply (Dense_Set_then_At
           (mkDense 2 2 3 (mkSlice 1%positive 0 5 6)) 1 0 9%float
           {[ 1%positive := [1; 2; 0; 3; 4; 0]%float ]}); try (simpl; lia).
  unfold wf_dense, wf_slice, max_int; simpl.
  rewrite lookup_singleton_eq; simpl. lia.
Defined.

Lemma Vector_Set_then_At_witness :
  let m := mkVector 2 (mkSlice 1%positive 0 5 5) 3 in
  let h : heap := {[ 1%positive := [1; 0; 2; 0; 3]%float ]} in
  exists h',
    VectorIdx.Set_ m 1 0 9%float h = Return tt h' /\
    modifies_only (base (vData m)) h h' /\
    VectorIdx.At m 1 0 h' = Return 9%float h' /\
    forall r', 0 <= r' < vn m -> r' <> 1 ->
      exists x, VectorIdx.At m r' 0 h = Return x h /\
                VectorIdx.At m r' 0 h' = Return x h'.
Proof.
  apply (Vector_Set_then_At
           (mkVector 2 (mkSlice 1%positive 0 5 5) 3) 1 9%float
           {[ 1%positive := [1; 0; 2; 0; 3]%float ]}); try (simpl; lia).
  unfold wf_vector, wf_slice, max_int; simpl.
  rewrite lookup_singleton_eq; simpl. lia.
Defined.

Lemma SetTri_then_At_witness :
  let t := mkTri 2 2 (mkSlice 1%positive 0 4 4) blas.Upper blas.NonUnit in
  let h : heap := {[ 1%positive := [2; 1; 7; 3]%float ]} in
  exists h',
    TriIdx.SetTri t 0 1 9%float h = Return tt h' /\
    modifies_only (base (tData t)) h h' /\
    TriIdx.At t 0 1 h' = Return 9%float h' /\
    forall r' c', 0 <= r' < tN t -> 0 <= c' < tN t -> (r', c') <> (0, 1) ->
      exists x, TriIdx.At t r' c' h = Return x h /\
                TriIdx.At t r' c' h' = Return x h'.
Proof.
  apply (SetTri_then_At
           (mkTri 2 2 (mkSlice 1%positive 0 4 4) blas.Upper blas.NonUnit)
           0 1 9%float {[ 1%positive := [2; 1; 7; 3]%float ]}); try (simpl; lia).
  unfold wf_tri, wf_square, wf_slice, max_int; simpl.
  rewrite lookup_singleton_eq; simpl. lia.
Defined.

Lemma SetSym_changes_one_element_witness :
  let s := mkSym 2 2 (mkSlice 1%positive 0 4 4) blas.Upper in
  let h : heap := {[ 1%positive := [4; 2; 2; 5]%float ]} in
  exists h',
    SymIdx.SetSym s 1 0 9%float h = Return tt h' /\
    modifies_only (base (sData s)) h h' /\
    forall r' c', 0 <= r' < sN s -> 0 <= c' < sN s ->
      (r', c') <> (1, 0) -> (r', c') <> (0, 1) ->
      exists x, SymIdx.At s r' c' h = Return x h /\
                SymIdx.At s c' r' h = Return x h /\
                SymIdx.At s r' c' h' = Return x h' /\
                SymIdx.At s c' r' h' = Return x h'.
Proof.
  apply (SetSym_changes_one_element
           (mkSym 2 2 (mkSlice 1%positive 0 4 4) blas.Upper) 1 0 9%float
           {[ 1%positive := [4; 2; 2; 5]%float ]}); try (simpl; lia).
  apply spd_input_wf.
Defined.

Lemma TriDense_untagged_write_not_read_witness :
  let t := mkTri 2 2 (mkSlice 1%positive 0 4 4) 0 blas.NonUnit in
  let h : heap := {[ 1%positive := [2; 1; 7; 3]%float ]} in
  exists h',
    TriIdx.SetTri t 0 1 9%float h = Return tt h' /\
    index h' (tData t) (0 * tStride t + 1) = Some 9%float /\
    TriIdx.At t 0 1 h' = Return 0%float h'.
Proof.
  apply (TriDense_untagged_write_not_read
           (mkTri 2 2 (mkSlice 1%positive 0 4 4) 0 blas.NonUnit)
           0 1 9%float {[ 1%positive := [2; 1; 7; 3]%float ]});
    try (unfold blas.Upper, blas.Lower; simpl; lia).
  unfold wf_tri, wf_square, wf_slice, max_int; simpl.
  rewrite lookup_singleton_eq; simpl. lia.
Defined.

Lemma SolveTri_copy_then_one_solve_witness :
  let reuseAs := fun (d : Dense) (_ _ : Z) => ret d : M heap Dense in
  let Copy := fun (_ : gmap loc Dense) (_ : Dense) (_ : Matrix) =>
                ret tt : M heap unit in
  let Trsm := fun (_ : blas.Side) (_ : blas.Transpose) (_ : float64)
                  (_ : TriDense) (_ : Dense) => ret tt : M heap unit in
  let t := mkTri 2 2 (mkSlice 1%positive 0 4 4) blas.Lower blas.NonUnit in
  let d := mkDense 2 1 1 (mkSlice 2%positive 0 2 2) in
  let w := mkWorld {[ 5%positive := d ]} ∅ [] in
  SolveTri reuseAs Copy Trsm 5%positive t true (MOther 2 1) w =
  Return tt (mkWorld (<[5%positive := d]> {[ 5%positive := d ]}) ∅
               [CallCopy 5%positive (MOther 2 1);
                CallTrsm blas.Left blas.Trans 1 t d]).
Proof.
  exact (SolveTri_copy_then_one_solve
           (fun d _ _ => ret d) (fun _ _ _ => ret tt) (fun _ _ _ _ _ => ret tt)
           5%positive
           (mkTri 2 2 (mkSlice 1%positive 0 4 4) blas.Lower blas.NonUnit)
           true (MOther 2 1)
           (mkWorld {[ 5%positive := mkDense 2 1 1 (mkSlice 2%positive 0 2 2) ]} ∅ [])
           1 (mkDense 2 1 1 (mkSlice 2%positive 0 2 2))
           (mkDense 2 1 1 (mkSlice 2%positive 0 2 2)) ∅ ∅ ∅
           (or_intror eq_refl)
           eq_refl eq_refl eq_refl eq_refl eq_refl).
Defined.

(** * The factor is determined by the input *)

Section Uniqueness.
Variable dot : list float64 -> list float64 -> option float64.
Variables A B F G : Z -> Z -> float64.
Variable n : Z.
Hypothesis AB : forall j k, 0 <= k <= j -> j < n -> A j k = B j k.

(** The off-diagonal equations of a row determine its entries, given the
    rows before it. *)
Lemma row_unique (j : Z) :
  0 <= j < n ->
  (forall jj kk, 0 <= kk <= jj -> jj < j -> F jj kk = G jj kk) ->
  (forall k, 0 <= k < j -> offdiag_equation dot A F j k) ->
  (forall k, 0 <= k < j -> offdiag_equation dot B G j k) ->
  forall k, 0 <= k < j -> F j k = G j k.
Proof.
  intros Hj Hrows HF HG.
  assert (Hall : forall m : nat, forall k, 0 <= k < Z.of_nat m -> k < j ->
            F j k = G j k).
  { induction m as [|m IH]; intros k Hk Hkj; [lia|].
    destruct (Z.eq_dec k (Z.of_nat m)) as [->|Hne]; [|apply IH; lia].
    destruct (HF (Z.of_nat m) ltac:(lia)) as (s & Hs & ->).
    destruct (HG (Z.of_nat m) ltac:(lia)) as (s' & Hs' & ->).
    rewrite (map_zrange_ext (F (Z.of_nat m)) (G (Z.of_nat m))) in Hs
      by (intros; apply Hrows; lia).
    rewrite (map_zrange_ext (F j) (G j)) in Hs by (intros; apply IH; lia).
    rewrite Hs in Hs'. injection Hs' as <-.
    rewrite (Hrows (Z.of_nat m) (Z.of_nat m)) by lia.
    by rewrite AB by lia. }
  intros k Hk. apply (Hall (Z.to_nat j)); lia.
Qed.

(** Equal rows give equal diagonal candidates. *)
Lemma candidate_unique (j : Z) :
  0 <= j < n ->
  (forall k, 0 <= k < j -> F j k = G j k) ->
  candidate A F j = candidate B G j.
Proof.
  intros Hj Hrow. unfold candidate.
  rewrite (map_zrange_ext (F j) (G j)) by done.
  by rewrite AB by lia.
Qed.

(** The equations of the columns before [j] determine their entries. *)
Lemma rows_unique (j : Z) :
  0 <= j <= n ->
  (forall jj, 0 <= jj < j -> column_equations dot A F jj) ->
  (forall jj, 0 <= jj < j -> column_equations dot B G jj) ->
  forall jj kk, 0 <= kk <= jj -> jj < j -> F jj kk = G jj kk.
Proof.
  intros Hj HF HG.
  assert (Hall : forall m : nat, forall jj kk,
            0 <= kk <= jj -> jj < Z.of_nat m -> jj < j -> F jj kk = G jj kk).
  { induction m as [|m IH]; intros jj kk Hkk Hm Hjj; [lia|].
    destruct (Z.eq_dec jj (Z.of_nat m)) as [->|Hne]; [|apply IH; lia].
    destruct (HF (Z.of_nat m) ltac:(lia)) as [HoffF HdF].
    destruct (HG (Z.of_nat m) ltac:(lia)) as [HoffG HdG].
    assert (Hrow : forall k, 0 <= k < Z.of_nat m ->
              F (Z.of_nat m) k = G (Z.of_nat m) k).
    { apply row_unique; [lia | | done | done]. intros; apply IH; lia. }
    destruct (Z.eq_dec kk (Z.of_nat m)) as [->|Hk]; [|apply Hrow; lia].
    cbv zeta in HdF, HdG. destruct HdF as [_ ->], HdG as [_ ->].
    pose proof (candidate_unique (Z.of_nat m) ltac:(lia) Hrow) as Hc.
    unfold candidate in Hc. by rewrite Hc. }
  intros jj kk Hkk Hjj. apply (Hall (Z.to_nat j)); lia.
Qed.
End Uniqueness.

(** Two runs on inputs with the same elements agree on the outcome and,
    when they succeed, on every entry of the factor. *)
Lemma verdict_unique
    (dot : list float64 -> list float64 -> option float64)
    (A B F G : Z -> Z -> float64) (n : Z) (ok1 ok2 : bool) :
  (forall j k, 0 <= k <= j -> j < n -> A j k = B j k) ->
  verdict dot A n ok1 F -> verdict dot B n ok2 G ->
  ok1 = ok2 /\
  (ok1 = true -> forall j k, 0 <= k <= j -> j < n -> F j k = G j k).
Proof.
  intros AB HF HG.
  assert (BA : forall j k, 0 <= k <= j -> j < n -> B j k = A j k)
    by (intros; symmetry; by apply AB).
  destruct ok1, ok2; simpl in HF, HG.
  - split; [done|]. intros _ j k Hk Hj.
    apply (rows_unique dot A B F G n AB n); try done; lia.
  - exfalso. destruct HG as (j & Hj & [Hcols Hoff] & Hd).
    assert (Hrows : forall jj kk, 0 <= kk <= jj -> jj < j -> F jj kk = G jj kk).
    { apply (rows_unique dot A B F G n AB j); [lia | | done].
      intros jj Hjj. apply HF. lia. }
    destruct (HF j Hj) as [HoffF HdF]. cbv zeta in HdF. destruct HdF as [HdF _].
    pose proof (row_unique dot A B F G n AB j Hj Hrows HoffF Hoff) as Hrow.
    pose proof (candidate_unique A B F G n AB j Hj Hrow) as Hc.
    unfold candidate in *. rewrite <- Hc in Hd. congruence.
  - exfalso. destruct HF as (j & Hj & [Hcols Hoff] & Hd).
    assert (Hrows : forall jj kk, 0 <= kk <= jj -> jj < j -> G jj kk = F jj kk).
    { apply (rows_unique dot B A G F n BA j); [lia | | done].
      intros jj Hjj. apply HG. lia. }
    destruct (HG j Hj) as [HoffG HdG]. cbv zeta in HdG. destruct HdG as [HdG _].
    pose proof (row_unique dot B A G F n BA j Hj Hrows HoffG Hoff) as Hrow.
    pose proof (candidate_unique B A G F n BA j Hj Hrow) as Hc.
    unfold candidate in *. rewrite <- Hc in Hd. congruence.
  - split; [done|]. done.
Qed.

(** [At] on a factor: zero on the side that is not stored, the stored entry
    elsewhere. *)
Lemma At_factor (upper : bool) (t : TriDense) (h : heap) (r c : Z) :
  wf_tri h t -> tUplo t = orientation upper ->
  0 <= r < tN t -> 0 <= c < tN t ->
  TriIdx.At t r c h = Return (factor_element upper (stored upper t h) r c) h.
Proof.
  intros Hwf Hu Hr Hc. unfold factor_element.
  destruct upper.
  - destruct (Z.ltb_spec c r) as [Hlt|Hle].
    + unfold TriIdx.At, TriIdx.at_, panic, ret. rewrite Hu.
      unfold orientation, blas.Upper. zcases; simpl. done.
    + rewrite Z.max_r, Z.min_l by lia.
      apply (At_stored true t h c r); try done; lia.
  - destruct (Z.ltb_spec r c) as [Hlt|Hle].
    + unfold TriIdx.At, TriIdx.at_, panic, ret. rewrite Hu.
      unfold orientation, blas.Upper, blas.Lower. zcases; simpl. done.
    + rewrite Z.max_l, Z.min_r by lia.
      apply (At_stored false t h r c); try done; lia.
Qed.

Section Traces.
Variable DdotInc :
  list float64 -> list float64 -> Z -> Z -> Z -> Z -> Z -> option float64.
Variable DdotUnitary : list float64 -> list float64 -> option float64.
Variable dot_strided : list float64 -> list float64 -> option float64.
Hypothesis DdotInc_ok : DdotInc_safe DdotInc.
Hypothesis DdotUnitary_ok : DdotUnitary_safe DdotUnitary.
Hypothesis DdotInc_dot : DdotInc_gathers DdotInc dot_strided.

Local Abbreviation inner := (inner DdotInc DdotUnitary).
Local Abbreviation columns := (columns DdotInc DdotUnitary).
Local Abbreviation pivot := (pivot DdotInc DdotUnitary).
Local Abbreviation Cholesky := (Cholesky DdotInc DdotUnitary).
Local Abbreviation dot_of := (branch_dot dot_strided DdotUnitary).

(** The [j] loop returns, and what it leaves in the target's storage is
    what its outcome says: every column's equations when it returns true,
    those up to the offending diagonal when it returns false. *)
Lemma columns_trace (upper : bool) (t : TriDense) (a : SymDense)
    (A : Z -> Z -> float64) (cnt : nat) (j : Z) (h : heap) :
  separate t a ->
  outer_inv (dot_of upper) upper a t A j h ->
  0 <= j -> j + Z.of_nat cnt = sN a ->
  exists ok t' h',
    columns upper (tData t) (tStride t) a cnt j (t, h) = Return ok (t', h') /\
    (ok = true -> t' = t /\ loop_inv a t h') /\
    verdict (dot_of upper) A (sN a) ok (stored upper t h').
Proof.
  intros Hsep. revert j h.
  induction cnt as [|cnt IH]; intros j h Hinv Hj Hcnt.
  - replace j with (sN a) in * by lia. exists true, t, h.
    destruct Hinv as (Hloop & _ & Hcols). done.
  - destruct Hinv as (Hloop & HA & Hcols).
    destruct (inner_run DdotInc DdotUnitary dot_strided DdotInc_ok DdotUnitary_ok
                DdotInc_dot upper t a A h j (Z.to_nat j) 0 0%float h Hsep)
      as (d & h1 & Hin & (Hloop1 & HA1 & Hagree & Heqs & Hd)); [|lia..|].
    { split; [done|]. split; [done|]. split; [done|]. split; [intros; lia | done]. }
    pose proof Hloop1 as (Ha & Ht & Hn).
    assert (Hjn : 0 <= j < tN t) by lia.
    pose proof (sym_at_value h1 a j j Ha ltac:(lia) ltac:(lia)) as Hajj.
    rewrite HA1 in Hajj.
    rewrite columns_S. unfold pivot.
    rewrite (bind_Return _ _ _ _ _ Hin), (bind_Return _ _ _ _ _ Hajj). unfold ret.
    destruct (A j j - d <=? 0)%float eqn:Hpos.
    + exists false, (Reset t), h1. split; [done|]. split; [done|].
      exists j. split; [lia|]. split; [split|].
      * intros jj Hjj. eapply column_equations_ext; [lia | | apply Hcols; lia].
        intros r c Hc Hr. symmetry. apply Hagree; lia.
      * exact Heqs.
      * unfold candidate. by rewrite <- Hd.
    + destruct (tri_set_value h1 t j j (PrimFloat.sqrt (Max (A j j - d) 0)) Ht Hjn Hjn)
        as (h2 & Hu & ->).
      assert (Hu' : update h1 (tData t) (cell_offset upper t j j)
                      (PrimFloat.sqrt (Max (A j j - d) 0)) = Some h2)
        by (by destruct upper).
      assert (Hsame : forall jj kk, 0 <= kk <= jj -> jj < tN t -> (jj, kk) <> (j, j) ->
                stored upper t h2 jj kk = stored upper t h1 jj kk).
      { intros jj kk Hkk Hjj Hne.
        eapply (stored_update_ne upper t h1 h2 j j); eauto; lia. }
      apply IH; [|lia..].
      split; [eapply loop_inv_modifies; [eapply update_modifies|]; eauto|].
      split.
      { intros jj kk. rewrite <- HA1. apply input_entry_frame.
        destruct (update_modifies _ _ _ _ _ Hu (base (sData a))) as [Hfr _].
        apply Hfr. unfold separate in Hsep. congruence. }
      intros jj Hjj. destruct (Z.eq_dec jj j) as [->|Hne].
      * split.
        -- intros k Hk. eapply offdiag_equation_ext; [lia | | apply Heqs; lia].
           intros r c Hc [-> | ->]; symmetry; apply Hsame;
             first [lia | ne_pair].
        -- simpl.
           rewrite (map_zrange_ext (stored upper t h2 j) (stored upper t h1 j))
             by (intros; apply Hsame; [lia | lia | ne_pair]).
           rewrite <- Hd, Hpos. split; [done|].
           by rewrite (stored_update_eq _ _ _ _ _ _ _ Hu').
      * eapply column_equations_ext; [lia | | apply Hcols; lia].
        intros r c Hc Hr. rewrite Hsame by (first [lia | ne_pair]).
        symmetry. apply Hagree; lia.
Qed.

(** The call returns, and what it leaves is what its outcome says. *)
Lemma Cholesky_trace (a : SymDense) (upper : bool) (t : TriDense) (h : heap) :
  wf_sym h a -> target_ready h t a -> separate t a ->
  exists ok t' h',
    Cholesky a upper (t, h) = Return ok (t', h') /\
    (ok = true ->
     tN t' = sN a /\ tUplo t' = orientation upper /\ (0 < sN a -> wf_tri h' t')) /\
    exists t1,
      (ok = true -> t' = t1) /\
      verdict (dot_of upper) (input_entry a h) (sN a) ok (stored upper t1 h').
Proof.
  intros Ha Hready Hsep.
  destruct (Z.eq_dec (sN a) 0) as [Hz|Hnz].
  - destruct (Cholesky_returns DdotInc DdotUnitary DdotInc_ok DdotUnitary_ok
                a upper t h Ha Hready)
      as (ok & t' & h' & Hrun & _ & _ & Hok).
    assert (ok = true) as ->.
    { rewrite Cholesky_steps in Hrun.
      destruct (prepare a (t, h)) as [[] [t1 h1]|]; [|done].
      unfold Symmetric in Hrun. rewrite Hz in Hrun. simpl in Hrun.
      unfold ret in Hrun. congruence. }
    exists true, t', h'. split; [done|].
    destruct (Hok eq_refl) as (HN & HU & Hwf & _).
    split; [done|]. exists t'. split; [done|]. intros j Hj. lia.
  - assert (Hpos : 0 < sN a) by (destruct Ha as (? & _); lia).
    destruct (prepare_returns a t h Ha Hready Hpos) as (t1 & h1 & Hprep & Hinv & _).
    destruct (prepare_separate a t t1 h h1 Ha Hsep Hprep) as [Hsep1 Hfr].
    apply (loop_inv_set_Uplo _ _ (orientation upper)) in Hinv.
    destruct (columns_trace upper (set_Uplo (orientation upper) t1) a
                (input_entry a h) (Z.to_nat (sN a)) 0 h1)
      as (ok & t' & h' & Hcols & Hok & Hv); [done | | lia | lia |].
    { split; [done|]. split; [intros; by apply input_entry_frame|].
      intros jj Hjj. lia. }
    exists ok, t', h'. split.
    { rewrite Cholesky_steps, Hprep. exact Hcols. }
    split.
    + intros Hsucc. destruct (Hok Hsucc) as (-> & (_ & Hwf & HN)). done.
    + exists (set_Uplo (orientation upper) t1). split; [|done].
      intros Hsucc. by destruct (Hok Hsucc).
Qed.

(** Two runs, possibly of different branches, on views of the same matrix
    agree when the branches take the same dot product. *)
Lemma Cholesky_runs_agree
    (a1 a2 : SymDense) (u1 u2 : bool) (t1 t2 : TriDense) (h1 h2 : heap) :
  dot_of u1 = dot_of u2 ->
  wf_sym h1 a1 -> target_ready h1 t1 a1 -> separate t1 a1 ->
  wf_sym h2 a2 -> target_ready h2 t2 a2 -> separate t2 a2 ->
  sN a1 = sN a2 ->
  (forall j k, 0 <= k <= j -> j < sN a1 ->
     input_entry a1 h1 j k = input_entry a2 h2 j k) ->
  exists ok t1' h1' t2' h2',
    Cholesky a1 u1 (t1, h1) = Return ok (t1', h1') /\
    Cholesky a2 u2 (t2, h2) = Return ok (t2', h2') /\
    (ok = true ->
     exists F,
       forall r c, 0 <= r < sN a1 -> 0 <= c < sN a1 ->
         TriIdx.At t1' r c h1' = Return (factor_element u1 F r c) h1' /\
         TriIdx.At t2' r c h2' = Return (factor_element u2 F r c) h2').
Proof.
  intros Hdot Ha1 Hr1 Hs1 Ha2 Hr2 Hs2 Hn HA.
  destruct (Cholesky_trace a1 u1 t1 h1 Ha1 Hr1 Hs1)
    as (ok1 & t1' & h1' & Hrun1 & Hok1 & s1 & Hs1' & Hv1).
  destruct (Cholesky_trace a2 u2 t2 h2 Ha2 Hr2 Hs2)
    as (ok2 & t2' & h2' & Hrun2 & Hok2 & s2 & Hs2' & Hv2).
  rewrite <- Hn in Hv2. rewrite <- Hdot in Hv2.
  destruct (verdict_unique _ _ _ _ _ _ _ _ HA Hv1 Hv2) as [<- Hsame].
  exists ok1, t1', h1', t2', h2'. split; [done|]. split; [done|].
  intros Hsucc.
  destruct (Hok1 Hsucc) as (HN1 & HU1 & Hwf1).
  destruct (Hok2 Hsucc) as (HN2 & HU2 & Hwf2).
  rewrite <- (Hs1' Hsucc) in *. rewrite <- (Hs2' Hsucc) in *.
  exists (stored u1 t1' h1'). intros r c Hr Hc. split.
  - apply At_factor; try done; try lia. apply Hwf1. lia.
  - rewrite (At_factor u2 t2' h2' r c); try done; try lia; [|apply Hwf2; lia].
    f_equal. unfold factor_element.
    destruct (if u2 then c <? r else r <? c); [done|].
    symmetry. apply (Hsame Hsucc); lia.
Qed.
End Traces.

Section FactorDetermined.
Variable DdotInc :
  list float64 -> list float64 -> Z -> Z -> Z -> Z -> Z -> option float64.
Variable DdotUnitary : list float64 -> list float64 -> option float64.
Variable dot_strided : list float64 -> list float64 -> option float64.

Local Abbreviation Cholesky := (Cholesky DdotInc DdotUnitary).

(** X7. The outcome and the factor are determined by the orientation and
    by the elements [At] reads from the input, and by nothing else: not by
    what the target held before (empty, or of the right dimension with any
    contents and any stride), nor by the layout of the input or by the rest
    of memory.  Two calls of the same branch on symmetric views that read
    the same matrix, each with a ready target apart from its input, return
    the same boolean, and when that is true [At] reads the same element at
    every coordinate of the two factors. *)
Theorem Cholesky_depends_only_on_input
    (a1 a2 : SymDense) (upper : bool) (t1 t2 : TriDense) (h1 h2 : heap) :
  DdotInc_safe DdotInc -> DdotUnitary_safe DdotUnitary ->
  DdotInc_gathers DdotInc dot_strided ->
  wf_sym h1 a1 -> target_ready h1 t1 a1 -> separate t1 a1 ->
  wf_sym h2 a2 -> target_ready h2 t2 a2 -> separate t2 a2 ->
  Symmetric a1 = Symmetric a2 ->
  (forall r c, 0 <= r < Symmetric a1 -> 0 <= c < Symmetric a1 ->
     exists x, SymIdx.At a1 r c h1 = Return x h1 /\
               SymIdx.At a2 r c h2 = Return x h2) ->
  exists ok t1' h1' t2' h2',
    Cholesky a1 upper (t1, h1) = Return ok (t1', h1') /\
    Cholesky a2 upper (t2, h2) = Return ok (t2', h2') /\
    (ok = true ->
     forall r c, 0 <= r < Symmetric a1 -> 0 <= c < Symmetric a1 ->
       exists x, TriIdx.At t1' r c h1' = Return x h1' /\
                 TriIdx.At t2' r c h2' = Return x h2').
Proof.
  intros HInc HUni Hdot Ha1 Hr1 Hs1 Ha2 Hr2 Hs2 Hn Hsame. unfold Symmetric in *.
  destruct (Cholesky_runs_agree DdotInc DdotUnitary dot_strided HInc HUni Hdot
              a1 a2 upper upper t1 t2 h1 h2 eq_refl Ha1 Hr1 Hs1 Ha2 Hr2 Hs2 Hn)
    as (ok & t1' & h1' & t2' & h2' & Hrun1 & Hrun2 & Hok).
  { intros j k Hk Hj.
    destruct (Hsame j k ltac:(lia) ltac:(lia)) as (x & Hx1 & Hx2).
    destruct (Sym_At_value a1 h1 j k Ha1 Hk Hj) as [E1 _].
    destruct (Sym_At_value a2 h2 j k Ha2 Hk ltac:(lia)) as [E2 _].
    congruence. }
  exists ok, t1', h1', t2', h2'. split; [done|]. split; [done|].
  intros Hsucc r c Hr Hc. destruct (Hok Hsucc) as [F HF].
  destruct (HF r c Hr Hc) as [E1 E2]. eauto.
Qed.
End FactorDetermined.

Section Transposes.
Variable DdotInc :
  list float64 -> list float64 -> Z -> Z -> Z -> Z -> Z -> option float64.
Variable DdotUnitary : list float64 -> list float64 -> option float64.

Local Abbreviation Cholesky := (Cholesky DdotInc DdotUnitary).

(** X8. When the strided kernel computes, of the elements it gathers, the
    dot product the unitary kernel computes, the two branches agree bit for
    bit: on the same input the upper and the lower call return the same
    boolean, and when that is true the upper factor is the transpose of the
    lower one, [At(r, c)] on the one returning what [At(c, r)] returns on
    the other. *)
Theorem Cholesky_upper_is_transpose_of_lower
    (a : SymDense) (tU tL : TriDense) (h : heap) :
  DdotInc_safe DdotInc -> DdotUnitary_safe DdotUnitary ->
  DdotInc_gathers DdotInc DdotUnitary ->
  wf_sym h a ->
  target_ready h tU a -> separate tU a ->
  target_ready h tL a -> separate tL a ->
  exists ok tU' hU' tL' hL',
    Cholesky a true (tU, h) = Return ok (tU', hU') /\
    Cholesky a false (tL, h) = Return ok (tL', hL') /\
    (ok = true ->
     forall r c, 0 <= r < Symmetric a -> 0 <= c < Symmetric a ->
       exists x, TriIdx.At tU' r c hU' = Return x hU' /\
                 TriIdx.At tL' c r hL' = Return x hL').
Proof.
  intros HInc HUni Hdot Ha HrU HsU HrL HsL. unfold Symmetric.
  destruct (Cholesky_runs_agree DdotInc DdotUnitary DdotUnitary HInc HUni Hdot
              a a true false tU tL h h eq_refl Ha HrU HsU Ha HrL HsL eq_refl)
    as (ok & tU' & hU' & tL' & hL' & HrunU & HrunL & Hok); [done|].
  exists ok, tU', hU', tL', hL'. split; [done|]. split; [done|].
  intros Hsucc r c Hr Hc. destruct (Hok Hsucc) as [F HF].
  destruct (HF r c Hr Hc) as [EU _]. destruct (HF c r Hc Hr) as [_ EL].
  exists (factor_element true F r c). split; [done|].
  rewrite EL. f_equal. unfold factor_element.
  by rewrite Z.max_comm, Z.min_comm.
Qed.
End Transposes.

(** * The half of the target the factoriser does not write *)

Lemma keeps_inactive_refl (upper : bool) (t : TriDense) (h : heap) :
  keeps_inactive upper t h h.
Proof. intros Hwf. done. Qed.

Lemma keeps_inactive_trans (upper : bool) (t : TriDense) (h1 h2 h3 : heap) :
  keeps_inactive upper t h1 h2 -> keeps_inactive upper t h2 h3 ->
  keeps_inactive upper t h1 h3.
Proof.
  intros H12 H23 Hwf. destruct (H12 Hwf) as [Hwf2 E12].
  destruct (H23 Hwf2) as [Hwf3 E23]. split; [done|].
  intros r c Hr Hc Hin. rewrite E23, E12; done.
Qed.

(** A computation that leaves the state as it found it preserves every
    reflexive relation. *)
Lemma preserves_unchanged {S A} (R : S -> S -> Prop) (m : M S A) :
  (forall s, R s s) -> (forall s, final_state (m s) = s) -> preserves R m.
Proof. intros Hrefl Hm s. rewrite Hm. apply Hrefl. Qed.

Lemma sym_at_state (a : SymDense) (r c : Z) (h : heap) :
  final_state (SymIdx.at_ a r c h) = h.
Proof. unfold SymIdx.at_. destruct (r >? c); apply load_state. Qed.

Lemma tri_at_state (t : TriDense) (r c : Z) (h : heap) :
  final_state (TriIdx.at_ t r c h) = h.
Proof.
  unfold TriIdx.at_.
  destruct (tUplo t =? blas.Upper), (r >? c), (r <? c);
    first [apply load_state | done].
Qed.

(** A write on the side the branch stores keeps the other side. *)
Lemma keeps_inactive_set (upper : bool) (t : TriDense) (r c : Z) (v : float64) :
  0 <= r < tN t -> 0 <= c < tN t -> ~ inactive upper r c ->
  preserves (keeps_inactive upper t) (TriIdx.set_ t r c v).
Proof.
  intros Hr Hc Hact h Hwf. unfold TriIdx.set_, store.
  destruct (offset_in_bounds _ _ _ _ _ _ Hwf Hr Hc) as [-> Hin].
  destruct (update h (tData t) (r * tStride t + c) v) as [h'|] eqn:Hu; simpl;
    [|done].
  split; [eapply wf_square_modifies; [eapply update_modifies|]; eauto|].
  intros r' c' Hr' Hc' Hin'.
  destruct Hwf as (Hn & (Hoff & _) & _).
  apply (index_update_ne _ _ _ _ _ _ Hoff Hu).
  intros Heq. apply offset_inj in Heq as [-> ->]; [done | lia | lia].
Qed.

Ltac keeps_bind :=
  apply preserves_bind;
  [ apply keeps_inactive_trans
  | first [ apply preserves_unchanged;
            [ apply keeps_inactive_refl
            | intros ?; first [ apply slice_contents_state | apply runtime_state
                              | apply sym_at_state | apply tri_at_state ] ]
          | idtac ]
  | intros ? ].

Section InactiveHalf.
Variable DdotInc :
  list float64 -> list float64 -> Z -> Z -> Z -> Z -> Z -> option float64.
Variable DdotUnitary : list float64 -> list float64 -> option float64.

Local Abbreviation inner := (inner DdotInc DdotUnitary).
Local Abbreviation columns := (columns DdotInc DdotUnitary).
Local Abbreviation pivot := (pivot DdotInc DdotUnitary).
Local Abbreviation Cholesky := (Cholesky DdotInc DdotUnitary).

(** The [k] loops write on the stored side only. *)
Lemma inner_keeps (upper : bool) (mat : slice) (stride : Z) (t : TriDense)
    (a : SymDense) (j : Z) (cnt : nat) (k : Z) (d : float64) :
  0 <= k -> k + Z.of_nat cnt <= j -> j < tN t ->
  preserves (keeps_inactive upper t) (inner upper mat stride t a j cnt k d).
Proof.
  revert k d. induction cnt as [|cnt IH]; intros k d Hk Hcnt Hj.
  - destruct upper; apply preserves_ret, keeps_inactive_refl.
  - destruct upper; simpl; repeat keeps_bind.
    + apply keeps_inactive_set; unfold inactive; lia.
    + apply (IH (k + 1)); lia.
    + apply keeps_inactive_set; unfold inactive; lia.
    + apply (IH (k + 1)); lia.
Qed.

Lemma pivot_keeps (upper : bool) (mat : slice) (stride : Z) (t : TriDense)
    (a : SymDense) (j : Z) :
  0 <= j < tN t ->
  preserves (keeps_inactive upper t) (pivot upper mat stride t a j).
Proof.
  intros Hj. unfold pivot. keeps_bind.
  - apply inner_keeps; lia.
  - keeps_bind. apply preserves_ret, keeps_inactive_refl.
Qed.

(** The [j] loop writes on the stored side only, however it ends. *)
Lemma columns_keeps (upper : bool) (mat : slice) (stride : Z) (t : TriDense)
    (a : SymDense) (cnt : nat) (j : Z) (h : heap) :
  0 <= j -> j + Z.of_nat cnt <= tN t ->
  keeps_inactive upper t h
    (final_state (columns upper mat stride a cnt j (t, h))).2.
Proof.
  revert j h. induction cnt as [|cnt IH]; intros j h Hj Hcnt.
  - apply keeps_inactive_refl.
  - rewrite columns_S.
    pose proof (pivot_keeps upper mat stride t a j ltac:(lia) h) as Hp.
    destruct (pivot upper mat stride t a j h) as [d h1|p h1]; simpl in *; [|done].
    destruct (d <=? 0)%float; [done|].
    pose proof (keeps_inactive_set upper t j j (PrimFloat.sqrt (Max d 0))
                  ltac:(lia) ltac:(lia) ltac:(unfold inactive; destruct upper; lia) h1)
      as Hs.
    destruct (TriIdx.set_ t j j (PrimFloat.sqrt (Max d 0)) h1) as [[] h2|p h2];
      simpl in *.
    + eapply keeps_inactive_trans; [exact Hp|].
      eapply keeps_inactive_trans; [exact Hs|]. apply IH; lia.
    + eapply keeps_inactive_trans; eauto.
Qed.

(** X9. The call never writes the half of the target's storage that its
    branch does not store: whatever the input and the kernels, and however
    the call ends (true, false or a panic), every element strictly below
    the diagonal (upper branch) or strictly above it (lower branch) of a
    well-formed target's storage holds afterwards what it held before. *)
Theorem Cholesky_never_writes_inactive_half
    (a : SymDense) (upper : bool) (t : TriDense) (h : heap) (r c : Z) :
  wf_tri h t -> 0 <= r < tN t -> 0 <= c < tN t -> inactive upper r c ->
  index (final_state (Cholesky a upper (t, h))).2 (tData t) (r * tStride t + c) =
  index h (tData t) (r * tStride t + c).
Proof.
  intros Hwf Hr Hc Hin. rewrite Cholesky_steps.
  destruct (prepare_cases a t h)
    as [(Hz & _) | [(Hz & _) | [(_ & _ & ->) | (_ & Hn & ->)]]].
  - unfold isZero in Hz. apply Z.eqb_eq in Hz. destruct Hwf as (? & _). lia.
  - unfold isZero in Hz. apply Z.eqb_eq in Hz. destruct Hwf as (? & _). lia.
  - done.
  - destruct (columns_keeps upper (tData t) (tStride t)
                (set_Uplo (orientation upper) t) a (Z.to_nat (Symmetric a)) 0 h)
      as [_ Hkeep]; [lia | unfold Symmetric; simpl; destruct Hwf as (? & _); lia | exact Hwf |].
    by apply Hkeep.
Qed.
End InactiveHalf.

(** * A factor handed to the solver *)

Section FactorThenSolve.
Variable DdotInc :
  list float64 -> list float64 -> Z -> Z -> Z -> Z -> Z -> option float64.
Variable DdotUnitary : list float64 -> list float64 -> option float64.
Variable reuseAs : Dense -> Z -> Z -> M heap Dense.
Variable Copy : gmap loc Dense -> Dense -> Matrix -> M heap unit.
Variable Trsm :
  blas.Side -> blas.Transpose -> float64 -> TriDense -> Dense -> M heap unit.

Local Abbreviation Cholesky := (Cholesky DdotInc DdotUnitary).

(** A successful call leaves a target of the input's dimension that
    carries the orientation tag of the call. *)
Lemma Cholesky_true_header (a : SymDense) (upper : bool)
    (t t' : TriDense) (h h' : heap) :
  Cholesky a upper (t, h) = Return true (t', h') ->
  tN t' = Symmetric a /\ tUplo t' = orientation upper.
Proof.
  rewrite Cholesky_steps. unfold Symmetric.
  destruct (prepare_cases a t h)
    as [(_ & data & h1 & _ & ->) | [(_ & p & ->) | [(_ & _ & ->) | (_ & Hn & ->)]]];
    try done; intros Hrun; apply columns_true_header in Hrun as ->; done.
Qed.

(** X10. Whenever [Cholesky] returns true, the target it leaves is one
    [SolveCholesky] accepts for a right-hand side of n rows: neither the
    shape check nor the orientation check fails, and the two [Trsm] calls
    come in the order that fits the branch that produced the factor:
    transposed first for an upper factor (A = Uᵗ·U), non-transposed first
    for a lower one (A = L·Lᵗ). *)
Theorem Cholesky_factor_accepted_by_SolveCholesky
    (a : SymDense) (upper : bool) (t t' : TriDense) (h h' : heap) :
  Cholesky a upper (t, h) = Return true (t', h') ->
  forall (m : loc) (b : Matrix) (w : world) (bn : Z) (d d1 : Dense)
         (g1 g2 g3 g4 : heap),
    Dims b w = Return (Symmetric a, bn) w ->
    objs w !! m = Some d ->
    reuseAs d (Symmetric a) bn (mem w) = Return d1 g1 ->
    (if same_object b m then g2 = g1
     else Copy (<[m := d1]> (objs w)) d1 b g1 = Return tt g2) ->
    Trsm blas.Left (if upper then blas.Trans else blas.NoTrans) 1 t' d1 g2 =
      Return tt g3 ->
    Trsm blas.Left (if upper then blas.NoTrans else blas.Trans) 1 t' d1 g3 =
      Return tt g4 ->
    SolveCholesky reuseAs Copy Trsm m t' b w =
    Return tt
      (mkWorld (<[m := d1]> (objs w)) g4
         (calls w ++ (if same_object b m then [] else [CallCopy m b]) ++
          [CallTrsm blas.Left (if upper then blas.Trans else blas.NoTrans) 1 t' d1;
           CallTrsm blas.Left (if upper then blas.NoTrans else blas.Trans) 1 t' d1])).
Proof.
  intros Hrun m b w bn d d1 g1 g2 g3 g4 Hdims Hm Hre Hcp Hk1 Hk2.
  destruct (Cholesky_true_header a upper t t' h h' Hrun) as [HN HU].
  rewrite <- HN in *.
  rewrite SolveCholesky_steps.
  rewrite (bind_Return _ _ _ _ _ Hdims).
  rewrite Z.eqb_refl; simpl.
  rewrite (bind_Return _ _ _ _ _
             (copy_in_valid reuseAs Copy _ _ _ _ _ _ _ _ _ Hm Hre Hcp)).
  set (w1 := mkWorld _ g2 _).
  assert (Hm1 : objs w1 !! m = Some d1) by (subst w1; simpl; apply lookup_insert_eq).
  rewrite HU.
  destruct upper; unfold orientation, blas.Upper, blas.Lower in *; simpl;
    rewrite (bind_Return _ _ _ _ _ (do_Trsm_valid Trsm _ _ _ _ _ w1 _ _ Hm1 Hk1));
    rewrite (do_Trsm_valid Trsm _ _ _ _ _ _ d1 g4); subst w1; simpl;
    try done; by rewrite <- !app_assoc.
Qed.
End FactorThenSolve.

(** * Instances *)

(** The portable unitary kernel computes the dot product [dot_ref] of its
    arguments. *)
Lemma DdotUnitary_loop_zip (x y : list float64) (i : nat) (sum : float64) :
  (i + length x <= length y)%nat ->
  DdotUnitary_loop x y i sum =
  Some (fold_left (fun sum p => (sum + p.2 * p.1)%float) (zip x (drop i y)) sum).
Proof.
  revert i sum. induction x as [|v x IH]; intros i sum Hlen; [done|].
  simpl in *.
  destruct (lookup_lt_is_Some_2 y i) as [yv Hy]; [lia|].
  rewrite Hy, (drop_S _ _ _ Hy). simpl. apply IH. lia.
Qed.

Lemma length_gather (x : list float64) (n inc i0 : Z) :
  length (gather x n inc i0) = Z.to_nat n.
Proof. unfold gather. by rewrite length_map, length_zrange. Qed.

Lemma DdotInc_ref_gathers_unitary : DdotInc_gathers DdotInc_ref DdotUnitary_ref.
Proof.
  intros x y n incX incY ix iy Hn Hx Hy.
  rewrite (DdotInc_ref_gathers x y n incX incY ix iy Hn Hx Hy).
  unfold dot_ref, DdotUnitary_ref.
  rewrite DdotUnitary_loop_zip by (rewrite !length_gather; lia).
  by rewrite drop_0.
Qed.

Lemma stale_heap_wf : wf_sym stale_heap spd_input.
Proof.
  unfold wf_sym, wf_square, wf_slice, stale_heap, spd_heap, max_int; simpl.
  rewrite lookup_insert_ne by done. rewrite lookup_singleton_eq; simpl. lia.
Qed.

Lemma stale_target_wf : wf_tri stale_heap stale_target.
Proof.
  unfold wf_tri, wf_square, wf_slice, stale_heap, max_int; simpl.
  rewrite lookup_insert_eq; simpl. lia.
Qed.

Lemma wide_input_wf : wf_sym wide_heap wide_input.
Proof.
  unfold wf_sym, wf_square, wf_slice, wide_heap, max_int; simpl.
  rewrite lookup_insert_ne by done. rewrite lookup_singleton_eq; simpl. lia.
Qed.

Lemma wide_target_wf : wf_tri wide_heap stale_target.
Proof.
  unfold wf_tri, wf_square, wf_slice, wide_heap, max_int; simpl.
  rewrite lookup_insert_eq; simpl. lia.
Qed.

Lemma Cholesky_depends_only_on_input_witness :
  exists ok t1' h1' t2' h2',
    Cholesky DdotInc_ref DdotUnitary_ref spd_input false (empty_target, spd_heap) =
      Return ok (t1', h1') /\
    Cholesky DdotInc_ref DdotUnitary_ref wide_input false (stale_target, wide_heap) =
      Return ok (t2', h2') /\
    (ok = true ->
     forall r c, 0 <= r < Symmetric spd_input -> 0 <= c < Symmetric spd_input ->
       exists x, TriIdx.At t1' r c h1' = Return x h1' /\
                 TriIdx.At t2' r c h2' = Return x h2').
Proof.
  apply (Cholesky_depends_only_on_input DdotInc_ref DdotUnitary_ref dot_ref
           spd_input wide_input false empty_target stale_target
           spd_heap wide_heap).
  - apply DdotInc_ref_safe.
  - apply DdotUnitary_ref_safe.
  - apply DdotInc_ref_gathers.
  - apply spd_input_wf.
  - left. reflexivity.
  - unfold separate; simpl. discriminate.
  - apply wide_input_wf.
  - split; [reflexivity | apply wide_target_wf].
  - unfold separate; simpl. discriminate.
  - reflexivity.
  - intros r c Hr Hc. simpl in Hr, Hc.
    assert (Er : r = 0 \/ r = 1) by lia. assert (Ec : c = 0 \/ c = 1) by lia.
    destruct Er as [-> | ->], Ec as [-> | ->].
    + exists 4%float. split; vm_compute; reflexivity.
    + exists 2%float. split; vm_compute; reflexivity.
    + exists 2%float. split; vm_compute; reflexivity.
    + exists 5%float. split; vm_compute; reflexivity.
Defined.

Lemma Cholesky_upper_is_transpose_of_lower_witness :
  exists ok tU' hU' tL' hL',
    Cholesky DdotInc_ref DdotUnitary_ref spd_input true (empty_target, stale_heap) =
      Return ok (tU', hU') /\
    Cholesky DdotInc_ref DdotUnitary_ref spd_input false (stale_target, stale_heap) =
      Return ok (tL', hL') /\
    (ok = true ->
     forall r c, 0 <= r < Symmetric spd_input -> 0 <= c < Symmetric spd_input ->
       exists x, TriIdx.At tU' r c hU' = Return x hU' /\
                 TriIdx.At tL' c r hL' = Return x hL').
Proof.
  apply (Cholesky_upper_is_transpose_of_lower DdotInc_ref DdotUnitary_ref
           spd_input empty_target stale_target stale_heap).
  - apply DdotInc_ref_safe.
  - apply DdotUnitary_ref_safe.
  - apply DdotInc_ref_gathers_unitary.
  - apply stale_heap_wf.
  - left. reflexivity.
  - unfold separate; simpl. discriminate.
  - split; [reflexivity | apply stale_target_wf].
  - unfold separate; simpl. discriminate.
Defined.

Lemma Cholesky_never_writes_inactive_half_witness :
  index (final_state (Cholesky DdotInc_ref DdotUnitary_ref spd_input true
                        (stale_target, stale_heap))).2
        (tData stale_target) (1 * tStride stale_target + 0) =
  index stale_heap (tData stale_target) (1 * tStride stale_target + 0).
Proof.
  apply (Cholesky_never_writes_inactive_half DdotInc_ref DdotUnitary_ref
           spd_input true stale_target stale_heap 1 0).
  - apply stale_target_wf.
  - simpl. lia.
  - simpl. lia.
  - unfold inactive. lia.
Defined.

Lemma Cholesky_factor_accepted_by_SolveCholesky_witness :
  let reuseAs := fun (d : Dense) (_ _ : Z) => ret d : M heap Dense in
  let Copy := fun (_ : gmap loc Dense) (_ : Dense) (_ : Matrix) =>
                ret tt : M heap unit in
  let Trsm := fun (_ : blas.Side) (_ : blas.Transpose) (_ : float64)
                  (_ : TriDense) (_ : Dense) => ret tt : M heap unit in
  let t' := mkTri 2 2 (mkSlice 2%positive 0 4 4) blas.Upper blas.NonUnit in
  let d := mkDense 2 1 1 (mkSlice 5%positive 0 2 2) in
  let w := mkWorld {[ 5%positive := d ]} ∅ [] in
  SolveCholesky reuseAs Copy Trsm 5%positive t' (MOther 2 1) w =
  Return tt (mkWorld (<[5%positive := d]> {[ 5%positive := d ]}) ∅
               [CallCopy 5%positive (MOther 2 1);
                CallTrsm blas.Left blas.Trans 1 t' d;
                CallTrsm blas.Left blas.NoTrans 1 t' d]).
Proof.
  exact (Cholesky_factor_accepted_by_SolveCholesky
           DdotInc_ref DdotUnitary_ref
           (fun d _ _ => ret d) (fun _ _ _ => ret tt) (fun _ _ _ _ _ => ret tt)
           spd_input true empty_target
           (mkTri 2 2 (mkSlice 2%positive 0 4 4) blas.Upper blas.NonUnit)
           spd_heap (<[2%positive := [2; 1; 0; 2]%float]> spd_heap)
           (proj2 Cholesky_spd_input)
           5%positive (MOther 2 1)
           (mkWorld {[ 5%positive := mkDense 2 1 1 (mkSlice 5%positive 0 2 2) ]} ∅ [])
           1 (mkDense 2 1 1 (mkSlice 5%positive 0 2 2))
           (mkDense 2 1 1 (mkSlice 5%positive 0 2 2)) ∅ ∅ ∅ ∅
           eq_refl eq_refl eq_refl eq_refl eq_refl eq_refl).
Defined.
